(** * complete.py: the Completer class and its supporting classes

    A shallow embedding of [complete.py] (text normalisation and
    prettification, the [Supplier] wrapper, the [Completer] session) and
    the properties of it that the specification states.

    - Python text is a list of characters; the characters are the code
      points below 256, where all of the line and whitespace handling of
      the module happens.
    - The routines of the standard library that the module calls
      ([str.strip], [str.split], [re.split], [textwrap.wrap] with its
      defaults) are functions written after their sources.
    - A call returns a [result]: a value or a raised exception.  A method
      takes the object and returns it as the call leaves it.
    - What lies outside the module (the random generator behind the default
      seed, the inference service) is a state [E] with the functions that
      call a callable and the transport on it; a callable returns a value.
      The run also keeps what reading the token file gives, what the
      constructor of the transport handle does, the cache of the handle
      and the list of the callables called so far.
    - A method that is a plain function of the class is looked up as Python
      looks it up: an item of the instance dictionary with the name of the
      method comes first.  The slots and the property [text] come before
      the instance dictionary, and [__str__] and [__call__] are taken from
      the class.
    - The call of the constructor binds its arguments first: the prompt is
      given by position, the parameters by keyword. *)

From Stdlib Require Import Ascii String.
From Stdlib Require Import List Bool Arith ZArith Lia Permutation Sorted.
Import ListNotations.

Set Implicit Arguments.

(* ================================================================= *)
(** * Text *)

Definition str := list ascii.

(** A literal, written as a Rocq string. *)
Definition py (s : string) : str := list_ascii_of_string s.

Definition LF : ascii := ascii_of_nat 10.
Definition SP : ascii := ascii_of_nat 32.
Definition TAB : ascii := ascii_of_nat 9.
Definition CR : ascii := ascii_of_nat 13.
Definition DQUOTE : ascii := ascii_of_nat 34.
Definition HYPHEN : ascii := ascii_of_nat 45.

Definition is_nl (c : ascii) : bool := Ascii.eqb c LF.

(** [str.isspace] on one character: the characters [str.strip] removes.
    Below 256 these are tab to carriage return, the four separators
    28..31, the space, NEL (133) and the no-break space (160). *)
Definition isspace (c : ascii) : bool :=
  let n := nat_of_ascii c in
  ((9 <=? n) && (n <=? 13)) || ((28 <=? n) && (n <=? 32))
  || (n =? 133) || (n =? 160).

(** [str.lstrip()], [str.rstrip()], [str.strip()]. *)
Fixpoint lstrip (s : str) : str :=
  match s with
  | [] => []
  | c :: s' => if isspace c then lstrip s' else s
  end.

Fixpoint rstrip (s : str) : str :=
  match s with
  | [] => []
  | c :: s' =>
      match rstrip s' with
      | [] => if isspace c then [] else [c]
      | r => c :: r
      end
  end.

Definition strip (s : str) : str := rstrip (lstrip s).

(** [s.replace(old, new)] for one-character [old] and [new]. *)
Definition replace (old new : ascii) (s : str) : str :=
  map (fun c => if Ascii.eqb c old then new else c) s.

(** [sep.join(parts)]. *)
Fixpoint join (sep : str) (parts : list str) : str :=
  match parts with
  | [] => []
  | [p] => p
  | p :: ps => p ++ sep ++ join sep ps
  end.

(** Puts a character in front of the piece being read. *)
Definition cons_head (c : ascii) (pieces : list str) : list str :=
  match pieces with
  | [] => [[c]]
  | p :: ps => (c :: p) :: ps
  end.

(** [s.split(sep)] for a one-character separator: never an empty list. *)
Fixpoint split (sep : ascii) (s : str) : list str :=
  match s with
  | [] => [[]]
  | c :: s' =>
      if Ascii.eqb c sep then [] :: split sep s'
      else cons_head c (split sep s')
  end.

(** ** The paragraph break [_PARA_BREAK = re.compile(r'\n{2,}')] *)

Definition starts_nl (s : str) : bool :=
  match s with
  | c :: _ => is_nl c
  | [] => false
  end.

(** [_PARA_BREAK.split(text)].  The pattern is greedy and never matches
    the empty string, so the matches are the maximal runs of two or more
    newlines, found from left to right, and the result is the list of the
    pieces between them (an empty piece before a leading and after a
    trailing match).  [in_match] says that the scan is inside a match. *)
Fixpoint _PARA_BREAK_split_from (in_match : bool) (text : str) : list str :=
  match text with
  | [] => [[]]
  | c :: rest =>
      if in_match then
        if is_nl c then _PARA_BREAK_split_from true rest
        else cons_head c (_PARA_BREAK_split_from false rest)
      else
        if is_nl c && starts_nl rest
        then [] :: _PARA_BREAK_split_from true rest
        else cons_head c (_PARA_BREAK_split_from false rest)
  end.

Definition _PARA_BREAK_split (text : str) : list str :=
  _PARA_BREAK_split_from false text.

(** [_PARA_BREAK.search(text) is not None]. *)
Fixpoint _PARA_BREAK_search (text : str) : bool :=
  match text with
  | [] => false
  | c :: rest => (is_nl c && starts_nl rest) || _PARA_BREAK_search rest
  end.

(** ** The two formatters *)

(** Remove any hard wrapping and separate paragraphs by single newlines. *)
Definition _normalize_paragraphs (text : str) : str :=
  let pretty := _PARA_BREAK_split text in
  let raw := map (fun para => replace LF SP (strip para)) pretty in
  join [LF] raw.

(** The work on one paragraph: [para.strip().replace('\n', ' ')]. *)
Definition unwrap (para : str) : str := replace LF SP (strip para).

(** Each piece counted with the two newlines of the shortest break: the
    measure that bounds the pieces of a text by its length. *)
Fixpoint weight (pieces : list str) : nat :=
  match pieces with
  | [] => 0
  | p :: ps => length p + 2 + weight ps
  end.

(* ================================================================= *)
(** * [textwrap.wrap], as [_prettify_paragraphs] calls it

    The defaults of [TextWrapper]: [width=70], no indents, [expand_tabs],
    [replace_whitespace], [drop_whitespace], [break_long_words] and
    [break_on_hyphens] on, [fix_sentence_endings] off, [tabsize=8], no
    [max_lines]. *)

Definition width : nat := 70.
Definition tabsize : nat := 8.

Definition code_in (lo hi : nat) (c : ascii) : bool :=
  (lo <=? nat_of_ascii c) && (nat_of_ascii c <=? hi).

(** [textwrap._whitespace], the class [[\t\n\x0b\x0c\r ]] of its patterns. *)
Definition is_ws (c : ascii) : bool := code_in 9 13 c || code_in 32 32 c.

(** [\d] and [\w] on text, below 256. *)
Definition is_digit (c : ascii) : bool := code_in 48 57 c.

Definition is_word_char (c : ascii) : bool :=
  code_in 48 57 c || code_in 65 90 c || code_in 95 95 c || code_in 97 122 c
  || code_in 170 170 c || code_in 178 179 c || code_in 181 181 c
  || code_in 185 186 c || code_in 188 190 c || code_in 192 214 c
  || code_in 216 246 c || code_in 248 255 c.

(** [letter], a word character that is no digit, and [word_punct], a word
    character or one of the marks 33, 34, 38, 39, 44, 46 and 63 (the
    exclamation mark, the two quotes, the ampersand, comma, full stop and
    question mark). *)
Definition is_letter (c : ascii) : bool := is_word_char c && negb (is_digit c).

Definition is_word_punct (c : ascii) : bool :=
  is_word_char c || code_in 33 34 c || code_in 38 39 c || code_in 44 44 c
  || code_in 46 46 c || code_in 63 63 c.

Definition is_hyphen (c : ascii) : bool := Ascii.eqb c HYPHEN.

(** [str.expandtabs(tabsize)], from column [col]. *)
Fixpoint expandtabs_from (col : nat) (s : str) : str :=
  match s with
  | [] => []
  | c :: s' =>
      if Ascii.eqb c TAB then
        let incr := tabsize - col mod tabsize in
        repeat SP incr ++ expandtabs_from (col + incr) s'
      else if Ascii.eqb c LF || Ascii.eqb c CR then c :: expandtabs_from 0 s'
      else c :: expandtabs_from (S col) s'
  end.

(** [unicode_whitespace_trans]: every whitespace character to a space. *)
Definition to_space (c : ascii) : ascii := if is_ws c then SP else c.

(** [TextWrapper._munge_whitespace]. *)
Definition _munge_whitespace (text : str) : str :=
  map to_space (expandtabs_from 0 text).

(** ** [wordsep_re]

    The pattern never matches the empty string and matches at every
    position of a text, so that [wordsep_re.split] cuts the text into its
    matches, one after the other.  The functions below give the length of
    the match at a position; [before] is the text before the position, last
    character first, for the lookbehinds. *)

(** The length of the run of characters of a class at the head. *)
Fixpoint run_length (p : ascii -> bool) (t : str) : nat :=
  match t with
  | c :: t' => if p c then S (run_length p t') else 0
  | [] => 0
  end.

Definition heads (p : ascii -> bool) (t : str) : bool :=
  match t with
  | c :: _ => p c
  | [] => false
  end.

(** [-{2,}(?=\w)] at the head of [t]: the length of the match. *)
Definition em_dash (t : str) : option nat :=
  let k := run_length is_hyphen t in
  if (2 <=? k) && heads is_word_char (skipn k t) then Some k else None.

(** The hyphen of a hyphenated word at the head of [t]:
    [-(?:(?<=lt{2}-)|(?<=lt-lt-))(?=lt-?lt)]. *)
Definition hyphen_break (before t : str) : bool :=
  match t with
  | c :: after =>
      is_hyphen c
      && (match before with
          | l1 :: l2 :: rest =>
              (is_letter l1 && is_letter l2)
              || (is_letter l1 && is_hyphen l2 && heads is_letter rest)
          | _ => false
          end)
      && (match after with
          | a :: after' =>
              is_letter a
              && ((heads is_hyphen after' && heads is_letter (tl after'))
                  || heads is_letter after')
          | [] => false
          end)
  | [] => false
  end.

(** The third alternative, after its first character: how many more
    characters the lazy [nws+?] and the ending take. *)
Fixpoint word_rest (before t : str) : nat :=
  match t with
  | [] => 0
  | c :: t' =>
      if hyphen_break before t then 1
      else if is_ws c then 0
      else if heads is_word_punct before
              && match em_dash t with Some _ => true | None => false end
      then 0
      else S (word_rest (c :: before) t')
  end.

(** The length of the match of [wordsep_re] at the head of [t]. *)
Definition wordsep_match (before t : str) : nat :=
  match t with
  | [] => 0
  | c :: t' =>
      if is_ws c then run_length is_ws t
      else
        match (if heads is_word_punct before then em_dash t else None) with
        | Some k => k
        | None => S (word_rest (c :: before) t')
        end
  end.

(** [TextWrapper._split]: the chunks of [t]. *)
Fixpoint split_chunks (fuel : nat) (before t : str) : list str :=
  match fuel with
  | 0 => []
  | S fuel' =>
      match t with
      | [] => []
      | _ :: _ =>
          let n := wordsep_match before t in
          firstn n t
          :: split_chunks fuel' (rev (firstn n t) ++ before) (skipn n t)
      end
  end.

Definition _split (text : str) : list str :=
  split_chunks (length text) [] text.

(** ** [_wrap_chunks] *)

(** [chunk.strip() == '']. *)
Definition blank (chunk : str) : bool :=
  match strip chunk with
  | [] => true
  | _ :: _ => false
  end.

(** [chunk.rfind('-', 0, stop)]: the last index below [stop] that holds a
    hyphen. *)
Fixpoint rfind_hyphen_from (i stop : nat) (chunk : str) : option nat :=
  match chunk with
  | [] => None
  | c :: chunk' =>
      if i <? stop then
        match rfind_hyphen_from (S i) stop chunk' with
        | Some j => Some j
        | None => if is_hyphen c then Some i else None
        end
      else None
  end.

(** The inner loop: the chunks that fit on the line. *)
Fixpoint fill_line (cur_line : list str) (cur_len : nat) (chunks : list str)
  : list str * nat * list str :=
  match chunks with
  | [] => (cur_line, cur_len, [])
  | chunk :: rest =>
      if cur_len + length chunk <=? width
      then fill_line (cur_line ++ [chunk]) (cur_len + length chunk) rest
      else (cur_line, cur_len, chunks)
  end.

(** Where [_handle_long_word] cuts [chunk], with [space_left] columns left
    on the line: after the last hyphen that fits, if there is one with
    something else than hyphens before it, and else where the line ends. *)
Definition break_at (chunk : str) (space_left : nat) : nat :=
  if space_left <? length chunk then
    match rfind_hyphen_from 0 space_left chunk with
    | Some hyphen =>
        if (0 <? hyphen)
           && existsb (fun c => negb (is_hyphen c)) (firstn hyphen chunk)
        then hyphen + 1
        else space_left
    | None => space_left
    end
  else space_left.

(** [_handle_long_word]: the chunks and the line it leaves. *)
Definition _handle_long_word (chunks cur_line : list str) (cur_len : nat)
  : list str * list str :=
  match chunks with
  | [] => (chunks, cur_line)
  | chunk :: rest =>
      let stop := break_at chunk (width - cur_len) in
      (skipn stop chunk :: rest, cur_line ++ [firstn stop chunk])
  end.

(** The first chunk of a line goes when it is blank, except on the first
    line. *)
Definition drop_first_blank (lines chunks : list str) : list str :=
  match chunks, lines with
  | chunk :: rest, _ :: _ => if blank chunk then rest else chunks
  | _, _ => chunks
  end.

(** The next chunk is too long for any line: [_handle_long_word]. *)
Definition long_word_step (chunks cur_line : list str) (cur_len : nat)
  : list str * list str :=
  match chunks with
  | chunk :: _ =>
      if width <? length chunk
      then _handle_long_word chunks cur_line cur_len
      else (chunks, cur_line)
  | [] => (chunks, cur_line)
  end.

(** The last chunk of the line goes when it is blank. *)
Definition drop_last_blank (cur_line : list str) : list str :=
  match rev cur_line with
  | last :: others => if blank last then rev others else cur_line
  | [] => cur_line
  end.

(** [if cur_line: lines.append(''.join(cur_line))]. *)
Definition append_line (lines cur_line : list str) : list str :=
  match cur_line with
  | [] => lines
  | _ :: _ => lines ++ [concat cur_line]
  end.

(** One turn of the outer loop. *)
Definition wrap_line (lines chunks : list str) : list str * list str :=
  let chunks := drop_first_blank lines chunks in
  let '(cur_line, cur_len, chunks) := fill_line [] 0 chunks in
  let (chunks, cur_line) := long_word_step chunks cur_line cur_len in
  (append_line lines (drop_last_blank cur_line), chunks).

(** The outer loop; [None] when [fuel] turns do not empty [chunks]. *)
Fixpoint wrap_lines (fuel : nat) (lines chunks : list str)
  : option (list str) :=
  match chunks with
  | [] => Some lines
  | _ :: _ =>
      match fuel with
      | 0 => None
      | S fuel' =>
          let (lines, chunks) := wrap_line lines chunks in
          wrap_lines fuel' lines chunks
      end
  end.

(** Every turn takes a chunk or a character away. *)
Definition turns (chunks : list str) : nat :=
  length chunks + length (concat chunks).

Definition _wrap_chunks (chunks : list str) : option (list str) :=
  wrap_lines (turns chunks) [] chunks.

(** [textwrap.wrap(text)]. *)
Definition wrap (text : str) : list str :=
  match _wrap_chunks (_split (_munge_whitespace text)) with
  | Some lines => lines
  | None => []
  end.

(** Add hard wrapping and separate paragraphs by blank lines. *)
Definition _prettify_paragraphs (text : str) : str :=
  let raw := split LF (strip text) in
  let pretty := map (fun graf => join [LF] (wrap graf)) raw in
  join [LF; LF] pretty.

(* ================================================================= *)
(** * Python values, exceptions, results *)

(** A callable object: [functools.partial(random.randrange, stop)], or any
    other callable, known by its identity. *)
Inductive Func : Type :=
| partial_randrange (stop : Z)
| func_obj (id : nat).

Definition Func_eqb (f g : Func) : bool :=
  match f, g with
  | partial_randrange a, partial_randrange b => Z.eqb a b
  | func_obj i, func_obj j => Nat.eqb i j
  | _, _ => false
  end.

(** The values that parameters and responses are made of.  A float is the
    binary fraction [m * 2^e]; a dict lists its items in insertion order, a
    key at most once; [PSupplier func] is an instance of [class Supplier],
    [PFunc func] a callable that is not wrapped. *)
#[local] Unset Elimination Schemes.
Inductive PyVal : Type :=
| PNone
| PBool (b : bool)
| PInt (n : Z)
| PFloat (m e : Z)
| PStr (s : str)
| PBytes (s : str)
| PList (items : list PyVal)
| PTuple (items : list PyVal)
| PDict (items : list (str * PyVal))
| PFunc (func : Func)
| PSupplier (_func : Func).
#[local] Set Elimination Schemes.

Definition dict := list (str * PyVal).

Inductive PyExc : Type :=
| TypeError (msg : str)
| ValueError (msg : str)
| AttributeError (name : str)
| FileNotFoundError (filename : str)
| PermissionError (filename : str)
| IsADirectoryError (filename : str)
| UnicodeDecodeError (reason : str)
| CompletionError (args : list PyVal)
| UnexpectedResponseError (response : PyVal)
| TransportError (detail : PyVal).

(** What a call gives: a value, or a raised exception. *)
Inductive result (A : Type) : Type :=
| Return (a : A)
| Raise (e : PyExc).

Arguments Return {A} a.
Arguments Raise {A} e.

(** The usage errors of the specification: a wrong argument. *)
Definition usage_error (e : PyExc) : bool :=
  match e with
  | TypeError _ | ValueError _ => true
  | _ => false
  end.

(** [type(value).__name__]. *)
Definition type_name (value : PyVal) : str :=
  match value with
  | PNone => py "NoneType"
  | PBool _ => py "bool"
  | PInt _ => py "int"
  | PFloat _ _ => py "float"
  | PStr _ => py "str"
  | PBytes _ => py "bytes"
  | PList _ => py "list"
  | PTuple _ => py "tuple"
  | PDict _ => py "dict"
  | PFunc _ => py "function"
  | PSupplier _ => py "Supplier"
  end.

(** What calling a value that is not callable raises. *)
Definition not_callable (value : PyVal) : PyExc :=
  TypeError (py "'" ++ type_name value ++ py "' object is not callable").

Fixpoint str_eqb (a b : str) : bool :=
  match a, b with
  | [], [] => true
  | x :: a', y :: b' => Ascii.eqb x y && str_eqb a' b'
  | _, _ => false
  end.

(** [a < b] on text: lexicographic, by code point. *)
Fixpoint str_ltb (a b : str) : bool :=
  match a, b with
  | _, [] => false
  | [], _ :: _ => true
  | x :: a', y :: b' =>
      if nat_of_ascii x <? nat_of_ascii y then true
      else if nat_of_ascii y <? nat_of_ascii x then false
      else str_ltb a' b'
  end.

Definition str_leb (a b : str) : bool := negb (str_ltb b a).

(** [d.get(key)]. *)
Fixpoint dict_get (d : dict) (key : str) : option PyVal :=
  match d with
  | [] => None
  | (k, v) :: d' => if str_eqb k key then Some v else dict_get d' key
  end.

(** [d[key] = value]: a key that is there keeps its place. *)
Fixpoint dict_set (d : dict) (key : str) (value : PyVal) : dict :=
  match d with
  | [] => [(key, value)]
  | (k, v) :: d' =>
      if str_eqb k key then (k, value) :: d'
      else (k, v) :: dict_set d' key value
  end.

(** [d.update(other)]. *)
Definition dict_update (d other : dict) : dict :=
  fold_left (fun acc kv => dict_set acc (fst kv) (snd kv)) other d.

(** [sorted(d.items())]: the items are pairs, compared by name first; the
    names of a dict differ, so the values are never compared.  The sort is
    stable. *)
Definition item_ltb (a b : str * PyVal) : bool := str_ltb (fst a) (fst b).

Fixpoint insert_item (x : str * PyVal) (l : dict) : dict :=
  match l with
  | [] => [x]
  | y :: l' => if item_ltb y x then y :: insert_item x l' else x :: l
  end.

Fixpoint sorted (items : dict) : dict :=
  match items with
  | [] => []
  | x :: l => insert_item x (sorted l)
  end.

(** [name.startswith('_')]. *)
Definition startswith_underscore (name : str) : bool :=
  match name with
  | c :: _ => Ascii.eqb c (ascii_of_nat 95)
  | [] => false
  end.

(** ** Patterns of the [match] statement *)

(** The subject of a sequence pattern: a sequence that is not a [str],
    [bytes] or [bytearray]. *)
Definition sequence_items (v : PyVal) : option (list PyVal) :=
  match v with
  | PList items | PTuple items => Some items
  | _ => None
  end.

(** The subject of a mapping pattern. *)
Definition mapping_items (v : PyVal) : option dict :=
  match v with
  | PDict items => Some items
  | _ => None
  end.

(** [case [{'generated_text': completion}]]: the captured [completion]. *)
Definition case_generated_text (response : PyVal) : option PyVal :=
  match sequence_items response with
  | Some [item] =>
      match mapping_items item with
      | Some d => dict_get d (py "generated_text")
      | None => None
      end
  | _ => None
  end.

(** [case {'error': [*errors]}]: the captured [errors]. *)
Definition case_error (response : PyVal) : option (list PyVal) :=
  match mapping_items response with
  | Some d =>
      match dict_get d (py "error") with
      | Some v => sequence_items v
      | None => None
      end
  | None => None
  end.

(* ================================================================= *)
(** * The module *)

(** The handle [InferenceApi(repo_id=..., token=...)]. *)
Record InferenceApi : Type := mkInferenceApi {
  repo_id : str;
  token : str
}.

(** An object of [class Completer]: the two slots, unset until they are
    assigned, and the instance dictionary, which holds the parameters. *)
Record Completer : Type := mkCompleter {
  _inference : option InferenceApi;
  _text : option PyVal;
  __dict__ : dict
}.

(** A session: an object with both slots assigned. *)
Definition session (api : InferenceApi) (buffer : PyVal) (params : dict)
  : Completer :=
  {| _inference := Some api; _text := Some buffer; __dict__ := params |}.

(** [object.__new__(Completer)]. *)
Definition new_object : Completer :=
  {| _inference := None; _text := None; __dict__ := [] |}.

Definition set_inference (self : Completer) (api : InferenceApi) : Completer :=
  {| _inference := Some api; _text := _text self;
     __dict__ := __dict__ self |}.

Definition set_text (self : Completer) (value : PyVal) : Completer :=
  {| _inference := _inference self; _text := Some value;
     __dict__ := __dict__ self |}.

Definition set_dict (self : Completer) (d : dict) : Completer :=
  {| _inference := _inference self; _text := _text self; __dict__ := d |}.

(** [self.name = value] for a name that is neither a slot nor a property:
    an item of the instance dictionary. *)
Definition setattr (self : Completer) (name : string) (value : PyVal)
  : Completer :=
  set_dict self (dict_set (__dict__ self) (py name) value).

(** [_normalize_paragraphs(prompt)] on any argument: [re] refuses what is
    not text. *)
Definition normalize_arg (prompt : PyVal) : result PyVal :=
  match prompt with
  | PStr text => Return (PStr (_normalize_paragraphs text))
  | PBytes _ =>
      Raise (TypeError (py "cannot use a string pattern on a bytes-like object"))
  | _ => Raise (TypeError (py "expected string or bytes-like object"))
  end.

(** The property [Completer.text]: getter and setter. *)
Definition text (self : Completer) : result PyVal :=
  match _text self with
  | Some value => Return value
  | None => Raise (AttributeError (py "_text"))
  end.

Definition text_setter (self : Completer) (value : PyVal)
  : result unit * Completer :=
  match value with
  | PStr s =>
      match s with
      | [] => (Raise (ValueError (py "prompt must be nonempty")), self)
      | _ :: _ => (Return tt, set_text self value)
      end
  | _ => (Raise (TypeError (py "prompt must be a string")), self)
  end.

(** [Completer.__str__]: the prettified version of the text stored so
    far; only text has the methods that [_prettify_paragraphs] calls. *)
Definition __str__ (self : Completer) : result str :=
  match text self with
  | Raise e => Raise e
  | Return (PStr s) => Return (_prettify_paragraphs s)
  | Return (PBytes _) =>
      Raise (TypeError (py "a bytes-like object is required, not 'str'"))
  | Return _ => Raise (AttributeError (py "strip"))
  end.

Definition leading_underscore_message : str :=
  py "cannot set parameter name with leading " ++ [DQUOTE] ++ py "_"
  ++ [DQUOTE].

(** [Completer._set_defaults]. *)
Definition _set_defaults (self : Completer) : Completer :=
  let self := setattr self "do_sample" (PBool true) in
  let self := setattr self "max_new_tokens" (PInt 250) in
  let self := setattr self "seed" (PSupplier (partial_randrange (2 ^ 64))) in
  setattr self "temperature" (PFloat 3 (-2)).

(** What [read] makes of the line ends of a file opened as text: a
    carriage return, with the newline that follows it if there is one,
    becomes a newline. *)
Fixpoint universal_newlines (s : str) : str :=
  match s with
  | [] => []
  | c :: s' =>
      if Ascii.eqb c CR then
        LF :: match s' with
              | d :: s'' =>
                  if Ascii.eqb d LF then universal_newlines s''
                  else universal_newlines s'
              | [] => []
              end
      else c :: universal_newlines s'
  end.

(** The names that [def __init__(self, prompt, **parameters)] takes by
    position. *)
Definition positional_name (name : str) : bool :=
  str_eqb name (py "self") || str_eqb name (py "prompt").

Definition multiple_values_message (name : str) : str :=
  py "Completer.__init__() got multiple values for argument '" ++ name
  ++ py "'".

(** Binding the keywords of the call [Completer(prompt, **kwargs)] to
    [**parameters]: the object and the prompt are given by position, so the
    first keyword with one of their names is refused; the others are the
    parameters. *)
Definition bind_parameters (kwargs : dict) : result dict :=
  match find positional_name (map fst kwargs) with
  | Some name => Raise (TypeError (multiple_values_message name))
  | None => Return kwargs
  end.

Section Environment.

(** What lies outside the module: the state [E] of the process and of the
    service (random generator, network), what calling a callable does
    there, and what the transport answers to [inputs] and [params]. *)
Variable E : Type.
Variable call_func : Func -> E -> PyVal * E.
Variable InferenceApi_call :
  InferenceApi -> PyVal -> PyVal -> E -> result PyVal * E.

(** The state a run goes through.  [hf_token] is what opening the file
    [.hf_token] as UTF-8 text and decoding it gives: the characters of the
    file, or the exception raised when the file is not there, cannot be
    read or is not UTF-8; [InferenceApi_raises] is the exception that the
    constructor of the handle raises, if it raises, which asks the service
    about the model; [api_cache] is the memory of [functools.cache];
    [called] lists the callables that were called, in order. *)
Record World : Type := mkWorld {
  env : E;
  hf_token : result str;
  InferenceApi_raises : InferenceApi -> option PyExc;
  api_cache : option InferenceApi;
  called : list Func
}.

Definition set_env (w : World) (e : E) : World :=
  {| env := e; hf_token := hf_token w;
     InferenceApi_raises := InferenceApi_raises w;
     api_cache := api_cache w; called := called w |}.

Definition set_api_cache (w : World) (api : InferenceApi) : World :=
  {| env := env w; hf_token := hf_token w;
     InferenceApi_raises := InferenceApi_raises w;
     api_cache := Some api; called := called w |}.

(** [Supplier.__call__]: [return self._func()]. *)
Definition Supplier_call (_func : Func) (w : World) : PyVal * World :=
  let (value, e) := call_func _func (env w) in
  (value,
   {| env := e; hf_token := hf_token w;
      InferenceApi_raises := InferenceApi_raises w;
      api_cache := api_cache w; called := called w ++ [_func] |}).

(** [_get_inference_api], under [functools.cache]: a handle that was
    returned is kept, an exception is not. *)
Definition _get_inference_api (w : World) : result InferenceApi * World :=
  match api_cache w with
  | Some api => (Return api, w)
  | None =>
      match hf_token w with
      | Raise e => (Raise e, w)
      | Return content =>
          let api := {| repo_id := py "bigscience/bloom";
                        token := strip (universal_newlines content) |} in
          match InferenceApi_raises w api with
          | Some e => (Raise e, w)
          | None => (Return api, set_api_cache w api)
          end
      end
  end.

(** [value() if isinstance(value, Supplier) else value]. *)
Definition resolve (value : PyVal) (w : World) : PyVal * World :=
  match value with
  | PSupplier _func => Supplier_call _func w
  | _ => (value, w)
  end.

(** The dict comprehension of [_build_params], over the sorted items. *)
Fixpoint resolve_items (items : dict) (w : World) : dict * World :=
  match items with
  | [] => ([], w)
  | (name, value) :: rest =>
      let (v, w1) := resolve value w in
      let (built, w2) := resolve_items rest w1 in
      ((name, v) :: built, w2)
  end.

(** [Completer._build_params]. *)
Definition _build_params (self : Completer) (w : World) : dict * World :=
  resolve_items (sorted (__dict__ self)) w.

(** [Completer.__init__], with its arguments bound: what it raises or
    returns, the object as it leaves it, and the world.  The instance
    dictionary of the new object is empty when [self._set_defaults] is
    looked up. *)
Definition __init__ (self : Completer) (prompt : PyVal) (parameters : dict)
  (w : World) : result unit * Completer * World :=
  match _get_inference_api w with
  | (Raise e, w1) => (Raise e, self, w1)
  | (Return api, w1) =>
      let self := set_inference self api in
      match normalize_arg prompt with
      | Raise e => (Raise e, self, w1)
      | Return normalized =>
          match text_setter self normalized with
          | (Raise e, self) => (Raise e, self, w1)
          | (Return _, self) =>
              if existsb startswith_underscore (map fst parameters)
              then (Raise (TypeError leading_underscore_message), self, w1)
              else
                let self := _set_defaults self in
                let self :=
                  set_dict self (dict_update (__dict__ self) parameters) in
                (Return tt, self, w1)
          end
      end
  end.

(** The construction of a [Completer] from a prompt and the bound
    [parameters]: a new object goes through [__init__]; when that raises,
    the caller gets the exception and no object. *)
Definition Completer_new (prompt : PyVal) (parameters : dict) (w : World)
  : result Completer * World :=
  match __init__ new_object prompt parameters w with
  | (Return _, self, w1) => (Return self, w1)
  | (Raise e, _, w1) => (Raise e, w1)
  end.

(** The call [Completer(prompt, **kwargs)]: the arguments are bound, then
    the object is constructed; a keyword that cannot be bound is refused
    before anything else is done. *)
Definition Completer_call (prompt : PyVal) (kwargs : dict) (w : World)
  : result Completer * World :=
  match bind_parameters kwargs with
  | Raise e => (Raise e, w)
  | Return parameters => Completer_new prompt parameters w
  end.

(** [value()]: a callable, wrapped in a [Supplier] or not, is called; any
    other value cannot be. *)
Definition call_value (value : PyVal) (w : World) : result PyVal * World :=
  match value with
  | PFunc func | PSupplier func =>
      let (v, w1) := Supplier_call func w in (Return v, w1)
  | _ => (Raise (not_callable value), w)
  end.

(** [self._build_params()]: [_build_params] is a plain function of the
    class, so an item of the instance dictionary with that name is found
    first, and called in its place. *)
Definition self_build_params (self : Completer) (w : World)
  : result PyVal * World :=
  match dict_get (__dict__ self) (py "_build_params") with
  | Some value => call_value value w
  | None => let (built, w1) := _build_params self w in (Return (PDict built), w1)
  end.

(** [Completer.complete]. *)
Definition complete (self : Completer) (w : World)
  : result unit * Completer * World :=
  match _inference self with
  | None => (Raise (AttributeError (py "_inference")), self, w)
  | Some api =>
      match text self with
      | Raise e => (Raise e, self, w)
      | Return inputs =>
          match self_build_params self w with
          | (Raise e, w1) => (Raise e, self, w1)
          | (Return params, w1) =>
              let (answer, e) := InferenceApi_call api inputs params (env w1) in
              let w2 := set_env w1 e in
              match answer with
              | Raise exc => (Raise exc, self, w2)
              | Return response =>
                  match case_generated_text response with
                  | Some completion =>
                      (Return tt, set_text self completion, w2)
                  | None =>
                      match case_error response with
                      | Some errors =>
                          (Raise (CompletionError errors), self, w2)
                      | None =>
                          (Raise (UnexpectedResponseError response), self, w2)
                      end
                  end
              end
          end
      end
  end.

(** [self.complete()], as [__call__] and the users of a session write it:
    an item of the instance dictionary with the name [complete] is found
    before the method, and called in its place. *)
Definition self_complete (self : Completer) (w : World)
  : result PyVal * Completer * World :=
  match dict_get (__dict__ self) (py "complete") with
  | Some value => let (r, w1) := call_value value w in (r, self, w1)
  | None =>
      match complete self w with
      | (Return _, self, w1) => (Return PNone, self, w1)
      | (Raise e, self, w1) => (Raise e, self, w1)
      end
  end.

(** What the specification asks of [_build_params], item by item: a plain
    value is passed through, a Supplier is called, once, and its place is
    taken by what the call returns; the environment goes from call to
    call. *)
Inductive resolved : E -> dict -> dict -> E -> Prop :=
| resolved_nil (e : E) : resolved e [] [] e
| resolved_plain (e e' : E) (name : str) (value : PyVal) (items built : dict) :
    (forall f, value <> PSupplier f) ->
    resolved e items built e' ->
    resolved e ((name, value) :: items) ((name, value) :: built) e'
| resolved_supplier (e e1 e' : E) (name : str) (f : Func) (value : PyVal)
    (items built : dict) :
    call_func f e = (value, e1) ->
    resolved e1 items built e' ->
    resolved e ((name, PSupplier f) :: items) ((name, value) :: built) e'.

(** The transport, called by the session with the bundle that
    [_build_params] builds in [w], answers [response] and leaves the
    environment [e]. *)
Definition answers (api : InferenceApi) (buffer : PyVal) (params : dict)
  (w : World) (response : PyVal) (e : E) : Prop :=
  let built := _build_params (session api buffer params) w in
  InferenceApi_call api buffer (PDict (fst built)) (env (snd built))
  = (Return response, e).

(** The world in which the transport is called. *)
Definition after_build (api : InferenceApi) (buffer : PyVal)
  (params : dict) (w : World) : World :=
  snd (_build_params (session api buffer params) w).

End Environment.

(** The methods of the class are in reach of a session whose instance
    dictionary holds neither of the names [complete] and
    [_build_params]. *)
Definition methods_in_reach (params : dict) : Prop :=
  dict_get params (py "complete") = None
  /\ dict_get params (py "_build_params") = None.

(* ================================================================= *)
(** * The words of the specification *)

(** The success shape: a single-element sequence containing a mapping with
    key [generated_text]; [text] is the value of that field. *)
Definition success_shape (response text : PyVal) : Prop :=
  exists d,
    (response = PList [PDict d] \/ response = PTuple [PDict d])
    /\ dict_get d (py "generated_text") = Some text.

(** The service-error shape: a mapping with key [error] holding a sequence
    of messages. *)
Definition service_error_shape (response : PyVal) (messages : list PyVal)
  : Prop :=
  exists d,
    response = PDict d
    /\ (dict_get d (py "error") = Some (PList messages)
        \/ dict_get d (py "error") = Some (PTuple messages)).

(** [s.split()]: the whitespace-separated words of [s]. *)
Fixpoint words (s : str) : list str :=
  match s with
  | [] => []
  | c :: s' =>
      if isspace c then words s'
      else if heads isspace s' then [c] :: words s'
      else cons_head c (words s')
  end.

(** A text without whitespace. *)
Definition solid (s : str) : bool := forallb (fun c => negb (isspace c)) s.




(** A text without hyphens whose whitespace is the whitespace that
    [textwrap] knows. *)
Definition plain (t : str) : Prop :=
  forall c, In c t -> is_hyphen c = false /\ isspace c = is_ws c.



(** The characters of [s] that are not whitespace. *)
Definition nonspace (s : str) : str := filter (fun c => negb (isspace c)) s.



(** The invariant of the buffer: a string, and not the empty one. *)
Definition nonempty_str (value : PyVal) : Prop :=
  exists c s, value = PStr (c :: s).

Definition buffer_ok (self : Completer) : Prop :=
  exists value, _text self = Some value /\ nonempty_str value.

Definition Func_eq_dec (f g : Func) : {f = g} + {f <> g}.
Proof. decide equality; [apply Z.eq_dec|apply Nat.eq_dec]. Defined.

(** The names of a bundle are in order when each is at most the next ones. *)
Definition name_le (a b : str * PyVal) : Prop := str_leb (fst a) (fst b) = true.

(** The callables of the Suppliers among [items], in order. *)
Fixpoint supplier_funcs (items : dict) : list Func :=
  match items with
  | [] => []
  | (_, PSupplier f) :: rest => f :: supplier_funcs rest
  | _ :: rest => supplier_funcs rest
  end.

(** ** A stub environment, to run the module on

    The state of the stub is a counter; every callable returns it and
    steps it, and the transport answers [response] whatever it is sent. *)
Definition stub_call (f : Func) (e : nat) : PyVal * nat :=
  (PInt (Z.of_nat e), S e).

Definition stub_transport (response : PyVal)
  (api : InferenceApi) (inputs : PyVal) (params : PyVal) (e : nat)
  : result PyVal * nat :=
  (Return response, e).

Definition stub_api : InferenceApi :=
  {| repo_id := py "bigscience/bloom"; token := py "hf_stub" |}.

(** The world of the stub: no token file, and the handle in the cache. *)
Definition stub_world : World nat :=
  {| env := 0; hf_token := Raise (FileNotFoundError (py ".hf_token"));
     InferenceApi_raises := fun _ => None;
     api_cache := Some stub_api; called := [] |}.

(** A world in which nothing has been done: the token file with
    [content], a constructor of the handle that returns, and no handle in
    the cache. *)
Definition fresh_world (content : str) : World nat :=
  {| env := 0; hf_token := Return content;
     InferenceApi_raises := fun _ => None;
     api_cache := None; called := [] |}.

Definition stub_session (buffer : string) : Completer :=
  {| _inference := Some stub_api; _text := Some (PStr (py buffer));
     __dict__ := __dict__ (_set_defaults new_object) |}.

(** The answers that the specification tries [complete] on. *)
Definition hello_response : PyVal :=
  PList [PDict [(py "generated_text", PStr (py "Hello world"))]].

Definition rate_limited_response : PyVal :=
  PDict [(py "error", PList [PStr (py "rate limited")])].

Definition unexpected_response : PyVal :=
  PDict [(py "unexpected", PStr (py "shape"))].

Definition error_string_response : PyVal :=
  PDict [(py "error", PStr (py "rate limited"))].

Definition empty_text_response : PyVal :=
  PList [PDict [(py "generated_text", PStr [])]].

(* ================================================================= *)
(** * More of the module *)

(** The parameters that [_set_defaults] stores. *)
Definition defaults : dict := __dict__ (_set_defaults new_object).

(** The session that [Completer('Hi', complete=5)] returns: the parameter
    is stored with the defaults. *)
Definition shadowed_session : Completer :=
  session stub_api (PStr (py "Hi"))
    (dict_update defaults [(py "complete", PInt 5)]).

(** A session after the assignment [c._build_params = 5]. *)
Definition reassigned_session : Completer :=
  setattr (stub_session "Hi") "_build_params" (PInt 5).

(** The world with another file [.hf_token]. *)
Definition with_hf_token (E : Type) (w : World E) (content : result str)
  : World E :=
  {| env := env w; hf_token := content;
     InferenceApi_raises := InferenceApi_raises w;
     api_cache := api_cache w; called := called w |}.

Section Display.

Variable E : Type.
Variable call_func : Func -> E -> PyVal * E.
Variable InferenceApi_call :
  InferenceApi -> PyVal -> PyVal -> E -> result PyVal * E.

(** [Completer.__call__]: [self.complete()], then [print(self)]; the last
    component is what the call writes to the standard output. *)
Definition __call__ (self : Completer) (w : World E)
  : result unit * Completer * World E * str :=
  match self_complete call_func InferenceApi_call self w with
  | (Raise e, self, w1) => (Raise e, self, w1, [])
  | (Return _, self, w1) =>
      match __str__ self with
      | Raise e => (Raise e, self, w1, [])
      | Return shown => (Return tt, self, w1, shown ++ [LF])
      end
  end.

End Display.

(** A word that [textwrap] leaves whole: not empty, without whitespace and
    hyphens, and not longer than a line. *)
Definition short_word (w : str) : Prop :=
  w <> [] /\ solid w = true /\ ~ In HYPHEN w /\ length w <= width.

(** A text in normal form whose paragraphs are words with single spaces
    between them. *)
Definition single_spaced (paragraphs : list (list str)) : str :=
  join [LF] (map (join [SP]) paragraphs).

(** The chunks of a paragraph of words with single spaces between them. *)
Fixpoint spaced (ws : list str) : list str :=
  match ws with
  | [] => []
  | w :: rest =>
      match rest with
      | [] => [w]
      | _ :: _ => w :: [SP] :: spaced rest
      end
  end.

(** A text that [strip] leaves as it is, and that is not empty. *)
Definition trim (s : str) : Prop :=
  s <> [] /\ lstrip s = s /\ rstrip s = s.

(** The lines so far, with the space that comes before the next word. *)
Definition lines_before (lines : list str) : str :=
  match lines with
  | [] => []
  | _ :: _ => join [SP] lines ++ [SP]
  end.

(** What a turn of [_wrap_chunks] keeps while it wraps the paragraph [g] of
    short words with single spaces: the lines hold the first words of [g],
    the chunks are the other words, with or without the space before
    them. *)
Definition rewraps (g : str) (lines chunks : list str) : Prop :=
  Forall (fun line => trim line /\ ~ In LF line) lines
  /\ ((chunks = [] /\ lines <> [] /\ join [SP] lines = g)
      \/ exists ws,
           ws <> [] /\ Forall short_word ws
           /\ (chunks = spaced ws \/ (lines <> [] /\ chunks = [SP] :: spaced ws))
           /\ g = lines_before lines ++ join [SP] ws).

(* ================================================================= *)
(** * Properties: the text formatter *)

Example normalize_two_paragraphs :
  _normalize_paragraphs
    (py " Hard" ++ [LF] ++ py "wrapped. " ++ [LF; LF; LF] ++ py "Next")
  = py "Hard wrapped." ++ [LF] ++ py "Next".
Proof. reflexivity. Qed.

Example PARA_BREAK_split_edges :
  _PARA_BREAK_split ([LF; LF; LF] ++ py "a" ++ [LF]) = [[]; py "a" ++ [LF]]
  /\ _PARA_BREAK_split (py "a" ++ [LF; LF]) = [py "a"; []]
  /\ _PARA_BREAK_split [] = [[]].
Proof. repeat split; reflexivity. Qed.

(** ** Characters *)

Lemma isspace_LF : isspace LF = true.
Proof. reflexivity. Qed.

Lemma is_nl_true (c : ascii) : is_nl c = true -> c = LF.
Proof. unfold is_nl. intros H. now apply Ascii.eqb_eq in H. Qed.

Lemma is_nl_isspace (c : ascii) : is_nl c = true -> isspace c = true.
Proof. intros H. apply is_nl_true in H. subst c. reflexivity. Qed.

Lemma is_nl_LF : is_nl LF = true.
Proof. reflexivity. Qed.

(** ** Splitting at paragraph breaks *)

Lemma starts_nl_app_run (pre post : str) (k : nat) :
  1 <= k -> starts_nl (pre ++ repeat LF k ++ post) = starts_nl (pre ++ [LF]).
Proof.
  intros Hk. destruct pre as [|c pre]; simpl.
  - destruct k as [|k]; [lia|]. reflexivity.
  - reflexivity.
Qed.

(** Inside a match, the newlines that follow belong to the match. *)
Lemma split_from_true_run (k : nat) (post : str) :
  _PARA_BREAK_split_from true (repeat LF k ++ post)
  = _PARA_BREAK_split_from true post.
Proof.
  induction k as [|k IH]; simpl; [reflexivity|]. exact IH.
Qed.

(** A run of two or more newlines is a match, whatever its length. *)
Lemma split_from_run (b : bool) (k : nat) (post : str) :
  2 <= k ->
  _PARA_BREAK_split_from b (repeat LF k ++ post)
  = if b then _PARA_BREAK_split_from true post
    else [] :: _PARA_BREAK_split_from true post.
Proof.
  intros Hk. destruct b.
  - apply split_from_true_run.
  - destruct k as [|[|k]]; try lia.
    change (repeat LF (S (S k)) ++ post)
      with (LF :: LF :: repeat LF k ++ post).
    cbn [_PARA_BREAK_split_from]. rewrite is_nl_LF. cbn [starts_nl andb].
    rewrite is_nl_LF. f_equal. apply split_from_true_run.
Qed.

Lemma split_from_run_length (b : bool) (pre post : str) (k m : nat) :
  2 <= k -> 2 <= m ->
  _PARA_BREAK_split_from b (pre ++ repeat LF k ++ post)
  = _PARA_BREAK_split_from b (pre ++ repeat LF m ++ post).
Proof.
  intros Hk Hm. revert b. induction pre as [|c pre IH]; intros b.
  - cbn [app]. now rewrite !split_from_run.
  - cbn [app _PARA_BREAK_split_from].
    rewrite (@starts_nl_app_run pre post k), (@starts_nl_app_run pre post m)
      by lia.
    now rewrite !IH.
Qed.

(** C6: a run of two or more newlines is one paragraph break whatever its
    length: replacing a run of [k >= 2] newlines by a run of [m >= 2]
    newlines, anywhere in any text, leaves the output of
    [_normalize_paragraphs] the same. *)
Theorem normalize_run_length (pre post : str) (k m : nat) :
  2 <= k -> 2 <= m ->
  _normalize_paragraphs (pre ++ repeat LF k ++ post)
  = _normalize_paragraphs (pre ++ repeat LF m ++ post).
Proof.
  intros Hk Hm. unfold _normalize_paragraphs, _PARA_BREAK_split.
  now rewrite (@split_from_run_length false pre post k m).
Qed.

Lemma normalize_run_length_witness :
  2 <= 4 /\ 2 <= 2 /\
  _normalize_paragraphs (py "one" ++ repeat LF 4 ++ py "two")
  = _normalize_paragraphs (py "one" ++ repeat LF 2 ++ py "two").
Proof.
  split; [lia|]. split; [lia|].
  apply (@normalize_run_length (py "one") (py "two") 4 2); lia.
Defined.

(** ** Stripping *)

Lemma lstrip_length (s : str) : length (lstrip s) <= length s.
Proof.
  induction s as [|c s IH]; simpl; [lia|].
  destruct (isspace c); simpl; lia.
Qed.

Lemma rstrip_length (s : str) : length (rstrip s) <= length s.
Proof.
  induction s as [|c s IH]; simpl; [lia|].
  destruct (rstrip s) as [|d r]; [destruct (isspace c)|]; simpl in *; lia.
Qed.

Lemma strip_length (s : str) : length (strip s) <= length s.
Proof.
  unfold strip. pose proof (rstrip_length (lstrip s)).
  pose proof (lstrip_length s). lia.
Qed.

Lemma lstrip_idem (s : str) : lstrip (lstrip s) = lstrip s.
Proof.
  induction s as [|c s IH]; simpl; [reflexivity|].
  destruct (isspace c) eqn:E; [exact IH|]. simpl. now rewrite E.
Qed.

Lemma rstrip_idem (s : str) : rstrip (rstrip s) = rstrip s.
Proof.
  induction s as [|c s IH]; simpl; [reflexivity|].
  destruct (rstrip s) as [|d r] eqn:E.
  - destruct (isspace c) eqn:Ec; simpl; [reflexivity|]. now rewrite Ec.
  - cbn [rstrip]. cbn [rstrip] in IH. now rewrite IH.
Qed.

Lemma lstrip_rstrip (s : str) : lstrip (rstrip s) = rstrip (lstrip s).
Proof.
  induction s as [|c s IH]; simpl; [reflexivity|].
  destruct (isspace c) eqn:Ec.
  - rewrite <- IH. destruct (rstrip s) as [|d r]; simpl; now rewrite ?Ec.
  - cbn [rstrip]. destruct (rstrip s) as [|d r]; simpl; now rewrite Ec.
Qed.

Lemma strip_idem (s : str) : strip (strip s) = strip s.
Proof.
  unfold strip. now rewrite lstrip_rstrip, rstrip_idem, lstrip_idem.
Qed.

(** A character map that keeps whitespace whitespace and the rest the rest
    commutes with stripping. *)
Section StripMap.
Variable f : ascii -> ascii.
Hypothesis f_space : forall c, isspace (f c) = isspace c.

Lemma lstrip_map (s : str) : lstrip (map f s) = map f (lstrip s).
Proof.
  induction s as [|c s IH]; simpl; [reflexivity|].
  rewrite f_space. now destruct (isspace c).
Qed.

Lemma rstrip_map (s : str) : rstrip (map f s) = map f (rstrip s).
Proof.
  induction s as [|c s IH]; simpl; [reflexivity|].
  rewrite IH, f_space.
  destruct (rstrip s); simpl; [now destruct (isspace c)|reflexivity].
Qed.

Lemma strip_map (s : str) : strip (map f s) = map f (strip s).
Proof. unfold strip. now rewrite lstrip_map, rstrip_map. Qed.
End StripMap.

Lemma unwrap_char_space (c : ascii) :
  isspace (if Ascii.eqb c LF then SP else c) = isspace c.
Proof.
  destruct (Ascii.eqb c LF) eqn:E; [|reflexivity].
  apply Ascii.eqb_eq in E. now subst c.
Qed.

Lemma strip_replace (s : str) :
  strip (replace LF SP s) = replace LF SP (strip s).
Proof. unfold replace. apply strip_map. exact unwrap_char_space. Qed.

Lemma replace_length (a b : ascii) (s : str) :
  length (replace a b s) = length s.
Proof. unfold replace. apply length_map. Qed.

Lemma replace_no_LF (s : str) : ~ In LF (replace LF SP s).
Proof.
  unfold replace. intros H. apply in_map_iff in H. destruct H as [c [H _]].
  destruct (Ascii.eqb c LF) eqn:E.
  - discriminate H.
  - apply Ascii.eqb_neq in E. now apply E.
Qed.

Lemma replace_without (s : str) : ~ In LF s -> replace LF SP s = s.
Proof.
  unfold replace. induction s as [|c s IH]; simpl; intros H; [reflexivity|].
  destruct (Ascii.eqb c LF) eqn:E.
  - apply Ascii.eqb_eq in E. subst c. exfalso. apply H. now left.
  - f_equal. apply IH. intros Hin. apply H. now right.
Qed.

(** ** Pieces of a text *)

Lemma split_from_nonempty (b : bool) (text : str) :
  _PARA_BREAK_split_from b text <> [].
Proof.
  revert b. induction text as [|c text IH]; intros b; simpl; [discriminate|].
  destruct b; [destruct (is_nl c)|destruct (is_nl c && starts_nl text)];
    try discriminate; try apply IH;
    (specialize (IH false);
     destruct (_PARA_BREAK_split_from false text); [contradiction|discriminate]).
Qed.

Lemma cons_head_length (c : ascii) (ps : list str) :
  ps <> [] -> length (cons_head c ps) = length ps.
Proof. destruct ps; [contradiction|reflexivity]. Qed.

(** A text without a paragraph break is one piece. *)
Lemma split_single (text : str) :
  _PARA_BREAK_search text = false -> _PARA_BREAK_split text = [text].
Proof.
  unfold _PARA_BREAK_split.
  induction text as [|c text IH]; simpl; intros H; [reflexivity|].
  apply orb_false_iff in H. destruct H as [H1 H2].
  rewrite H1, (IH H2). reflexivity.
Qed.

(** A text with a paragraph break is at least two pieces. *)
Lemma split_several (text : str) :
  _PARA_BREAK_search text = true -> 2 <= length (_PARA_BREAK_split text).
Proof.
  unfold _PARA_BREAK_split.
  induction text as [|c text IH]; simpl; intros H; [discriminate|].
  destruct (is_nl c && starts_nl text); simpl in H.
  - pose proof (@split_from_nonempty true text) as Hn.
    destruct (_PARA_BREAK_split_from true text); [contradiction|simpl; lia].
  - rewrite cons_head_length by apply split_from_nonempty. now apply IH.
Qed.

Lemma no_LF_no_break (text : str) :
  ~ In LF text -> _PARA_BREAK_search text = false.
Proof.
  induction text as [|c text IH]; simpl; intros H; [reflexivity|].
  rewrite IH by (intros Hin; apply H; now right).
  destruct (is_nl c) eqn:E; [|reflexivity].
  apply is_nl_true in E. subst c. exfalso. apply H. now left.
Qed.

Lemma cons_head_weight (c : ascii) (ps : list str) :
  ps <> [] -> weight (cons_head c ps) = S (weight ps).
Proof. destruct ps; [contradiction|reflexivity]. Qed.

Lemma split_from_cons (b : bool) (c : ascii) (rest : str) :
  _PARA_BREAK_split_from b (c :: rest)
  = if b then
      if is_nl c then _PARA_BREAK_split_from true rest
      else cons_head c (_PARA_BREAK_split_from false rest)
    else
      if is_nl c && starts_nl rest
      then [] :: _PARA_BREAK_split_from true rest
      else cons_head c (_PARA_BREAK_split_from false rest).
Proof. reflexivity. Qed.

Lemma split_from_weight_step (c : ascii) (text : str) :
  (forall b, weight (_PARA_BREAK_split_from b text) <= length text + 2) ->
  (forall b d, weight (_PARA_BREAK_split_from b (d :: text))
               <= length (d :: text) + 2) ->
  forall b d, weight (_PARA_BREAK_split_from b (d :: c :: text))
              <= length (d :: c :: text) + 2.
Proof.
  intros H0 H1 b d.
  rewrite split_from_cons. cbn [starts_nl length]. destruct b.
  - destruct (is_nl d).
    + specialize (H1 true c). cbn [length] in H1. lia.
    + rewrite cons_head_weight by apply split_from_nonempty.
      specialize (H1 false c). cbn [length] in H1. lia.
  - destruct (is_nl d && is_nl c) eqn:E.
    + apply andb_true_iff in E. destruct E as [_ E].
      rewrite split_from_cons, E.
      specialize (H0 true). cbn [weight length]. lia.
    + rewrite cons_head_weight by apply split_from_nonempty.
      specialize (H1 false c). cbn [length] in H1. lia.
Qed.

Lemma split_from_weight_pair (text : str) :
  (forall b, weight (_PARA_BREAK_split_from b text) <= length text + 2)
  /\ (forall b d, weight (_PARA_BREAK_split_from b (d :: text))
                  <= length (d :: text) + 2).
Proof.
  induction text as [|c text [IH0 IH1]].
  - split; [intros b; simpl; lia|].
    intros b d. simpl. rewrite andb_false_r.
    destruct b; [destruct (is_nl d)|]; simpl; lia.
  - split; [intros b; apply IH1|]. now apply split_from_weight_step.
Qed.

Lemma split_from_weight (b : bool) (text : str) :
  weight (_PARA_BREAK_split_from b text) <= length text + 2.
Proof. apply split_from_weight_pair. Qed.

Lemma unwrap_length (p : str) : length (unwrap p) <= length p.
Proof. unfold unwrap. rewrite replace_length. apply strip_length. Qed.

Lemma join_unwrap_length (ps : list str) :
  ps <> [] ->
  length (join [LF] (map unwrap ps)) + length ps + 1 <= weight ps.
Proof.
  induction ps as [|p ps IH]; [contradiction|]. intros _.
  pose proof (unwrap_length p) as Hp.
  destruct ps as [|q ps].
  - simpl. lia.
  - assert (Hq : q :: ps <> []) by discriminate. specialize (IH Hq).
    change (join [LF] (map unwrap (p :: q :: ps)))
      with (unwrap p ++ [LF] ++ join [LF] (map unwrap (q :: ps))).
    rewrite !length_app. cbn [weight length] in *. lia.
Qed.

Lemma join_several_LF (ps : list str) :
  2 <= length ps -> In LF (join [LF] ps).
Proof.
  destruct ps as [|p [|q ps]]; simpl; try lia. intros _.
  apply in_or_app. right. now left.
Qed.

Lemma normalize_single (text : str) :
  _PARA_BREAK_search text = false ->
  _normalize_paragraphs text = replace LF SP (strip text).
Proof.
  intros H. unfold _normalize_paragraphs. now rewrite (split_single _ H).
Qed.


Lemma normalize_keeps_LF (text : str) :
  _PARA_BREAK_search text = true -> In LF (_normalize_paragraphs text).
Proof.
  intros H. apply split_several in H. unfold _normalize_paragraphs.
  apply join_several_LF. now rewrite length_map.
Qed.





(* ================================================================= *)
(** * Properties: the response of the service *)

Section Responses.

Variable E : Type.
Variable call_func : Func -> E -> PyVal * E.
Variable InferenceApi_call :
  InferenceApi -> PyVal -> PyVal -> E -> result PyVal * E.

Lemma self_build_params_method (self : Completer) (w : World E) :
  dict_get (__dict__ self) (py "_build_params") = None ->
  self_build_params call_func self w
  = (Return (PDict (fst (_build_params call_func self w))),
     snd (_build_params call_func self w)).
Proof.
  intros H. unfold self_build_params. rewrite H.
  now destruct (_build_params call_func self w).
Qed.

Lemma complete_answered api buffer params w response e :
  dict_get params (py "_build_params") = None ->
  answers call_func InferenceApi_call api buffer params w response e ->
  complete call_func InferenceApi_call (session api buffer params) w
  = match case_generated_text response with
    | Some completion =>
        (Return tt, session api completion params,
         set_env (after_build call_func api buffer params w) e)
    | None =>
        match case_error response with
        | Some errors =>
            (Raise (CompletionError errors), session api buffer params,
             set_env (after_build call_func api buffer params w) e)
        | None =>
            (Raise (UnexpectedResponseError response),
             session api buffer params,
             set_env (after_build call_func api buffer params w) e)
        end
    end.
Proof.
  intros Hb. unfold answers, after_build, complete.
  rewrite (self_build_params_method (session api buffer params) w Hb).
  unfold session. cbn [_inference text _text].
  destruct (_build_params _ _ w) as [built w1].
  cbn [fst snd]. intros ->.
  destruct (case_generated_text response); [reflexivity|].
  destruct (case_error response); reflexivity.
Qed.

(** The call [self.complete()] of a session that has its methods in
    reach, when the transport answers. *)
Lemma self_complete_answered api buffer params w response e :
  methods_in_reach params ->
  answers call_func InferenceApi_call api buffer params w response e ->
  self_complete call_func InferenceApi_call (session api buffer params) w
  = match case_generated_text response with
    | Some completion =>
        (Return PNone, session api completion params,
         set_env (after_build call_func api buffer params w) e)
    | None =>
        match case_error response with
        | Some errors =>
            (Raise (CompletionError errors), session api buffer params,
             set_env (after_build call_func api buffer params w) e)
        | None =>
            (Raise (UnexpectedResponseError response),
             session api buffer params,
             set_env (after_build call_func api buffer params w) e)
        end
    end.
Proof.
  intros [Hc Hb] Ha. unfold self_complete.
  cbn [session __dict__]. rewrite Hc.
  change {| _inference := Some api; _text := Some buffer;
            __dict__ := params |} with (session api buffer params).
  rewrite (complete_answered Hb Ha).
  destruct (case_generated_text response); [reflexivity|].
  destruct (case_error response); reflexivity.
Qed.

(** A stored item with the name [complete] that cannot be called: the call
    raises and does nothing else. *)
Lemma self_complete_hidden (self : Completer) (w : World E) (value : PyVal) :
  dict_get (__dict__ self) (py "complete") = Some value ->
  (forall f, value <> PFunc f) -> (forall f, value <> PSupplier f) ->
  self_complete call_func InferenceApi_call self w
  = (Raise (not_callable value), self, w).
Proof.
  intros H Hf Hs. unfold self_complete. rewrite H.
  destruct value as [| | | | | | | | |f|f]; try reflexivity.
  - exfalso. now apply (Hf f).
  - exfalso. now apply (Hs f).
Qed.

Lemma success_shape_case response completion :
  success_shape response completion ->
  case_generated_text response = Some completion.
Proof. intros [d [[-> | ->] H]]; exact H. Qed.

Lemma case_success_shape response completion :
  case_generated_text response = Some completion ->
  success_shape response completion.
Proof.
  unfold case_generated_text. intros H.
  destruct response as [| | | | | |items|items| | |]; try discriminate H;
    cbn [sequence_items] in H;
    destruct items as [|item [|? ?]]; try discriminate H;
    destruct item; try discriminate H; cbn [mapping_items] in H;
    eexists; (split; [|exact H]); [left|right]; reflexivity.
Qed.

Lemma service_error_shape_case response messages :
  service_error_shape response messages ->
  case_generated_text response = None
  /\ case_error response = Some messages.
Proof.
  intros [d [-> H]]. split; [reflexivity|].
  unfold case_error. cbn [mapping_items]. now destruct H as [-> | ->].
Qed.

Lemma case_service_error_shape response messages :
  case_error response = Some messages ->
  service_error_shape response messages.
Proof.
  unfold case_error. intros H.
  destruct response; try discriminate H. cbn [mapping_items] in H.
  exists items. split; [reflexivity|].
  destruct (dict_get items (py "error")) as [v|]; [|discriminate H].
  destruct v; try discriminate H; cbn [sequence_items] in H;
    injection H as ->; [left|right]; reflexivity.
Qed.

(** C1, amended: for a session whose instance dictionary holds neither of
    the names [complete] and [_build_params], when the transport answers a
    single-element sequence holding a mapping with the key
    [generated_text], the call [self.complete()] raises nothing, returns
    [None], and the buffer becomes the value of that field as it is;
    nothing else of the session changes. *)
Theorem complete_success api buffer params w response e completion :
  methods_in_reach params ->
  answers call_func InferenceApi_call api buffer params w response e ->
  success_shape response completion ->
  self_complete call_func InferenceApi_call (session api buffer params) w
  = (Return PNone, session api completion params,
     set_env (after_build call_func api buffer params w) e).
Proof.
  intros Hm Ha Hs. rewrite (self_complete_answered Hm Ha).
  now rewrite (success_shape_case Hs).
Qed.

(** C2, amended: for a session whose instance dictionary holds neither of
    the names [complete] and [_build_params], when the transport answers a
    mapping whose key [error] holds a sequence of messages, the call
    [self.complete()] raises [CompletionError] with exactly these
    messages; when the answer has neither the success nor the
    service-error shape, it raises [UnexpectedResponseError] with the
    answer itself; in both cases the session, and so the buffer, is as it
    was. *)
Theorem complete_failure api buffer params w response e :
  methods_in_reach params ->
  answers call_func InferenceApi_call api buffer params w response e ->
  (forall messages,
      service_error_shape response messages ->
      self_complete call_func InferenceApi_call (session api buffer params) w
      = (Raise (CompletionError messages), session api buffer params,
         set_env (after_build call_func api buffer params w) e))
  /\ ((forall completion, ~ success_shape response completion) ->
      (forall messages, ~ service_error_shape response messages) ->
      self_complete call_func InferenceApi_call (session api buffer params) w
      = (Raise (UnexpectedResponseError response),
         session api buffer params,
         set_env (after_build call_func api buffer params w) e)).
Proof.
  intros Hm Ha. rewrite (self_complete_answered Hm Ha). split.
  - intros messages Hs. apply service_error_shape_case in Hs.
    destruct Hs as [-> ->]. reflexivity.
  - intros Hno_s Hno_e.
    destruct (case_generated_text response) as [completion|] eqn:Es.
    { exfalso. apply (Hno_s completion). now apply case_success_shape. }
    destruct (case_error response) as [messages|] eqn:Ee.
    { exfalso. apply (Hno_e messages). now apply case_service_error_shape. }
    reflexivity.
Qed.

(** C10, amended: for a session whose instance dictionary holds neither of
    the names [complete] and [_build_params], when the transport answers a
    mapping whose key [error] holds one string, not a sequence of
    messages, the call [self.complete()] raises [UnexpectedResponseError]
    with the whole answer, not [CompletionError]; the session is as it
    was. *)
Theorem complete_error_string api buffer params w d message e :
  methods_in_reach params ->
  answers call_func InferenceApi_call api buffer params w (PDict d) e ->
  dict_get d (py "error") = Some (PStr message) ->
  self_complete call_func InferenceApi_call (session api buffer params) w
  = (Raise (UnexpectedResponseError (PDict d)), session api buffer params,
     set_env (after_build call_func api buffer params w) e).
Proof.
  intros Hm Ha Hd. rewrite (self_complete_answered Hm Ha).
  unfold case_error. cbn [case_generated_text sequence_items mapping_items].
  now rewrite Hd.
Qed.

End Responses.

(** C1, as the specification states it, fails: the constructor stores a
    parameter named [complete] in the instance dictionary, where the call
    [self.complete()] finds it in place of the method; the transport, which
    would answer the success shape, is not called, the call raises
    [TypeError] and the buffer is not replaced.  The same happens at
    [self._build_params()] after an assignment to that name. *)
Lemma complete_success_shadowed :
  Completer_call (PStr (py "Hi")) [(py "complete", PInt 5)] stub_world
  = (Return shadowed_session, stub_world)
  /\ (forall api inputs params e,
         stub_transport hello_response api inputs params e
         = (Return hello_response, e))
  /\ success_shape hello_response (PStr (py "Hello world"))
  /\ self_complete stub_call (stub_transport hello_response)
       shadowed_session stub_world
     = (Raise (TypeError (py "'int' object is not callable")),
        shadowed_session, stub_world)
  /\ _text shadowed_session = Some (PStr (py "Hi"))
  /\ self_complete stub_call (stub_transport hello_response)
       reassigned_session stub_world
     = (Raise (TypeError (py "'int' object is not callable")),
        reassigned_session, stub_world).
Proof.
  split; [reflexivity|]. split; [reflexivity|]. split.
  - eexists. split; [left; reflexivity|reflexivity].
  - repeat split.
Qed.

Lemma complete_success_witness :
  methods_in_reach defaults
  /\ answers stub_call (stub_transport hello_response) stub_api
       (PStr (py "Hi")) defaults stub_world hello_response 1
  /\ success_shape hello_response (PStr (py "Hello world"))
  /\ self_complete stub_call (stub_transport hello_response)
       (stub_session "Hi") stub_world
     = (Return PNone, stub_session "Hello world",
        set_env (after_build stub_call stub_api (PStr (py "Hi")) defaults
                   stub_world) 1).
Proof.
  assert (Hm : methods_in_reach defaults) by (split; reflexivity).
  assert (Ha : answers stub_call (stub_transport hello_response) stub_api
                 (PStr (py "Hi")) defaults stub_world hello_response 1)
    by reflexivity.
  assert (Hs : success_shape hello_response (PStr (py "Hello world"))).
  { eexists. split; [left; reflexivity|reflexivity]. }
  split; [exact Hm|]. split; [exact Ha|]. split; [exact Hs|].
  exact (complete_success Hm Ha Hs).
Defined.

(** C2, as the specification states it, fails: on the session that stores a
    parameter named [complete], the call raises [TypeError], not
    [CompletionError], although the transport would answer the
    service-error shape, and not [UnexpectedResponseError] when it would
    answer another shape; the transport is not called.  The same happens
    at [self._build_params()] after an assignment to that name. *)
Lemma complete_failure_shadowed :
  Completer_call (PStr (py "Hi")) [(py "complete", PInt 5)] stub_world
  = (Return shadowed_session, stub_world)
  /\ service_error_shape rate_limited_response [PStr (py "rate limited")]
  /\ self_complete stub_call (stub_transport rate_limited_response)
       shadowed_session stub_world
     = (Raise (TypeError (py "'int' object is not callable")),
        shadowed_session, stub_world)
  /\ self_complete stub_call (stub_transport unexpected_response)
       shadowed_session stub_world
     = (Raise (TypeError (py "'int' object is not callable")),
        shadowed_session, stub_world)
  /\ self_complete stub_call (stub_transport rate_limited_response)
       reassigned_session stub_world
     = (Raise (TypeError (py "'int' object is not callable")),
        reassigned_session, stub_world).
Proof.
  split; [reflexivity|]. split.
  - eexists. split; [reflexivity|left; reflexivity].
  - repeat split.
Qed.

Lemma complete_failure_witness :
  methods_in_reach defaults
  /\ answers stub_call (stub_transport rate_limited_response) stub_api
       (PStr (py "Hi")) defaults stub_world rate_limited_response 1
  /\ service_error_shape rate_limited_response [PStr (py "rate limited")]
  /\ self_complete stub_call (stub_transport rate_limited_response)
       (stub_session "Hi") stub_world
     = (Raise (CompletionError [PStr (py "rate limited")]),
        stub_session "Hi",
        set_env (after_build stub_call stub_api (PStr (py "Hi")) defaults
                   stub_world) 1)
  /\ answers stub_call (stub_transport unexpected_response) stub_api
       (PStr (py "Hi")) defaults stub_world unexpected_response 1
  /\ self_complete stub_call (stub_transport unexpected_response)
       (stub_session "Hi") stub_world
     = (Raise (UnexpectedResponseError unexpected_response),
        stub_session "Hi",
        set_env (after_build stub_call stub_api (PStr (py "Hi")) defaults
                   stub_world) 1).
Proof.
  assert (Hm : methods_in_reach defaults) by (split; reflexivity).
  assert (Ha : answers stub_call (stub_transport rate_limited_response)
                 stub_api (PStr (py "Hi")) defaults stub_world
                 rate_limited_response 1)
    by reflexivity.
  assert (Hs : service_error_shape rate_limited_response
                 [PStr (py "rate limited")]).
  { eexists. split; [reflexivity|left; reflexivity]. }
  assert (Hb : answers stub_call (stub_transport unexpected_response)
                 stub_api (PStr (py "Hi")) defaults stub_world
                 unexpected_response 1)
    by reflexivity.
  split; [exact Hm|]. split; [exact Ha|]. split; [exact Hs|].
  split; [exact (proj1 (complete_failure Hm Ha) _ Hs)|].
  split; [exact Hb|].
  refine (proj2 (complete_failure Hm Hb) _ _).
  - intros completion [d [[H | H] _]]; discriminate H.
  - intros messages [d [H [H1 | H1]]]; injection H as <-; discriminate H1.
Defined.

(** C10, as the specification states it, fails: on the session that stores
    a parameter named [complete], the call raises [TypeError], not
    [UnexpectedResponseError], although the transport would answer a
    mapping whose key [error] holds one string; the transport is not
    called.  The same happens at [self._build_params()] after an
    assignment to that name. *)
Lemma complete_error_string_shadowed :
  Completer_call (PStr (py "Hi")) [(py "complete", PInt 5)] stub_world
  = (Return shadowed_session, stub_world)
  /\ error_string_response
     = PDict [(py "error", PStr (py "rate limited"))]
  /\ self_complete stub_call (stub_transport error_string_response)
       shadowed_session stub_world
     = (Raise (TypeError (py "'int' object is not callable")),
        shadowed_session, stub_world)
  /\ self_complete stub_call (stub_transport error_string_response)
       reassigned_session stub_world
     = (Raise (TypeError (py "'int' object is not callable")),
        reassigned_session, stub_world).
Proof. repeat split. Qed.

Lemma complete_error_string_witness :
  methods_in_reach defaults
  /\ answers stub_call (stub_transport error_string_response) stub_api
       (PStr (py "Hi")) defaults stub_world error_string_response 1
  /\ self_complete stub_call (stub_transport error_string_response)
       (stub_session "Hi") stub_world
     = (Raise (UnexpectedResponseError error_string_response),
        stub_session "Hi",
        set_env (after_build stub_call stub_api (PStr (py "Hi")) defaults
                   stub_world) 1).
Proof.
  assert (Hm : methods_in_reach defaults) by (split; reflexivity).
  assert (Ha : answers stub_call (stub_transport error_string_response)
                 stub_api (PStr (py "Hi")) defaults stub_world
                 error_string_response 1)
    by reflexivity.
  split; [exact Hm|]. split; [exact Ha|].
  exact (@complete_error_string _ _ _ _ _ _ _ _ (py "rate limited") _ Hm Ha
           eq_refl).
Defined.

(* ================================================================= *)
(** * Properties: construction and the buffer *)

Lemma init_steps (E : Type) (prompt : PyVal) (parameters : dict)
  (w w1 : World E) (api : InferenceApi) :
  _get_inference_api w = (Return api, w1) ->
  __init__ new_object prompt parameters w
  = match normalize_arg prompt with
    | Raise e => (Raise e, set_inference new_object api, w1)
    | Return normalized =>
        match text_setter (set_inference new_object api) normalized with
        | (Raise e, self) => (Raise e, self, w1)
        | (Return _, self) =>
            if existsb startswith_underscore (map fst parameters)
            then (Raise (TypeError leading_underscore_message), self, w1)
            else
              (Return tt,
               set_dict (_set_defaults self)
                 (dict_update (__dict__ (_set_defaults self)) parameters),
               w1)
        end
    end.
Proof. intros H. unfold __init__. rewrite H. reflexivity. Qed.

Lemma text_setter_cases (self : Completer) (value : PyVal) :
  (exists c s, value = PStr (c :: s)
               /\ text_setter self value = (Return tt, set_text self value))
  \/ (value = PStr []
      /\ text_setter self value
         = (Raise (ValueError (py "prompt must be nonempty")), self))
  \/ ((forall s, value <> PStr s)
      /\ text_setter self value
         = (Raise (TypeError (py "prompt must be a string")), self)).
Proof.
  destruct value as [| | | |s| | | | | |];
    try (right; right; split; [intros s0 H; discriminate H|reflexivity]).
  destruct s as [|c s].
  - right. left. split; reflexivity.
  - left. exists c, s. split; reflexivity.
Qed.

(** C8: with the transport handle at hand, constructing a session with the
    empty string as the prompt raises [ValueError], and with a prompt that
    is not a string [TypeError]; the call of the constructor itself raises
    them, and gives no session. *)
Theorem construct_bad_prompt (E : Type) (prompt : PyVal) (parameters : dict)
  (w w1 : World E) (api : InferenceApi) :
  _get_inference_api w = (Return api, w1) ->
  (prompt = PStr [] ->
   Completer_new prompt parameters w
   = (Raise (ValueError (py "prompt must be nonempty")), w1))
  /\ ((forall s, prompt <> PStr s) ->
      exists msg,
        Completer_new prompt parameters w = (Raise (TypeError msg), w1)).
Proof.
  intros Hapi. unfold Completer_new. rewrite (@init_steps E prompt parameters w w1 api Hapi). split.
  - intros ->. reflexivity.
  - intros Hns.
    destruct prompt; try (eexists; reflexivity).
    exfalso. now apply (Hns s).
Qed.

Lemma construct_bad_prompt_witness :
  _get_inference_api stub_world = (Return stub_api, stub_world)
  /\ Completer_new (PStr []) [] stub_world
     = (Raise (ValueError (py "prompt must be nonempty")), stub_world)
  /\ exists msg,
       Completer_new (PInt 7) [] stub_world = (Raise (TypeError msg), stub_world).
Proof.
  assert (H : _get_inference_api stub_world = (Return stub_api, stub_world))
    by reflexivity.
  split; [exact H|]. split.
  - exact (proj1 (@construct_bad_prompt _ (PStr []) [] _ _ _ H) eq_refl).
  - refine (proj2 (@construct_bad_prompt _ (PInt 7) [] _ _ _ H) _).
    intros s Hs. discriminate Hs.
Defined.

Lemma bind_parameters_cases (kwargs : dict) :
  (exists name,
      find positional_name (map fst kwargs) = Some name
      /\ bind_parameters kwargs
         = Raise (TypeError (multiple_values_message name)))
  \/ (find positional_name (map fst kwargs) = None
      /\ bind_parameters kwargs = Return kwargs).
Proof.
  unfold bind_parameters.
  destruct (find positional_name (map fst kwargs)) as [name|].
  - left. now exists name.
  - right. split; reflexivity.
Qed.

Lemma Completer_call_bound (E : Type) (prompt : PyVal) (kwargs : dict)
  (w : World E) :
  find positional_name (map fst kwargs) = None ->
  Completer_call prompt kwargs w = Completer_new prompt kwargs w.
Proof.
  intros H. unfold Completer_call, bind_parameters. now rewrite H.
Qed.

Lemma Completer_call_unbound (E : Type) (prompt : PyVal) (kwargs : dict)
  (w : World E) (name : str) :
  find positional_name (map fst kwargs) = Some name ->
  Completer_call prompt kwargs w
  = (Raise (TypeError (multiple_values_message name)), w).
Proof.
  intros H. unfold Completer_call, bind_parameters. now rewrite H.
Qed.

Lemma get_inference_api_fills (E : Type) (w w1 : World E)
  (api : InferenceApi) :
  _get_inference_api w = (Return api, w1) -> api_cache w1 = Some api.
Proof.
  unfold _get_inference_api.
  destruct (api_cache w) as [a|] eqn:Ec.
  - intros H. injection H as <- <-. exact Ec.
  - destruct (hf_token w) as [content|e]; [|discriminate].
    destruct (InferenceApi_raises w _); [discriminate|].
    intros H. injection H as <- <-. reflexivity.
Qed.

(** C9, as the specification states it, fails: a construction that fails
    for the name of a parameter keeps state.  In a process that has not
    built the handle yet, the failed call leaves the handle in the cache,
    and the object that [__init__] leaves has its handle and its buffer
    assigned; with the token file gone afterwards, a construction that
    would have raised [FileNotFoundError] now returns a session. *)
Lemma construct_reserved_name_keeps_handle :
  let w0 := fresh_world (py "hf_stub") in
  let gone := Raise (FileNotFoundError (py ".hf_token")) in
  api_cache w0 = None
  /\ Completer_call (PStr (py "Hi")) [(py "_secret", PInt 1)] w0
     = (Raise (TypeError leading_underscore_message),
        set_api_cache w0 stub_api)
  /\ api_cache (set_api_cache w0 stub_api) = Some stub_api
  /\ __init__ new_object (PStr (py "Hi")) [(py "_secret", PInt 1)] w0
     = (Raise (TypeError leading_underscore_message),
        {| _inference := Some stub_api; _text := Some (PStr (py "Hi"));
           __dict__ := [] |},
        set_api_cache w0 stub_api)
  /\ Completer_call (PStr (py "Hi")) [] (with_hf_token w0 gone)
     = (Raise (FileNotFoundError (py ".hf_token")), with_hf_token w0 gone)
  /\ Completer_call (PStr (py "Hi")) []
       (with_hf_token (set_api_cache w0 stub_api) gone)
     = (Return (stub_session "Hi"),
        with_hf_token (set_api_cache w0 stub_api) gone).
Proof. repeat split. Qed.

(** C9, amended: constructing a session with a parameter whose name starts
    with an underscore raises a usage error, the caller gets no object and
    no parameter has been stored.  When a keyword is named [self] or
    [prompt], the call is refused with [TypeError] as its arguments are
    bound, and the world is as it was.  Otherwise, with the transport
    handle at hand, the handle stays in the cache, and the object that
    [__init__] leaves has its handle assigned; for a prompt that is a
    string with a normal form that is not empty it has its buffer assigned
    too and the error is the [TypeError] for the name; for another prompt
    the buffer is unset and the error is that of the prompt. *)
Theorem construct_reserved_name (E : Type) (prompt : PyVal)
  (kwargs : dict) (w w1 : World E) (api : InferenceApi) (name : str) :
  _get_inference_api w = (Return api, w1) ->
  In name (map fst kwargs) ->
  startswith_underscore name = true ->
  (forall other,
      find positional_name (map fst kwargs) = Some other ->
      Completer_call prompt kwargs w
      = (Raise (TypeError (multiple_values_message other)), w))
  /\ (find positional_name (map fst kwargs) = None ->
      exists e self,
        usage_error e = true
        /\ Completer_call prompt kwargs w = (Raise e, w1)
        /\ api_cache w1 = Some api
        /\ __init__ new_object prompt kwargs w = (Raise e, self, w1)
        /\ _inference self = Some api
        /\ __dict__ self = []
        /\ match prompt with
           | PStr s =>
               match _normalize_paragraphs s with
               | [] =>
                   _text self = None
                   /\ e = ValueError (py "prompt must be nonempty")
               | c :: t =>
                   _text self = Some (PStr (c :: t))
                   /\ e = TypeError leading_underscore_message
               end
           | _ => _text self = None /\ exists msg, e = TypeError msg
           end).
Proof.
  intros Hapi Hin Hname. split.
  - intros other Hf. now apply Completer_call_unbound.
  - intros Hb.
    assert (Hex : existsb startswith_underscore (map fst kwargs) = true).
    { apply existsb_exists. now exists name. }
    rewrite (@Completer_call_bound E prompt kwargs w Hb).
    pose proof (@get_inference_api_fills E w w1 api Hapi) as Hc.
    unfold Completer_new.
    rewrite (@init_steps E prompt kwargs w w1 api Hapi), Hex.
    destruct prompt as [| | | |s| | | | | |];
      try (do 2 eexists; repeat split; try reflexivity; try exact Hc;
           eexists; reflexivity).
    cbn [normalize_arg text_setter].
    destruct (_normalize_paragraphs s) as [|c t];
      do 2 eexists; repeat split; try reflexivity; exact Hc.
Qed.

Lemma construct_reserved_name_witness :
  let kwargs := [(py "top_k", PInt 5); (py "_secret", PInt 1)] in
  _get_inference_api (fresh_world (py "hf_stub"))
  = (Return stub_api, set_api_cache (fresh_world (py "hf_stub")) stub_api)
  /\ In (py "_secret") (map fst kwargs)
  /\ startswith_underscore (py "_secret") = true
  /\ find positional_name (map fst kwargs) = None
  /\ Completer_call (PStr (py "Hi")) kwargs (fresh_world (py "hf_stub"))
     = (Raise (TypeError leading_underscore_message),
        set_api_cache (fresh_world (py "hf_stub")) stub_api).
Proof.
  intros kwargs.
  assert (H : _get_inference_api (fresh_world (py "hf_stub"))
              = (Return stub_api,
                 set_api_cache (fresh_world (py "hf_stub")) stub_api))
    by reflexivity.
  assert (Hin : In (py "_secret") (map fst kwargs))
    by (right; left; reflexivity).
  split; [exact H|]. split; [exact Hin|]. split; [reflexivity|].
  split; [reflexivity|].
  destruct (proj2 (@construct_reserved_name _ (PStr (py "Hi")) kwargs _ _ _ _
                     H Hin eq_refl) eq_refl)
    as [e [self [_ [Hcall [_ [_ [_ [_ [_ He]]]]]]]]].
  rewrite Hcall. now rewrite He.
Defined.

Lemma set_text_buffer_ok (self : Completer) (value : PyVal) :
  buffer_ok (set_text self value) <-> nonempty_str value.
Proof.
  unfold buffer_ok. cbn [set_text _text]. split.
  - intros [v [H Hv]]. now injection H as <-.
  - intros H. now exists value.
Qed.

(** The constructor returns when the setter has stored the normal form of
    the prompt. *)
Lemma construct_returns (E : Type) (prompt : PyVal) (parameters : dict)
  (w w1 : World E) (self : Completer) :
  Completer_new prompt parameters w = (Return self, w1) ->
  exists value, _text self = Some value /\ nonempty_str value.
Proof.
  unfold Completer_new, __init__.
  destruct (_get_inference_api w) as [[api|e] w2]; [|discriminate].
  destruct (normalize_arg prompt) as [normalized|e]; [|discriminate].
  destruct (text_setter_cases (set_inference new_object api) normalized)
    as [[c [t [Hv ->]]] | [[Hv ->] | [Hv ->]]]; try discriminate.
  destruct (existsb startswith_underscore (map fst parameters));
    [discriminate|].
  intros H. injection H as <- _. exists normalized. split; [reflexivity|].
  now exists c, t.
Qed.

(** What the call [self.complete()] does to the session, whatever the
    transport does: a call that returns has found a stored item in place
    of the method and left the session alone, or has stored the
    [generated_text] of what the transport answered to the buffer and the
    parameters of the session. *)
Lemma self_complete_session (E : Type) (call_func : Func -> E -> PyVal * E)
  (InferenceApi_call :
     InferenceApi -> PyVal -> PyVal -> E -> result PyVal * E)
  (self self' : Completer) (w w' : World E) (r : result PyVal) :
  self_complete call_func InferenceApi_call self w = (r, self', w') ->
  match r with
  | Raise _ => self' = self
  | Return _ =>
      (dict_get (__dict__ self) (py "complete") <> None /\ self' = self)
      \/ (dict_get (__dict__ self) (py "complete") = None
          /\ exists api inputs params w1 response e completion,
               _inference self = Some api
               /\ _text self = Some inputs
               /\ self_build_params call_func self w = (Return params, w1)
               /\ InferenceApi_call api inputs params (env w1)
                  = (Return response, e)
               /\ case_generated_text response = Some completion
               /\ self' = set_text self completion
               /\ w' = set_env w1 e)
  end.
Proof.
  unfold self_complete.
  destruct (dict_get (__dict__ self) (py "complete")) as [value|] eqn:Ed.
  { destruct (call_value call_func value w) as [[v|e] w1];
      intros H; injection H as <- <- _; [|reflexivity].
    left. split; [discriminate|reflexivity]. }
  unfold complete.
  destruct (_inference self) as [api|]; [|intros H; now injection H as <- <- _].
  unfold text.
  destruct (_text self) as [inputs|]; [|intros H; now injection H as <- <- _].
  destruct (self_build_params call_func self w) as [[params|e] w1];
    [|intros H; now injection H as <- <- _].
  destruct (InferenceApi_call api inputs params (env w1))
    as [[response|e] e1] eqn:Et; [|intros H; now injection H as <- <- _].
  destruct (case_generated_text response) as [completion|] eqn:Ec.
  - intros H. injection H as <- <- <-. right. split; [reflexivity|].
    exists api, inputs, params, w1, response, e1, completion.
    repeat split; assumption.
  - destruct (case_error response); intros H; now injection H as <- <- _.
Qed.

(** C4, as the specification states it, fails: a session with a good buffer
    whose transport answers an empty [generated_text] completes without an
    error and is left with the empty string as its buffer. *)
Lemma complete_stores_empty_text :
  buffer_ok (stub_session "Hi")
  /\ self_complete stub_call (stub_transport empty_text_response)
       (stub_session "Hi") stub_world
     = (Return PNone, set_text (stub_session "Hi") (PStr []),
        {| env := 1; hf_token := hf_token stub_world;
           InferenceApi_raises := InferenceApi_raises stub_world;
           api_cache := Some stub_api;
           called := [partial_randrange (2 ^ 64)] |})
  /\ ~ buffer_ok (set_text (stub_session "Hi") (PStr [])).
Proof.
  split; [|split].
  - eexists. split; [reflexivity|]. now eexists _, _.
  - reflexivity.
  - intros [v [H [c [s Hv]]]]. injection H as <-. discriminate Hv.
Qed.

(** C4, amended: the buffer is a string and not the empty one after every
    assignment through the setter of [text], which refuses any other value
    with a usage error and leaves the session as it was, and so after
    construction; a call [self.complete()] that raises leaves the session
    as it was; one that returns has either found a stored item named
    [complete] in place of the method, and left the session as it was, or
    has called the transport with the handle, the buffer and the parameters
    of the session and stored the [generated_text] of its answer as it is,
    so that the buffer is good exactly when that value is a string and not
    the empty one. *)
Theorem buffer_invariant (E : Type) (call_func : Func -> E -> PyVal * E)
  (InferenceApi_call :
     InferenceApi -> PyVal -> PyVal -> E -> result PyVal * E) :
  (forall self value,
      (nonempty_str value
       /\ text_setter self value = (Return tt, set_text self value)
       /\ buffer_ok (set_text self value))
      \/ (~ nonempty_str value
          /\ exists e, text_setter self value = (Raise e, self)
                       /\ usage_error e = true))
  /\ (forall prompt parameters (w w1 : World E) self,
         Completer_new prompt parameters w = (Return self, w1) ->
         buffer_ok self)
  /\ (forall self self' (w w' : World E) r,
         self_complete call_func InferenceApi_call self w = (r, self', w') ->
         match r with
         | Raise _ => self' = self
         | Return _ =>
             (dict_get (__dict__ self) (py "complete") <> None
              /\ self' = self)
             \/ (dict_get (__dict__ self) (py "complete") = None
                 /\ exists api inputs params w1 response e completion,
                      _inference self = Some api
                      /\ _text self = Some inputs
                      /\ self_build_params call_func self w
                         = (Return params, w1)
                      /\ InferenceApi_call api inputs params (env w1)
                         = (Return response, e)
                      /\ case_generated_text response = Some completion
                      /\ self' = set_text self completion
                      /\ w' = set_env w1 e
                      /\ (buffer_ok self' <-> nonempty_str completion))
         end).
Proof.
  split; [|split].
  - intros self value.
    destruct (text_setter_cases self value)
      as [[c [t [Hv ->]]] | [[Hv ->] | [Hv ->]]].
    + left. assert (Hn : nonempty_str value) by now exists c, t.
      split; [exact Hn|]. split; [reflexivity|].
      now apply set_text_buffer_ok.
    + right. split.
      * intros [c [t Hc]]. rewrite Hv in Hc. discriminate Hc.
      * eexists. split; reflexivity.
    + right. split.
      * intros [c [t Hc]]. now apply (Hv (c :: t)).
      * eexists. split; reflexivity.
  - intros prompt parameters w w1 self H.
    exact (construct_returns _ _ _ H).
  - intros self self' w w' r H. apply self_complete_session in H.
    destruct r as [u|e]; [|exact H].
    destruct H as [H | [Hd H]]; [left; exact H|]. right. split; [exact Hd|].
    destruct H as [api [inputs [params [w1 [response [e [completion
      [Hi [Ht [Hb [Ha [Hc [Hs Hw]]]]]]]]]]]]].
    exists api, inputs, params, w1, response, e, completion.
    repeat (split; [assumption|]). rewrite Hs. apply set_text_buffer_ok.
Qed.

Lemma buffer_invariant_witness :
  Completer_new (PStr (py "Hi")) [] stub_world
  = (Return (stub_session "Hi"), stub_world)
  /\ buffer_ok (stub_session "Hi")
  /\ text_setter (stub_session "Hi") (PStr [])
     = (Raise (ValueError (py "prompt must be nonempty")), stub_session "Hi")
  /\ exists params w1,
       self_build_params stub_call (stub_session "Hi") stub_world
       = (Return params, w1)
       /\ stub_transport hello_response stub_api (PStr (py "Hi")) params
            (env w1)
          = (Return hello_response, 1)
       /\ self_complete stub_call (stub_transport hello_response)
            (stub_session "Hi") stub_world
          = (Return PNone, stub_session "Hello world", set_env w1 1).
Proof.
  assert (H : Completer_new (PStr (py "Hi")) [] stub_world
              = (Return (stub_session "Hi"), stub_world))
    by reflexivity.
  split; [exact H|]. split; [|split].
  - exact (proj1 (proj2 (buffer_invariant stub_call
                           (stub_transport hello_response))) _ _ _ _ _ H).
  - reflexivity.
  - assert (Hc : self_complete stub_call (stub_transport hello_response)
                   (stub_session "Hi") stub_world
                 = (Return PNone, stub_session "Hello world",
                    set_env (snd (_build_params stub_call (stub_session "Hi")
                                    stub_world)) 1))
      by reflexivity.
    destruct (proj2 (proj2 (buffer_invariant stub_call
                              (stub_transport hello_response)))
                _ _ _ _ _ Hc)
      as [[_ Hsame] | [_ [api [inputs [params [w1 [response [e [completion
           [_ [Ht [Hb [Ha [_ [_ [Hw _]]]]]]]]]]]]]]]].
    + discriminate Hsame.
    + injection Ht as <-. exists params, w1. split; [exact Hb|].
      assert (Hp : (Return params, w1)
                   = self_build_params stub_call (stub_session "Hi")
                       stub_world) by (symmetry; exact Hb).
      vm_compute in Hp. injection Hp as -> ->. repeat split.
Defined.

(* ================================================================= *)
(** * Properties: the parameters of a request *)

(** ** The order of names *)

Lemma str_ltb_asym (a b : str) : str_ltb a b = true -> str_ltb b a = false.
Proof.
  revert b. induction a as [|x a IH]; intros [|y b]; simpl; try easy.
  destruct (Nat.ltb_spec (nat_of_ascii x) (nat_of_ascii y)) as [Hxy|Hxy];
    destruct (Nat.ltb_spec (nat_of_ascii y) (nat_of_ascii x)) as [Hyx|Hyx];
    try easy; try lia.
  apply IH.
Qed.

Lemma str_leb_trans (a b c : str) :
  str_leb a b = true -> str_leb b c = true -> str_leb a c = true.
Proof.
  unfold str_leb. rewrite !negb_true_iff.
  revert b c. induction a as [|x a IH]; intros [|y b] [|z c]; simpl; try easy.
  destruct (Nat.ltb_spec (nat_of_ascii y) (nat_of_ascii x)) as [Hyx|Hyx];
    [easy|].
  destruct (Nat.ltb_spec (nat_of_ascii x) (nat_of_ascii y)) as [Hxy|Hxy];
    destruct (Nat.ltb_spec (nat_of_ascii z) (nat_of_ascii y)) as [Hzy|Hzy];
    try easy;
    destruct (Nat.ltb_spec (nat_of_ascii y) (nat_of_ascii z)) as [Hyz|Hyz];
    destruct (Nat.ltb_spec (nat_of_ascii z) (nat_of_ascii x)) as [Hzx|Hzx];
    destruct (Nat.ltb_spec (nat_of_ascii x) (nat_of_ascii z)) as [Hxz|Hxz];
    try easy; try lia.
  apply IH.
Qed.

Lemma name_le_trans (a b c : str * PyVal) :
  name_le a b -> name_le b c -> name_le a c.
Proof. unfold name_le. apply str_leb_trans. Qed.

(** ** Sorting the items *)

Lemma insert_item_perm (x : str * PyVal) (l : dict) :
  Permutation (insert_item x l) (x :: l).
Proof.
  induction l as [|y l IH]; simpl; [reflexivity|].
  destruct (item_ltb y x); [|reflexivity].
  rewrite IH. apply perm_swap.
Qed.

Lemma sorted_perm (items : dict) : Permutation (sorted items) items.
Proof.
  induction items as [|x l IH]; simpl; [reflexivity|].
  rewrite insert_item_perm. now constructor.
Qed.

Lemma insert_item_Sorted (x : str * PyVal) (l : dict) :
  Sorted name_le l -> Sorted name_le (insert_item x l).
Proof.
  induction l as [|y l IH]; simpl; intros Hs.
  - repeat constructor.
  - destruct (item_ltb y x) eqn:Eyx.
    + inversion Hs as [|? ? Hl Hhd]; subst. constructor; [now apply IH|].
      assert (Hyx : name_le y x).
      { unfold name_le, str_leb. unfold item_ltb in Eyx.
        now rewrite (str_ltb_asym _ _ Eyx). }
      destruct l as [|z l]; simpl.
      * now constructor.
      * destruct (item_ltb z x); constructor; [|exact Hyx].
        now inversion Hhd.
    + constructor; [exact Hs|]. constructor.
      unfold name_le, str_leb. unfold item_ltb in Eyx. now rewrite Eyx.
Qed.

Lemma sorted_Sorted (items : dict) : StronglySorted name_le (sorted items).
Proof.
  apply Sorted_StronglySorted; [exact name_le_trans|].
  induction items as [|x l IH]; simpl; [constructor|].
  now apply insert_item_Sorted.
Qed.

(** ** The Suppliers of a bundle *)

Lemma supplier_funcs_perm (l l' : dict) :
  Permutation l l' -> Permutation (supplier_funcs l) (supplier_funcs l').
Proof.
  induction 1 as [|[n v] l l' _ IH|[n v] [m u] l|l l' l'' _ IH1 _ IH2].
  - reflexivity.
  - destruct v; simpl; try exact IH. now constructor.
  - destruct v, u; simpl; try reflexivity; try apply perm_swap.
  - now transitivity (supplier_funcs l').
Qed.

Lemma supplier_or_plain (value : PyVal) :
  (exists f, value = PSupplier f) \/ (forall f, value <> PSupplier f).
Proof.
  destruct value as [| | | | | | | | | |g];
    try (right; intros f Hf; discriminate Hf).
  left. now exists g.
Qed.

Lemma supplier_funcs_plain (name : str) (value : PyVal) (items : dict) :
  (forall f, value <> PSupplier f) ->
  supplier_funcs ((name, value) :: items) = supplier_funcs items.
Proof.
  intros H. destruct value as [| | | | | | | | | |g]; try reflexivity.
  exfalso. now apply (H g).
Qed.

Section Parameters.

Variable E : Type.
Variable call_func : Func -> E -> PyVal * E.

Lemma resolve_plain (value : PyVal) (w : World E) :
  (forall f, value <> PSupplier f) -> resolve call_func value w = (value, w).
Proof.
  intros H. destruct value as [| | | | | | | | | |g]; try reflexivity.
  exfalso. now apply (H g).
Qed.

(** The loop of the comprehension, against the words of the
    specification. *)
Lemma resolve_items_spec (items : dict) (w : World E) :
  let built := fst (resolve_items call_func items w) in
  let w' := snd (resolve_items call_func items w) in
  resolved call_func (env w) items built (env w')
  /\ map fst built = map fst items
  /\ called w' = called w ++ supplier_funcs items
  /\ hf_token w' = hf_token w
  /\ api_cache w' = api_cache w
  /\ (forall name value, In (name, value) items ->
        (forall f, value <> PSupplier f) -> In (name, value) built).
Proof.
  revert w. induction items as [|[name value] items IH]; intros w.
  - simpl. rewrite app_nil_r. repeat split; try constructor. intros ? ? [].
  - cbn [resolve_items].
    destruct (resolve call_func value w) as [v w1] eqn:Er.
    specialize (IH w1).
    destruct (resolve_items call_func items w1) as [built w2].
    cbn [fst snd] in *.
    destruct IH as [Hres [Hnames [Hcalled [Htok [Hcache Hplain]]]]].
    destruct (supplier_or_plain value) as [[g ->] | Hv].
    + cbn [resolve] in Er. unfold Supplier_call in Er.
      destruct (call_func g (env w)) as [v0 e0] eqn:Ec.
      injection Er as <- <-. cbn [env called hf_token api_cache] in *.
      cbn [supplier_funcs map fst]. repeat split.
      * now apply resolved_supplier with (e1 := e0).
      * now rewrite Hnames.
      * rewrite Hcalled, <- app_assoc. reflexivity.
      * exact Htok.
      * exact Hcache.
      * intros n u [Heq | Hin] Hu.
        -- injection Heq as <- <-. exfalso. now apply (Hu g).
        -- right. now apply Hplain.
    + rewrite (resolve_plain _ Hv) in Er. injection Er as <- <-.
      rewrite (supplier_funcs_plain name items Hv). cbn [map fst].
      repeat split.
      * now apply resolved_plain.
      * now rewrite Hnames.
      * exact Hcalled.
      * exact Htok.
      * exact Hcache.
      * intros n u [Heq | Hin] Hu; [left; exact Heq|right; now apply Hplain].
Qed.

(** C5: [_build_params] goes through the items of the stored bundle in the
    order of their names (the sorted items are a permutation of the stored
    ones, each name at most the names after it); the bundle it builds has
    the same names in that order, a plain value passed through as it is and
    a Supplier replaced by what the call of its callable returns; the
    callables called during the call are those of the Suppliers, in that
    order, each called as many times as there are Suppliers holding it:
    once for each Supplier. *)
Theorem build_params_resolves (self : Completer) (w : World E) :
  let items := sorted (__dict__ self) in
  let built := fst (_build_params call_func self w) in
  let w' := snd (_build_params call_func self w) in
  Permutation items (__dict__ self)
  /\ StronglySorted name_le items
  /\ map fst built = map fst items
  /\ resolved call_func (env w) items built (env w')
  /\ called w' = called w ++ supplier_funcs items
  /\ (forall f, count_occ Func_eq_dec (supplier_funcs items) f
                = count_occ Func_eq_dec (supplier_funcs (__dict__ self)) f)
  /\ (forall name value, In (name, value) (__dict__ self) ->
        (forall f, value <> PSupplier f) -> In (name, value) built).
Proof.
  intros items built w'. subst items built w'. unfold _build_params.
  destruct (resolve_items_spec (sorted (__dict__ self)) w)
    as [Hres [Hnames [Hcalled [_ [_ Hplain]]]]].
  split; [apply sorted_perm|]. split; [apply sorted_Sorted|].
  split; [exact Hnames|]. split; [exact Hres|]. split; [exact Hcalled|].
  split.
  - intros f. apply Permutation_count_occ, supplier_funcs_perm, sorted_perm.
  - intros name value Hin Hv. apply Hplain; [|exact Hv].
    apply (Permutation_in _ (Permutation_sym (sorted_perm _)) Hin).
Qed.

End Parameters.

Lemma build_params_resolves_witness :
  called (snd (_build_params stub_call (stub_session "Hi") stub_world))
  = [partial_randrange (2 ^ 64)]
  /\ In (py "max_new_tokens", PInt 250)
       (fst (_build_params stub_call (stub_session "Hi") stub_world)).
Proof.
  destruct (build_params_resolves stub_call (stub_session "Hi") stub_world)
    as [_ [_ [_ [_ [Hcalled [_ Hplain]]]]]].
  split; [exact Hcalled|].
  apply Hplain.
  - right. left. reflexivity.
  - intros f Hf. discriminate Hf.
Defined.

(** Two requests of one session: the parameters come in the order of their
    names, the plain ones as they are stored, the seed anew each time. *)
Example build_params_twice :
  let self :=
    session stub_api (PStr (py "Hi"))
      (dict_update (__dict__ (_set_defaults new_object))
         [(py "top_k", PInt 5); (py "alpha", PFunc (func_obj 1))]) in
  let first := _build_params stub_call self stub_world in
  let second := _build_params stub_call self (snd first) in
  fst first
  = [(py "alpha", PFunc (func_obj 1)); (py "do_sample", PBool true);
     (py "max_new_tokens", PInt 250); (py "seed", PInt 0);
     (py "temperature", PFloat 3 (-2)); (py "top_k", PInt 5)]
  /\ fst second
     = [(py "alpha", PFunc (func_obj 1)); (py "do_sample", PBool true);
        (py "max_new_tokens", PInt 250); (py "seed", PInt 1);
        (py "temperature", PFloat 3 (-2)); (py "top_k", PInt 5)]
  /\ called (snd second)
     = [partial_randrange (2 ^ 64); partial_randrange (2 ^ 64)].
Proof. repeat split; reflexivity. Qed.

Unset Implicit Arguments.

(* ================================================================= *)
(** * Properties: prettifying *)

(** ** Blank text *)

Lemma rstrip_nil (s : str) : rstrip s = [] <-> forallb isspace s = true.
Proof.
  induction s as [|c s IH]; simpl; [easy|].
  destruct (rstrip s) as [|d r] eqn:E.
  - destruct (isspace c); simpl; [|easy].
    split; intros _; [now apply IH|reflexivity].
  - split; [discriminate|]. intros H. apply andb_true_iff in H.
    destruct H as [_ H]. apply IH in H. discriminate H.
Qed.

Lemma lstrip_all (s : str) : forallb isspace (lstrip s) = true -> lstrip s = [].
Proof.
  induction s as [|c s IH]; simpl; [easy|].
  destruct (isspace c) eqn:E; [exact IH|]. simpl. now rewrite E.
Qed.

Lemma lstrip_nil (s : str) : lstrip s = [] <-> forallb isspace s = true.
Proof.
  induction s as [|c s IH]; simpl; [easy|].
  destruct (isspace c); simpl; [exact IH|easy].
Qed.

Lemma blank_all (s : str) : blank s = forallb isspace s.
Proof.
  unfold blank, strip.
  destruct (rstrip (lstrip s)) as [|d r] eqn:E.
  - apply rstrip_nil, lstrip_all, lstrip_nil in E. now rewrite E.
  - destruct (forallb isspace s) eqn:Ea; [|reflexivity].
    apply lstrip_nil in Ea. rewrite Ea in E. discriminate E.
Qed.

Lemma blank_app (a b : str) : blank (a ++ b) = blank a && blank b.
Proof. rewrite !blank_all. apply forallb_app. Qed.



(** ** Words *)

Lemma words_head (c : ascii) (s : str) :
  isspace c = false -> words (c :: s) <> [].
Proof.
  intros H. simpl. rewrite H. destruct (heads isspace s); [discriminate|].
  destruct (words s); discriminate.
Qed.

Lemma words_blank (s : str) : blank s = true -> words s = [].
Proof.
  rewrite blank_all. induction s as [|c s IH]; simpl; [easy|].
  intros H. apply andb_true_iff in H. destruct H as [-> H]. now apply IH.
Qed.

Lemma cons_head_app (c : ascii) (l l' : list str) :
  l <> [] -> cons_head c (l ++ l') = cons_head c l ++ l'.
Proof. destruct l; [contradiction|reflexivity]. Qed.

Lemma heads_app (p : ascii -> bool) (a b : str) :
  a <> [] -> heads p (a ++ b) = heads p a.
Proof. destruct a; [contradiction|reflexivity]. Qed.

(** After a word, at a whitespace character, the words start afresh. *)
Lemma words_app_space (a b : str) :
  heads isspace b = true -> words (a ++ b) = words a ++ words b.
Proof.
  intros Hb. induction a as [|x a IH]; [reflexivity|].
  cbn [app words]. rewrite IH. destruct (isspace x) eqn:Ex; [reflexivity|].
  destruct a as [|d a].
  - cbn [app heads words]. rewrite Hb. reflexivity.
  - cbn [app heads]. destruct (isspace d) eqn:Ed; [reflexivity|].
    apply cons_head_app. now apply words_head.
Qed.

Lemma words_app_blank (a b : str) :
  blank a = true -> words (a ++ b) = words b.
Proof.
  rewrite blank_all. induction a as [|c a IH]; simpl; [easy|].
  intros H. apply andb_true_iff in H. destruct H as [-> H]. now apply IH.
Qed.

Lemma words_app_nil_r (a b : str) :
  b = [] \/ heads isspace b = true -> words (a ++ b) = words a ++ words b.
Proof.
  intros [-> | H]; [now rewrite !app_nil_r|now apply words_app_space].
Qed.


Lemma words_join_LF (lines : list str) :
  words (join [LF] lines) = concat (map words lines).
Proof.
  induction lines as [|l lines IH]; [reflexivity|].
  destruct lines as [|l' lines].
  - simpl. now rewrite app_nil_r.
  - change (join [LF] (l :: l' :: lines))
      with (l ++ LF :: join [LF] (l' :: lines)).
    rewrite words_app_space by reflexivity.
    cbn [map concat]. f_equal.
    change (words (LF :: join [LF] (l' :: lines)))
      with (words (join [LF] (l' :: lines))).
    exact IH.
Qed.

(** ** Chunks *)

Lemma solid_not_blank (c : str) : c <> [] -> solid c = true -> blank c = false.
Proof.
  rewrite blank_all. destruct c as [|x c]; [contradiction|]. intros _ H.
  simpl in H. apply andb_true_iff in H. destruct H as [H _].
  apply negb_true_iff in H. simpl. now rewrite H.
Qed.







(** ** One line *)

Lemma fill_line_spec (cur_line : list str) (cur_len : nat)
  (chunks : list str) :
  exists taken rest,
    fill_line cur_line cur_len chunks
    = (cur_line ++ taken, cur_len + length (concat taken), rest)
    /\ chunks = taken ++ rest
    /\ (cur_len <= width -> cur_len + length (concat taken) <= width)
    /\ match rest with
       | [] => True
       | chunk :: _ => width < cur_len + length (concat taken) + length chunk
       end.
Proof.
  revert cur_line cur_len.
  induction chunks as [|chunk chunks IH]; intros cur_line cur_len.
  - exists [], []. simpl. rewrite app_nil_r, Nat.add_0_r. repeat split. lia.
  - cbn [fill_line].
    destruct (Nat.leb_spec (cur_len + length chunk) width) as [Hfit|Hfull].
    + destruct (IH (cur_line ++ [chunk]) (cur_len + length chunk))
        as [taken [rest [Hfill [Hsplit [Hlen Hrest]]]]].
      exists (chunk :: taken), rest. cbn [concat]. rewrite length_app, Hfill.
      split; [|split; [|split]].
      * rewrite <- app_assoc, Nat.add_assoc. reflexivity.
      * now rewrite Hsplit.
      * intros _.
        replace (cur_len + (length chunk + length (concat taken)))
          with (cur_len + length chunk + length (concat taken)) by lia.
        now apply Hlen.
      * replace (cur_len + (length chunk + length (concat taken)))
          with (cur_len + length chunk + length (concat taken)) by lia.
        exact Hrest.
    + exists [], (chunk :: chunks). cbn [concat length app].
      rewrite app_nil_r, Nat.add_0_r. repeat split; lia.
Qed.

Lemma rfind_hyphen_from_bound (i stop : nat) (chunk : str) (j : nat) :
  rfind_hyphen_from i stop chunk = Some j -> i <= j < stop.
Proof.
  revert i. induction chunk as [|c chunk IH]; intros i; simpl; [discriminate|].
  destruct (Nat.ltb_spec i stop) as [Hi|Hi]; [|discriminate].
  destruct (rfind_hyphen_from (S i) stop chunk) as [k|] eqn:E.
  - intros H. injection H as <-. apply IH in E. lia.
  - destruct (is_hyphen c); [|discriminate]. intros H. injection H as <-. lia.
Qed.

Lemma break_at_bound (chunk : str) (space_left : nat) :
  break_at chunk space_left <= space_left
  /\ (0 < space_left -> 0 < break_at chunk space_left).
Proof.
  unfold break_at. destruct (space_left <? length chunk); [|lia].
  destruct (rfind_hyphen_from 0 space_left chunk) as [hyphen|] eqn:E; [|lia].
  apply rfind_hyphen_from_bound in E.
  destruct ((0 <? hyphen) && _); lia.
Qed.

Lemma drop_last_blank_snoc (cur_line : list str) (chunk : str) :
  drop_last_blank (cur_line ++ [chunk])
  = if blank chunk then cur_line else cur_line ++ [chunk].
Proof.
  unfold drop_last_blank. rewrite rev_app_distr. cbn [rev app].
  destruct (blank chunk); [apply rev_involutive|reflexivity].
Qed.

(** What one turn does: it takes the chunks that fit, and the start of the
    next one when that is too long for any line. *)
Lemma wrap_line_cases (lines chunks : list str) :
  exists taken rest,
    drop_first_blank lines chunks = taken ++ rest
    /\ length (concat taken) <= width
    /\ ((match rest with
         | [] => True
         | chunk :: _ =>
             length chunk <= width
             /\ width < length (concat taken) + length chunk
         end
         /\ wrap_line lines chunks
            = (append_line lines (drop_last_blank taken), rest))
        \/ (exists chunk rest' stop,
              rest = chunk :: rest'
              /\ width < length chunk
              /\ stop <= width - length (concat taken)
              /\ (taken = [] -> 0 < stop)
              /\ wrap_line lines chunks
                 = (append_line lines
                      (drop_last_blank (taken ++ [firstn stop chunk])),
                    skipn stop chunk :: rest'))).
Proof.
  unfold wrap_line.
  destruct (fill_line_spec [] 0 (drop_first_blank lines chunks))
    as [taken [rest [Hfill [Hsplit [Hlen Hrest]]]]].
  rewrite Hfill. cbn [app Nat.add] in *.
  exists taken, rest. split; [exact Hsplit|].
  assert (Hl : length (concat taken) <= width) by (apply Hlen; unfold width; lia).
  split; [exact Hl|].
  destruct rest as [|chunk rest'].
  - left. split; [exact I|reflexivity].
  - cbn [long_word_step].
    destruct (Nat.ltb_spec width (length chunk)) as [Hlong|Hshort].
    + right. exists chunk, rest', (break_at chunk (width - length (concat taken))).
      cbn [_handle_long_word].
      destruct (break_at_bound chunk (width - length (concat taken)))
        as [Hb1 Hb2].
      repeat split; try assumption.
      intros ->. apply Hb2. cbn. unfold width. lia.
    + left. split; [split; assumption|reflexivity].
Qed.

(** ** The turns of the loop *)

Lemma turns_app (a b : list str) : turns (a ++ b) = turns a + turns b.
Proof. unfold turns. rewrite concat_app, !length_app. lia. Qed.

Lemma turns_cons (c : str) (chunks : list str) :
  turns (c :: chunks) = S (length c + turns chunks).
Proof. unfold turns. cbn [concat length]. rewrite length_app. lia. Qed.

Lemma drop_first_blank_cases (lines chunks : list str) :
  drop_first_blank lines chunks = chunks
  \/ exists chunk, chunks = chunk :: drop_first_blank lines chunks
                   /\ blank chunk = true.
Proof.
  unfold drop_first_blank.
  destruct chunks as [|chunk rest]; [now left|].
  destruct lines as [|l lines]; [now left|].
  destruct (blank chunk) eqn:E; [right; now exists chunk|now left].
Qed.

Lemma drop_first_blank_turns (lines chunks : list str) :
  turns (drop_first_blank lines chunks) <= turns chunks.
Proof.
  destruct (drop_first_blank_cases lines chunks) as [-> | [chunk [H _]]];
    [lia|].
  rewrite H at 2. rewrite turns_cons. lia.
Qed.

Lemma drop_first_blank_Forall (P : str -> Prop) (lines chunks : list str) :
  Forall P chunks -> Forall P (drop_first_blank lines chunks).
Proof.
  intros H. destruct (drop_first_blank_cases lines chunks) as [-> | [c [Hc _]]];
    [exact H|].
  rewrite Hc in H. now inversion H.
Qed.

(** Every turn takes something away, and leaves no empty chunk. *)
Lemma wrap_line_turns (lines chunks : list str) :
  chunks <> [] ->
  Forall (fun c => c <> []) chunks ->
  turns (snd (wrap_line lines chunks)) < turns chunks
  /\ Forall (fun c : str => c <> []) (snd (wrap_line lines chunks)).
Proof.
  intros Hne Hall.
  pose proof (drop_first_blank_turns lines chunks) as Hdrop.
  pose proof (drop_first_blank_Forall _ lines _ Hall) as Hall1.
  assert (Hpos : 0 < turns chunks).
  { destruct chunks; [contradiction|]. rewrite turns_cons. lia. }
  destruct (wrap_line_cases lines chunks)
    as [taken [rest [Hsplit [Hlen [[Hrest ->] | Hlong]]]]].
  - cbn [snd]. rewrite Hsplit in Hdrop, Hall1. rewrite turns_app in Hdrop.
    split; [|now apply Forall_app in Hall1].
    destruct taken as [|t taken].
    + destruct rest as [|chunk rest']; [exact Hpos|].
      cbn [concat length] in Hrest. lia.
    + rewrite turns_cons in Hdrop. lia.
  - destruct Hlong as [chunk [rest' [stop [-> [Hw [Hstop [Hprog ->]]]]]]].
    cbn [snd]. rewrite Hsplit in Hdrop, Hall1.
    rewrite turns_app, turns_cons in Hdrop. rewrite turns_cons.
    apply Forall_app in Hall1. destruct Hall1 as [_ Hall1].
    assert (Hskip : length (skipn stop chunk) = length chunk - stop)
      by apply length_skipn.
    split.
    + rewrite Hskip. destruct taken as [|t taken].
      * specialize (Hprog eq_refl). cbn [turns] in Hdrop. lia.
      * rewrite turns_cons in Hdrop. lia.
    + inversion Hall1; subst. constructor; [|assumption].
      intros H0. rewrite H0 in Hskip. cbn [length] in Hskip. lia.
Qed.

(** The loop ends within its turns, and what every turn keeps holds at the
    end. *)
Lemma wrap_lines_invariant (P : list str -> list str -> Prop) :
  (forall lines chunks,
      chunks <> [] -> Forall (fun c => c <> []) chunks -> P lines chunks ->
      P (fst (wrap_line lines chunks)) (snd (wrap_line lines chunks))) ->
  forall fuel lines chunks,
    Forall (fun c => c <> []) chunks -> turns chunks <= fuel ->
    P lines chunks ->
    exists out, wrap_lines fuel lines chunks = Some out /\ P out [].
Proof.
  intros Hstep. induction fuel as [|fuel IH]; intros lines chunks Hall Hfuel HP.
  - destruct chunks as [|c chunks]; [now exists lines|].
    rewrite turns_cons in Hfuel. lia.
  - destruct chunks as [|c chunks]; [now exists lines|].
    assert (Hne : c :: chunks <> []) by discriminate.
    pose proof (wrap_line_turns lines _ Hne Hall) as [Hturns Hall'].
    pose proof (Hstep _ _ Hne Hall HP) as HP'.
    cbn [wrap_lines].
    destruct (wrap_line lines (c :: chunks)) as [lines' chunks'].
    cbn [fst snd] in *. apply IH; [exact Hall'|lia|exact HP'].
Qed.

(** ** The words of a line *)

Lemma drop_last_blank_cases (cur_line : list str) :
  drop_last_blank cur_line = cur_line
  \/ exists chunk, cur_line = drop_last_blank cur_line ++ [chunk]
                   /\ blank chunk = true.
Proof.
  destruct cur_line as [|c l] using rev_ind; [now left|].
  rewrite drop_last_blank_snoc.
  destruct (blank c) eqn:E; [right; now exists c|now left].
Qed.










(** ** The chunks of a text *)



Lemma run_length_le (p : ascii -> bool) (t : str) : run_length p t <= length t.
Proof.
  induction t as [|c t IH]; simpl; [lia|]. destruct (p c); simpl; lia.
Qed.

Lemma em_dash_ge (t : str) (k : nat) : em_dash t = Some k -> 2 <= k.
Proof.
  unfold em_dash.
  destruct (Nat.leb_spec 2 (run_length is_hyphen t)) as [H|H];
    [|discriminate].
  cbn [andb]. destruct (heads is_word_char _); [|discriminate].
  intros E. injection E as <-. exact H.
Qed.

(** A match of [wordsep_re] is never empty. *)
Lemma wordsep_match_pos (before : str) (c : ascii) (t : str) :
  1 <= wordsep_match before (c :: t).
Proof.
  unfold wordsep_match. destruct (is_ws c) eqn:E.
  - cbn [run_length]. rewrite E. lia.
  - destruct (if heads is_word_punct before then em_dash (c :: t) else None)
      as [k|] eqn:Ek; [|lia].
    destruct (heads is_word_punct before); [|discriminate].
    apply em_dash_ge in Ek. lia.
Qed.

(** The chunks are the text, cut. *)
Lemma split_chunks_concat (fuel : nat) (before t : str) :
  length t <= fuel ->
  concat (split_chunks fuel before t) = t
  /\ Forall (fun c : str => c <> []) (split_chunks fuel before t).
Proof.
  revert before t. induction fuel as [|fuel IH]; intros before t Hfuel.
  - destruct t; [split; [reflexivity|constructor]|simpl in Hfuel; lia].
  - destruct t as [|c t]; [split; [reflexivity|constructor]|].
    cbn [split_chunks].
    pose proof (wordsep_match_pos before c t) as Hpos.
    set (n := wordsep_match before (c :: t)) in *.
    destruct (IH (rev (firstn n (c :: t)) ++ before) (skipn n (c :: t)))
      as [Hc Hf].
    { rewrite length_skipn. cbn [length] in Hfuel |- *. lia. }
    split.
    + cbn [concat]. rewrite Hc. apply firstn_skipn.
    + constructor; [|exact Hf].
      destruct n as [|n]; [lia|]. discriminate.
Qed.

Lemma plain_cons (c : ascii) (t : str) : plain (c :: t) -> plain t.
Proof. intros H d Hd. apply H. now right. Qed.


(** Without hyphens, a word goes on to the next whitespace. *)
Lemma word_rest_plain (before t : str) :
  plain t -> word_rest before t = run_length (fun c => negb (is_ws c)) t.
Proof.
  revert before. induction t as [|c t IH]; intros before H; [reflexivity|].
  assert (Hc : is_hyphen c = false) by (apply H; now left).
  cbn [word_rest run_length hyphen_break]. rewrite Hc. cbn [andb].
  destruct (is_ws c); [reflexivity|]. cbn [negb].
  unfold em_dash. cbn [run_length]. rewrite Hc. cbn [Nat.leb andb].
  rewrite andb_false_r. f_equal. apply IH. exact (plain_cons _ _ H).
Qed.

Lemma wordsep_match_plain (before : str) (c : ascii) (t : str) :
  plain (c :: t) ->
  wordsep_match before (c :: t)
  = if is_ws c then run_length is_ws (c :: t)
    else S (run_length (fun c => negb (is_ws c)) t).
Proof.
  intros H. assert (Hc : is_hyphen c = false) by (apply H; now left).
  unfold wordsep_match. destruct (is_ws c); [reflexivity|].
  unfold em_dash. cbn [run_length]. rewrite Hc. cbn [Nat.leb andb].
  destruct (heads is_word_punct before);
    now rewrite (word_rest_plain _ _ (plain_cons _ _ H)).
Qed.







(** ** Whitespace before the chunks are cut *)

Lemma is_ws_isspace (c : ascii) : is_ws c = true -> isspace c = true.
Proof.
  destruct c as [[] [] [] [] [] [] [] []]; vm_compute; intros H;
    try reflexivity; discriminate H.
Qed.

Lemma heads_map (p : ascii -> bool) (f : ascii -> ascii) (s : str) :
  (forall c, p (f c) = p c) -> heads p (map f s) = heads p s.
Proof. intros H. destruct s; [reflexivity|apply H]. Qed.

(** A character map that only moves whitespace to whitespace keeps the
    words. *)
Lemma words_map (f : ascii -> ascii) (s : str) :
  (forall c, isspace (f c) = isspace c) ->
  (forall c, isspace c = false -> f c = c) ->
  words (map f s) = words s.
Proof.
  intros Hsp Hid. induction s as [|c s IH]; [reflexivity|].
  cbn [map words]. rewrite Hsp, IH, (heads_map isspace f s Hsp).
  destruct (isspace c) eqn:E; [reflexivity|]. now rewrite (Hid c E).
Qed.

Lemma to_space_isspace (c : ascii) : isspace (to_space c) = isspace c.
Proof.
  unfold to_space. destruct (is_ws c) eqn:E; [|reflexivity].
  now rewrite (is_ws_isspace c E).
Qed.

Lemma to_space_id (c : ascii) : isspace c = false -> to_space c = c.
Proof.
  unfold to_space. intros H. destruct (is_ws c) eqn:E; [|reflexivity].
  rewrite (is_ws_isspace c E) in H. discriminate H.
Qed.



Lemma blank_repeat_SP (n : nat) : blank (repeat SP n) = true.
Proof. rewrite blank_all. induction n; [reflexivity|exact IHn]. Qed.






(** ** Paragraphs *)

Lemma lstrip_decomp (s : str) :
  exists t, s = t ++ lstrip s /\ blank t = true.
Proof.
  induction s as [|c s [t [IH Hb]]]; [now exists []|]. simpl.
  destruct (isspace c) eqn:E; [|now exists []].
  exists (c :: t). split; [now rewrite <- app_comm_cons, <- IH|].
  rewrite blank_all in *. simpl. now rewrite E.
Qed.

Lemma rstrip_decomp (s : str) :
  exists t, s = rstrip s ++ t /\ blank t = true.
Proof.
  induction s as [|c s [t [IH Hb]]]; [now exists []|]. simpl.
  destruct (rstrip s) as [|d r] eqn:E.
  - destruct (isspace c) eqn:Ec.
    + exists (c :: t). cbn [app] in *. split; [now rewrite <- IH|].
      rewrite blank_all in *. simpl. now rewrite Ec.
    + exists t. cbn [app] in *. split; [now rewrite <- IH|exact Hb].
  - exists t. split; [now rewrite <- app_comm_cons, <- IH|exact Hb].
Qed.

Lemma blank_heads_or (t : str) :
  blank t = true -> t = [] \/ heads isspace t = true.
Proof.
  rewrite blank_all. destruct t as [|c t]; [now left|]. simpl. intros H.
  apply andb_true_iff in H. right. now destruct H.
Qed.

Lemma words_strip (s : str) : words (strip s) = words s.
Proof.
  unfold strip. destruct (lstrip_decomp s) as [t [Hs Hb]].
  destruct (rstrip_decomp (lstrip s)) as [u [Hl Hu]].
  rewrite Hs at 2. rewrite (words_app_blank _ _ Hb).
  rewrite Hl at 2. rewrite (words_app_nil_r _ _ (blank_heads_or _ Hu)).
  now rewrite (words_blank _ Hu), app_nil_r.
Qed.


Lemma split_nonempty (sep : ascii) (s : str) : split sep s <> [].
Proof.
  induction s as [|c s IH]; simpl; [discriminate|].
  destruct (Ascii.eqb c sep); [discriminate|].
  destruct (split sep s); [contradiction|discriminate].
Qed.

Lemma join_cons_head (sep : str) (c : ascii) (parts : list str) :
  parts <> [] -> join sep (cons_head c parts) = c :: join sep parts.
Proof.
  destruct parts as [|p [|q parts]]; [contradiction|reflexivity|reflexivity].
Qed.

Lemma join_split (sep : ascii) (s : str) : join [sep] (split sep s) = s.
Proof.
  induction s as [|c s IH]; [reflexivity|]. cbn [split].
  destruct (Ascii.eqb c sep) eqn:E.
  - apply Ascii.eqb_eq in E. subst c.
    pose proof (split_nonempty sep s) as Hn.
    destruct (split sep s) as [|p ps] eqn:Es; [contradiction|].
    change (join [sep] ([] :: p :: ps)) with (sep :: join [sep] (p :: ps)).
    now rewrite IH.
  - rewrite join_cons_head by apply split_nonempty. now rewrite IH.
Qed.




(** ** The characters of the words *)

Lemma nonspace_app (a b : str) : nonspace (a ++ b) = nonspace a ++ nonspace b.
Proof. apply filter_app. Qed.

Lemma nonspace_blank (s : str) : blank s = true -> nonspace s = [].
Proof.
  rewrite blank_all. induction s as [|c s IH]; [reflexivity|]. simpl.
  intros H. apply andb_true_iff in H. destruct H as [-> H]. now apply IH.
Qed.

Lemma nonspace_strip (s : str) : nonspace (strip s) = nonspace s.
Proof.
  unfold strip. destruct (lstrip_decomp s) as [t [Hs Hb]].
  destruct (rstrip_decomp (lstrip s)) as [u [Hl Hu]].
  rewrite Hs at 2. rewrite Hl at 2.
  rewrite !nonspace_app, (nonspace_blank _ Hb), (nonspace_blank _ Hu).
  now rewrite app_nil_r.
Qed.

Lemma nonspace_join (sep : str) (parts : list str) :
  blank sep = true -> nonspace (join sep parts) = nonspace (concat parts).
Proof.
  intros Hb. induction parts as [|p parts IH]; [reflexivity|].
  destruct parts as [|q parts].
  - cbn. now rewrite app_nil_r.
  - change (join sep (p :: q :: parts))
      with (p ++ sep ++ join sep (q :: parts)).
    cbn [concat] in *.
    now rewrite !nonspace_app, (nonspace_blank _ Hb), IH, nonspace_app.
Qed.

Lemma nonspace_expandtabs (col : nat) (s : str) :
  nonspace (expandtabs_from col s) = nonspace s.
Proof.
  revert col. induction s as [|c s IH]; intros col; [reflexivity|].
  cbn [expandtabs_from].
  destruct (Ascii.eqb c TAB) eqn:E.
  - apply Ascii.eqb_eq in E. subst c.
    rewrite nonspace_app, (nonspace_blank _ (blank_repeat_SP _)). apply IH.
  - assert (H : forall col', nonspace (c :: expandtabs_from col' s)
                             = nonspace (c :: s)).
    { intros col'. unfold nonspace in *. cbn [filter]. now rewrite IH. }
    destruct (Ascii.eqb c LF || Ascii.eqb c CR); apply H.
Qed.

Lemma nonspace_munge (s : str) : nonspace (_munge_whitespace s) = nonspace s.
Proof.
  unfold _munge_whitespace.
  rewrite <- (nonspace_expandtabs 0 s).
  induction (expandtabs_from 0 s) as [|c t IH]; [reflexivity|].
  unfold nonspace in *. cbn [map filter].
  rewrite to_space_isspace, IH.
  destruct (isspace c) eqn:E; [reflexivity|]. cbn [negb].
  now rewrite (to_space_id c E).
Qed.

Lemma nonspace_drop_first (lines chunks : list str) :
  nonspace (concat (drop_first_blank lines chunks)) = nonspace (concat chunks).
Proof.
  destruct (drop_first_blank_cases lines chunks) as [-> | [c [H Hb]]];
    [reflexivity|].
  rewrite H at 2. cbn [concat].
  now rewrite nonspace_app, (nonspace_blank _ Hb).
Qed.

Lemma nonspace_drop_last (cur_line : list str) :
  nonspace (concat (drop_last_blank cur_line)) = nonspace (concat cur_line).
Proof.
  destruct (drop_last_blank_cases cur_line) as [-> | [c [H Hb]]];
    [reflexivity|].
  rewrite H at 2. rewrite concat_app, nonspace_app. cbn [concat].
  now rewrite app_nil_r, (nonspace_blank _ Hb), app_nil_r.
Qed.

Lemma nonspace_append_line (lines cur_line : list str) :
  nonspace (concat (append_line lines cur_line))
  = nonspace (concat lines) ++ nonspace (concat cur_line).
Proof.
  destruct cur_line as [|c l]; [cbn; now rewrite app_nil_r|].
  cbn [append_line]. rewrite concat_app, nonspace_app. cbn [concat].
  now rewrite app_nil_r.
Qed.

(** A turn keeps the characters that are not whitespace, in order. *)
Lemma wrap_line_nonspace (lines chunks : list str) :
  nonspace (concat (fst (wrap_line lines chunks)))
  ++ nonspace (concat (snd (wrap_line lines chunks)))
  = nonspace (concat lines) ++ nonspace (concat chunks).
Proof.
  rewrite <- (nonspace_drop_first lines chunks).
  destruct (wrap_line_cases lines chunks)
    as [taken [rest [Hsplit [_ [[_ ->] | Hlong]]]]].
  - cbn [fst snd].
    rewrite Hsplit, nonspace_append_line, nonspace_drop_last, concat_app.
    now rewrite nonspace_app, app_assoc.
  - destruct Hlong as [chunk [rest' [stop [-> [_ [_ [_ ->]]]]]]].
    cbn [fst snd].
    rewrite Hsplit, nonspace_append_line, nonspace_drop_last, !concat_app.
    cbn [concat]. rewrite !nonspace_app, app_nil_r, <- !app_assoc.
    f_equal. f_equal. rewrite app_assoc, <- nonspace_app.
    now rewrite firstn_skipn.
Qed.

(** A turn adds a line that fits. *)
Lemma drop_last_blank_length (cur_line : list str) :
  length (concat (drop_last_blank cur_line)) <= length (concat cur_line).
Proof.
  destruct (drop_last_blank_cases cur_line) as [-> | [c [H _]]]; [lia|].
  rewrite H at 2. rewrite concat_app, length_app. lia.
Qed.

Lemma append_line_fits (lines cur_line : list str) :
  Forall (fun line => length line <= width) lines ->
  length (concat cur_line) <= width ->
  Forall (fun line => length line <= width) (append_line lines cur_line).
Proof.
  intros Hl Hc. destruct cur_line as [|c l]; [exact Hl|].
  cbn [append_line]. apply Forall_app. split; [exact Hl|].
  constructor; [exact Hc|constructor].
Qed.

Lemma wrap_line_fits (lines chunks : list str) :
  Forall (fun line => length line <= width) lines ->
  Forall (fun line => length line <= width) (fst (wrap_line lines chunks)).
Proof.
  intros Hl.
  destruct (wrap_line_cases lines chunks)
    as [taken [rest [_ [Hlen [[_ ->] | Hlong]]]]].
  - cbn [fst]. apply append_line_fits; [exact Hl|].
    pose proof (drop_last_blank_length taken). lia.
  - destruct Hlong as [chunk [rest' [stop [_ [_ [Hstop [_ ->]]]]]]].
    cbn [fst]. apply append_line_fits; [exact Hl|].
    pose proof (drop_last_blank_length (taken ++ [firstn stop chunk])) as H.
    rewrite concat_app, length_app in H. cbn [concat] in H.
    rewrite app_nil_r in H. pose proof (firstn_le_length stop chunk). lia.
Qed.

(** [textwrap.wrap] returns, with lines that fit and hold the characters of
    the text that are not whitespace, in order. *)
Lemma wrap_spec (text : str) :
  exists lines,
    _wrap_chunks (_split (_munge_whitespace text)) = Some lines
    /\ wrap text = lines
    /\ nonspace (join [LF] lines) = nonspace text
    /\ Forall (fun line => length line <= width) lines.
Proof.
  set (chunks := _split (_munge_whitespace text)).
  destruct (split_chunks_concat (length (_munge_whitespace text)) []
              (_munge_whitespace text) (le_n _)) as [Hc Hne].
  fold (_split (_munge_whitespace text)) in Hc, Hne. fold chunks in Hc, Hne.
  destruct (wrap_lines_invariant
              (fun lines rest =>
                 nonspace (concat lines) ++ nonspace (concat rest)
                 = nonspace (concat chunks)
                 /\ Forall (fun line => length line <= width) lines)
              (fun lines rest _ _ H =>
                 conj (eq_trans (wrap_line_nonspace lines rest) (proj1 H))
                      (wrap_line_fits lines rest (proj2 H)))
              (turns chunks) [] chunks Hne (le_n _)
              (conj eq_refl (Forall_nil _)))
    as [out [Hout [Hsame Hfit]]].
  exists out. unfold wrap. fold chunks. unfold _wrap_chunks. rewrite Hout.
  split; [reflexivity|]. split; [reflexivity|]. split; [|exact Hfit].
  rewrite nonspace_join by reflexivity.
  cbn [concat] in Hsame. rewrite app_nil_r in Hsame.
  now rewrite Hsame, Hc, nonspace_munge.
Qed.

Lemma prettify_nonspace (text : str) :
  nonspace (_prettify_paragraphs text) = nonspace text.
Proof.
  unfold _prettify_paragraphs.
  rewrite nonspace_join by reflexivity.
  rewrite <- (nonspace_strip text).
  rewrite <- (join_split LF (strip text)) at 2.
  rewrite nonspace_join by reflexivity.
  induction (split LF (strip text)) as [|graf grafs IH]; [reflexivity|].
  cbn [map concat]. rewrite !nonspace_app, IH. f_equal.
  destruct (wrap_spec graf) as [lines [_ [-> [H _]]]]. exact H.
Qed.






Example prettify_two_paragraphs :
  _prettify_paragraphs
    (py " First  paragraph, here." ++ [LF] ++ py "Second one." ++ [LF])
  = py "First  paragraph, here." ++ [LF; LF] ++ py "Second one.".
Proof. reflexivity. Qed.

(** A word is cut at a hyphen when the line is full there. *)
Example wrap_at_hyphen :
  wrap (repeat (ascii_of_nat 120) 60 ++ py " well-known words")
  = [repeat (ascii_of_nat 120) 60 ++ py " well-"; py "known words"].
Proof. vm_compute. reflexivity. Qed.

(* ================================================================= *)
(** * More properties: the normal form *)

Lemma strip_nil_blank (s : str) : strip s = [] <-> blank s = true.
Proof.
  unfold blank. destruct (strip s); split; intros H; try reflexivity;
    discriminate H.
Qed.

Lemma replace_nil (a b : ascii) (s : str) : replace a b s = [] <-> s = [].
Proof. unfold replace. destruct s; split; intros H; try reflexivity; discriminate H. Qed.

(** X6: the normal form is empty exactly for a text that is all whitespace
    and holds no paragraph break. *)
Theorem normalize_empty_iff (x : str) :
  _normalize_paragraphs x = []
  <-> _PARA_BREAK_search x = false /\ blank x = true.
Proof.
  split.
  - intros H. destruct (_PARA_BREAK_search x) eqn:E.
    + apply normalize_keeps_LF in E. rewrite H in E. destruct E.
    + split; [reflexivity|]. rewrite (normalize_single x E) in H.
      apply replace_nil in H. now apply strip_nil_blank.
  - intros [E Hb]. rewrite (normalize_single x E).
    apply replace_nil. now apply strip_nil_blank.
Qed.

(** The first piece starts as the text does, unless the text starts with a
    paragraph break. *)
Lemma split_from_head (text : str) :
  match _PARA_BREAK_split_from false text with
  | [] => False
  | [] :: _ => text = [] \/ heads isspace text = true
  | (c :: _) :: _ => exists rest, text = c :: rest
  end.
Proof.
  destruct text as [|c rest]; [now left|].
  rewrite split_from_cons.
  destruct (is_nl c && starts_nl rest) eqn:E.
  - right. apply andb_true_iff in E. destruct E as [E _].
    exact (is_nl_isspace c E).
  - pose proof (split_from_nonempty false rest) as Hn.
    destruct (_PARA_BREAK_split_from false rest) as [|p ps];
      [contradiction|].
    now exists rest.
Qed.

Lemma words_cons_pieces (c : ascii) (rest p : str) (W : list str) :
  (p = [] -> rest = [] \/ heads isspace rest = true) ->
  (forall d p', p = d :: p' -> exists rest', rest = d :: rest') ->
  words rest = words p ++ W ->
  words (c :: rest) = words (c :: p) ++ W.
Proof.
  intros Hnil Hhead Hw. cbn [words]. rewrite Hw.
  destruct (isspace c); [reflexivity|].
  destruct p as [|d p'].
  - cbn [heads words app cons_head].
    destruct (Hnil eq_refl) as [-> | ->]; [|reflexivity].
    cbn [heads]. cbn [words app] in Hw. now rewrite <- Hw.
  - destruct (Hhead d p' eq_refl) as [rest' ->]. cbn [heads].
    destruct (isspace d) eqn:Ed; [reflexivity|].
    apply cons_head_app. now apply words_head.
Qed.

Lemma split_from_words (b : bool) (text : str) :
  concat (map words (_PARA_BREAK_split_from b text)) = words text.
Proof.
  revert b. induction text as [|c rest IH]; intros b; [reflexivity|].
  assert (Hkeep : concat (map words
                            (cons_head c (_PARA_BREAK_split_from false rest)))
                  = words (c :: rest)).
  { pose proof (split_from_head rest) as Hh. specialize (IH false).
    destruct (_PARA_BREAK_split_from false rest) as [|p ps]; [destruct Hh|].
    cbn [cons_head map concat] in *. symmetry.
    apply words_cons_pieces; [| |now symmetry].
    - intros ->. exact Hh.
    - intros d p' ->. exact Hh. }
  assert (Hskip : is_nl c = true ->
                  concat (map words (_PARA_BREAK_split_from true rest))
                  = words (c :: rest)).
  { intros Hc. cbn [words]. rewrite (is_nl_isspace c Hc). apply IH. }
  rewrite split_from_cons. destruct b.
  - destruct (is_nl c) eqn:Ec; [now apply Hskip|exact Hkeep].
  - destruct (is_nl c && starts_nl rest) eqn:E; [|exact Hkeep].
    apply andb_true_iff in E. destruct E as [Ec _].
    cbn [map concat words app]. now apply Hskip.
Qed.

Lemma words_replace (s : str) : words (replace LF SP s) = words s.
Proof.
  unfold replace. apply words_map.
  - exact unwrap_char_space.
  - intros c Hc. destruct (Ascii.eqb c LF) eqn:E; [|reflexivity].
    apply Ascii.eqb_eq in E. subst c. discriminate Hc.
Qed.

(** The pieces of a text, unwrapped, have its words. *)
Lemma unwrap_pieces_words (x : str) :
  concat (map words (map unwrap (_PARA_BREAK_split x))) = words x.
Proof.
  unfold _PARA_BREAK_split.
  rewrite map_map, <- (split_from_words false x).
  f_equal. apply map_ext. intros p. unfold unwrap.
  now rewrite words_replace, words_strip.
Qed.

Lemma concat_cons_head (c : ascii) (l : list str) :
  concat (cons_head c l) = c :: concat l.
Proof. destruct l; reflexivity. Qed.

(** The words of a text, put together, are its characters that are not
    whitespace. *)
Lemma concat_words (s : str) : concat (words s) = nonspace s.
Proof.
  induction s as [|c s IH]; [reflexivity|]. unfold nonspace in *.
  cbn [words filter]. destruct (isspace c); cbn [negb]; [exact IH|].
  destruct (heads isspace s).
  - cbn [concat app]. now rewrite IH.
  - now rewrite concat_cons_head, IH.
Qed.

(** X7: the normal form has the words of the text, in order, and so its
    characters that are not whitespace: [_normalize_paragraphs] only moves
    whitespace. *)
Theorem normalize_words (x : str) :
  words (_normalize_paragraphs x) = words x
  /\ nonspace (_normalize_paragraphs x) = nonspace x.
Proof.
  assert (H : words (_normalize_paragraphs x) = words x).
  { unfold _normalize_paragraphs.
    change (fun para => replace LF SP (strip para)) with unwrap.
    rewrite words_join_LF. apply unwrap_pieces_words. }
  split; [exact H|]. now rewrite <- !concat_words, H.
Qed.

(** X8: the normal form is never longer than the text. *)
Theorem normalize_length (x : str) :
  length (_normalize_paragraphs x) <= length x.
Proof.
  unfold _normalize_paragraphs.
  pose proof (split_from_weight false x) as Hw.
  fold (_PARA_BREAK_split x) in Hw.
  pose proof (split_from_nonempty false x) as Hn.
  fold (_PARA_BREAK_split x) in Hn.
  pose proof (@join_unwrap_length (_PARA_BREAK_split x) Hn) as Hj.
  unfold unwrap in Hj.
  destruct (_PARA_BREAK_split x) as [|p ps]; [contradiction|].
  cbn [length] in Hj. lia.
Qed.

Lemma split_no_sep (sep : ascii) (s : str) :
  ~ In sep s -> split sep s = [s].
Proof.
  induction s as [|c s IH]; intros H; [reflexivity|]. cbn [split].
  destruct (Ascii.eqb c sep) eqn:E.
  - apply Ascii.eqb_eq in E. subst c. exfalso. apply H. now left.
  - rewrite IH by (intros Hin; apply H; now right). reflexivity.
Qed.

Lemma split_app_sep (sep : ascii) (p rest : str) :
  ~ In sep p -> split sep (p ++ sep :: rest) = p :: split sep rest.
Proof.
  induction p as [|c p IH]; intros H.
  - cbn [app split]. now rewrite Ascii.eqb_refl.
  - cbn [app split]. destruct (Ascii.eqb c sep) eqn:E.
    + apply Ascii.eqb_eq in E. subst c. exfalso. apply H. now left.
    + rewrite IH by (intros Hin; apply H; now right). reflexivity.
Qed.

(** Joining and splitting at a character that the parts do not hold are
    inverse. *)
Lemma split_join (sep : ascii) (parts : list str) :
  parts <> [] -> Forall (fun p => ~ In sep p) parts ->
  split sep (join [sep] parts) = parts.
Proof.
  induction parts as [|p parts IH]; [contradiction|]. intros _ Hf.
  inversion Hf as [|? ? Hp Hf']; subst.
  destruct parts as [|q parts].
  - now apply split_no_sep.
  - change (join [sep] (p :: q :: parts))
      with (p ++ sep :: join [sep] (q :: parts)).
    rewrite (split_app_sep sep p _ Hp), IH; [reflexivity|discriminate|exact Hf'].
Qed.

(** X9: the normal form has one line for each piece between the paragraph
    breaks of the text: the piece, stripped, its newlines turned into
    spaces. *)
Theorem normalize_lines (x : str) :
  split LF (_normalize_paragraphs x) = map unwrap (_PARA_BREAK_split x)
  /\ Forall (fun line => ~ In LF line /\ strip line = line)
       (split LF (_normalize_paragraphs x)).
Proof.
  assert (H : split LF (_normalize_paragraphs x)
              = map unwrap (_PARA_BREAK_split x)).
  { unfold _normalize_paragraphs. fold unwrap.
    change (fun para => replace LF SP (strip para)) with unwrap.
    apply split_join.
    - pose proof (split_from_nonempty false x) as Hn.
      fold (_PARA_BREAK_split x) in Hn.
      destruct (_PARA_BREAK_split x); [contradiction|discriminate].
    - apply Forall_forall. intros p Hp. apply in_map_iff in Hp.
      destruct Hp as [q [<- _]]. apply replace_no_LF. }
  split; [exact H|]. rewrite H. apply Forall_forall. intros p Hp.
  apply in_map_iff in Hp. destruct Hp as [q [<- _]]. unfold unwrap. split.
  - apply replace_no_LF.
  - now rewrite strip_replace, strip_idem.
Qed.

(* ================================================================= *)
(** * More properties: the transport handle and construction *)

Lemma get_inference_api_hit (E : Type) (w : World E) (api : InferenceApi) :
  api_cache w = Some api -> _get_inference_api w = (Return api, w).
Proof. intros H. unfold _get_inference_api. now rewrite H. Qed.

(** The line ends of a token file written elsewhere. *)
Example universal_newlines_line_ends :
  universal_newlines (py "hf" ++ [CR; LF] ++ py "a" ++ [CR; CR; LF; CR])
  = py "hf" ++ [LF] ++ py "a" ++ [LF; LF; LF].
Proof. reflexivity. Qed.

(** X1: [_get_inference_api] builds the handle once.  A call that returns
    has the handle in the cache, and every later call returns that handle
    and changes nothing, whatever has become of the file and of the
    service; the handle is the cached one, with the world as it was, or,
    with nothing cached, the file could be read, the handle is built for
    BLOOM with the text of the file as [read] and [strip] leave it, its
    constructor raised nothing, and only the cache has changed.  A call
    that raises leaves the world as it was, with nothing cached, and
    raises what reading the file raised, or else what the constructor of
    the handle raised. *)
Theorem get_inference_api_cached (E : Type) (w w1 : World E)
  (r : result InferenceApi) :
  _get_inference_api w = (r, w1) ->
  match r with
  | Return api =>
      api_cache w1 = Some api
      /\ (forall w2 : World E,
             api_cache w2 = api_cache w1 ->
             _get_inference_api w2 = (Return api, w2))
      /\ match api_cache w with
         | Some cached => api = cached /\ w1 = w
         | None =>
             exists content,
               hf_token w = Return content
               /\ api = {| repo_id := py "bigscience/bloom";
                           token := strip (universal_newlines content) |}
               /\ InferenceApi_raises w api = None
               /\ w1 = set_api_cache w api
         end
  | Raise e =>
      w1 = w
      /\ api_cache w = None
      /\ (hf_token w = Raise e
          \/ exists content,
               hf_token w = Return content
               /\ InferenceApi_raises w
                    {| repo_id := py "bigscience/bloom";
                       token := strip (universal_newlines content) |}
                  = Some e)
  end.
Proof.
  intros H. destruct r as [api|e].
  - pose proof (@get_inference_api_fills E w w1 api H) as Hc.
    split; [exact Hc|]. split.
    + intros w2 H2. apply get_inference_api_hit. now rewrite H2.
    + revert H. unfold _get_inference_api.
      destruct (api_cache w) as [cached|].
      * intros H. injection H as <- <-. split; reflexivity.
      * destruct (hf_token w) as [content|e]; [|discriminate].
        destruct (InferenceApi_raises w _) eqn:Er; [discriminate|].
        intros H. injection H as <- <-. exists content.
        repeat split. exact Er.
  - revert H. unfold _get_inference_api.
    destruct (api_cache w); [discriminate|].
    destruct (hf_token w) as [content|e0].
    + destruct (InferenceApi_raises w _) eqn:Er; [|discriminate].
      intros H. injection H as <- <-. repeat split. right.
      exists content. split; [reflexivity|exact Er].
    + intros H. injection H as <- <-. repeat split. now left.
Qed.

Lemma get_inference_api_cached_witness :
  let w0 := fresh_world ([SP] ++ py "hf_stub" ++ [CR; LF]) in
  _get_inference_api w0 = (Return stub_api, set_api_cache w0 stub_api)
  /\ _get_inference_api
       (with_hf_token (set_api_cache w0 stub_api)
          (Raise (PermissionError (py ".hf_token"))))
     = (Return stub_api,
        with_hf_token (set_api_cache w0 stub_api)
          (Raise (PermissionError (py ".hf_token"))))
  /\ _get_inference_api
       (with_hf_token w0 (Raise (PermissionError (py ".hf_token"))))
     = (Raise (PermissionError (py ".hf_token")),
        with_hf_token w0 (Raise (PermissionError (py ".hf_token")))).
Proof.
  intros w0.
  assert (H : _get_inference_api w0
              = (Return stub_api, set_api_cache w0 stub_api))
    by reflexivity.
  split; [exact H|]. split.
  - exact (proj1 (proj2 (get_inference_api_cached nat w0 _ _ H))
             (with_hf_token (set_api_cache w0 stub_api)
                (Raise (PermissionError (py ".hf_token")))) eq_refl).
  - destruct (_get_inference_api
                (with_hf_token w0 (Raise (PermissionError (py ".hf_token")))))
      as [r w1] eqn:Er.
    pose proof (get_inference_api_cached nat _ _ _ Er) as Hr.
    destruct r as [api|e].
    + destruct Hr as [_ [_ [content [Hc _]]]]. discriminate Hc.
    + destruct Hr as [-> [_ [Hc | [content [Hc _]]]]];
        [|discriminate Hc].
      injection Hc as <-. reflexivity.
Defined.

(** ** Lookup in a dict *)

Lemma str_eqb_eq (a b : str) : str_eqb a b = true <-> a = b.
Proof.
  revert b. induction a as [|x a IH]; intros [|y b]; simpl; try easy.
  rewrite andb_true_iff, Ascii.eqb_eq, IH. split.
  - now intros [-> ->].
  - intros H. now injection H.
Qed.

Lemma str_eqb_refl (a : str) : str_eqb a a = true.
Proof. now apply str_eqb_eq. Qed.

Lemma str_eqb_neq (a b : str) : str_eqb a b = false <-> a <> b.
Proof.
  split.
  - intros H Heq. apply str_eqb_eq in Heq. rewrite Heq in H. discriminate H.
  - intros H. destruct (str_eqb a b) eqn:E; [|reflexivity].
    apply str_eqb_eq in E. contradiction.
Qed.

Lemma dict_get_set (d : dict) (key name : str) (value : PyVal) :
  dict_get (dict_set d key value) name
  = if str_eqb key name then Some value else dict_get d name.
Proof.
  induction d as [|[k v] d IH]; cbn [dict_set dict_get].
  - reflexivity.
  - destruct (str_eqb k key) eqn:Ek.
    + apply str_eqb_eq in Ek. subst key. cbn [dict_get].
      destruct (str_eqb k name); reflexivity.
    + cbn [dict_get]. rewrite IH.
      destruct (str_eqb k name) eqn:En; [|reflexivity].
      apply str_eqb_eq in En. subst k.
      destruct (str_eqb key name) eqn:E2; [|reflexivity].
      apply str_eqb_eq in E2. subst key. rewrite str_eqb_refl in Ek.
      discriminate Ek.
Qed.

Lemma dict_set_names (d : dict) (key : str) (value : PyVal) :
  map fst (dict_set d key value)
  = if existsb (fun k => str_eqb k key) (map fst d) then map fst d
    else map fst d ++ [key].
Proof.
  induction d as [|[k v] d IH]; cbn [dict_set map fst existsb]; [reflexivity|].
  destruct (str_eqb k key) eqn:Ek; [reflexivity|].
  cbn [map fst orb]. rewrite IH.
  destruct (existsb _ (map fst d)); reflexivity.
Qed.

Lemma dict_set_NoDup (d : dict) (key : str) (value : PyVal) :
  NoDup (map fst d) -> NoDup (map fst (dict_set d key value)).
Proof.
  intros H. rewrite dict_set_names.
  destruct (existsb (fun k => str_eqb k key) (map fst d)) eqn:E; [exact H|].
  apply NoDup_app; [exact H|repeat constructor; intros []|].
  intros k Hk [Heq | []]. subst k.
  assert (Hx : existsb (fun k' => str_eqb k' key) (map fst d) = true).
  { apply existsb_exists. exists key. split; [exact Hk|apply str_eqb_refl]. }
  rewrite Hx in E. discriminate E.
Qed.

Lemma dict_update_NoDup (d other : dict) :
  NoDup (map fst d) -> NoDup (map fst (dict_update d other)).
Proof.
  unfold dict_update. revert d.
  induction other as [|[k v] other IH]; intros d H; [exact H|].
  cbn [fold_left fst snd]. apply IH. now apply dict_set_NoDup.
Qed.

Lemma dict_get_absent (d : dict) (name : str) :
  ~ In name (map fst d) -> dict_get d name = None.
Proof.
  induction d as [|[k v] d IH]; intros H; [reflexivity|]. cbn [dict_get].
  destruct (str_eqb k name) eqn:E.
  - apply str_eqb_eq in E. subst k. exfalso. apply H. now left.
  - apply IH. intros Hin. apply H. now right.
Qed.

(** After [d.update(other)], a name of [other] has the value that [other]
    gives it, and any other name the value it had in [d]. *)
Lemma dict_get_update (d other : dict) (name : str) :
  NoDup (map fst other) ->
  dict_get (dict_update d other) name
  = match dict_get other name with
    | Some value => Some value
    | None => dict_get d name
    end.
Proof.
  unfold dict_update. revert d.
  induction other as [|[k v] other IH]; intros d H; [reflexivity|].
  inversion H as [|? ? Hk H']; subst.
  cbn [fold_left fst snd dict_get]. rewrite (IH _ H'), dict_get_set.
  destruct (str_eqb k name) eqn:E; [|reflexivity].
  apply str_eqb_eq in E. subst k.
  now rewrite (dict_get_absent other name Hk).
Qed.

Lemma defaults_NoDup : NoDup (map fst defaults).
Proof.
  vm_compute. repeat constructor; intros H;
    repeat (destruct H as [H | H]; [discriminate H|]); destruct H.
Qed.

(** ** When the constructor returns *)

(** X2: with the transport handle at hand, the call
    [Completer(prompt, **kwargs)] returns exactly when no keyword is named
    [self] or [prompt], the prompt is a string whose normal form is not
    empty, and no keyword starts with an underscore; the session it returns
    holds the handle, the normal form of the prompt as its buffer, and the
    defaults updated with the keywords. *)
Theorem construct_returns_iff (E : Type) (prompt : PyVal) (kwargs : dict)
  (w w1 : World E) (api : InferenceApi) :
  _get_inference_api w = (Return api, w1) ->
  forall self w2,
    Completer_call prompt kwargs w = (Return self, w2)
    <-> (exists s,
           prompt = PStr s
           /\ find positional_name (map fst kwargs) = None
           /\ _normalize_paragraphs s <> []
           /\ existsb startswith_underscore (map fst kwargs) = false
           /\ self = {| _inference := Some api;
                        _text := Some (PStr (_normalize_paragraphs s));
                        __dict__ := dict_update defaults kwargs |}
           /\ w2 = w1).
Proof.
  intros Hapi self w2.
  destruct (bind_parameters_cases kwargs) as [[other [Hf Hb]] | [Hf Hb]].
  { rewrite (@Completer_call_unbound E prompt kwargs w other Hf). split.
    - intros H. discriminate H.
    - intros [s [_ [Hn _]]]. rewrite Hf in Hn. discriminate Hn. }
  rewrite (@Completer_call_bound E prompt kwargs w Hf).
  unfold Completer_new.
  rewrite (@init_steps E prompt kwargs w w1 api Hapi).
  destruct prompt as [| | | |s| | | | | |];
    try (split; [intros H; discriminate H
                |intros [s0 [H0 _]]; discriminate H0]).
  cbn [normalize_arg text_setter].
  destruct (_normalize_paragraphs s) as [|c t] eqn:En.
  - split; [intros H; discriminate H|].
    intros [s0 [H0 [_ [Hne _]]]]. injection H0 as <-. now rewrite En in Hne.
  - destruct (existsb startswith_underscore (map fst kwargs)) eqn:Ex.
    + split; [intros H; discriminate H|].
      intros [s0 [_ [_ [_ [Hex _]]]]]. discriminate Hex.
    + split.
      * intros H. injection H as <- <-. exists s.
        rewrite En. repeat split; [exact Hf|discriminate].
      * intros [s0 [H0 [_ [_ [_ [-> ->]]]]]]. injection H0 as <-.
        rewrite En. reflexivity.
Qed.

Lemma construct_returns_iff_witness :
  _get_inference_api stub_world = (Return stub_api, stub_world)
  /\ Completer_call (PStr [LF; LF]) [(py "top_k", PInt 5)] stub_world
     = (Return {| _inference := Some stub_api; _text := Some (PStr [LF]);
                  __dict__ := dict_update defaults [(py "top_k", PInt 5)] |},
        stub_world)
  /\ ~ (exists self w2,
          Completer_call (PStr (py "Hi")) [(py "self", PInt 1)] stub_world
          = (Return self, w2)).
Proof.
  assert (H : _get_inference_api stub_world = (Return stub_api, stub_world))
    by reflexivity.
  split; [exact H|]. split.
  - apply (proj2 (construct_returns_iff nat (PStr [LF; LF])
                    [(py "top_k", PInt 5)] stub_world stub_world stub_api H
                    _ _)).
    exists [LF; LF]. repeat split. discriminate.
  - intros [self [w2 Hr]].
    destruct (proj1 (construct_returns_iff nat (PStr (py "Hi"))
                       [(py "self", PInt 1)] stub_world stub_world stub_api H
                       self w2) Hr)
      as [s [_ [Hf _]]].
    discriminate Hf.
Defined.

(** X3: in a session that the constructor returns, every parameter of the
    call has the value of the call and every other name the value that
    [_set_defaults] gives it, if any; no name is stored twice. *)
Theorem construct_parameters (E : Type) (prompt : PyVal) (parameters : dict)
  (w w1 : World E) (self : Completer) :
  Completer_new prompt parameters w = (Return self, w1) ->
  NoDup (map fst parameters) ->
  NoDup (map fst (__dict__ self))
  /\ forall name,
       dict_get (__dict__ self) name
       = match dict_get parameters name with
         | Some value => Some value
         | None => dict_get defaults name
         end.
Proof.
  intros Hnew Hnd.
  assert (Hd : __dict__ self = dict_update defaults parameters).
  { revert Hnew. unfold Completer_new, __init__.
    destruct (_get_inference_api w) as [[api|e] w2]; [|discriminate].
    destruct (normalize_arg prompt) as [normalized|e]; [|discriminate].
    destruct (text_setter_cases (set_inference new_object api) normalized)
      as [[c [t [Hv ->]]] | [[Hv ->] | [Hv ->]]]; try discriminate.
    destruct (existsb startswith_underscore (map fst parameters));
      [discriminate|].
    intros H. injection H as <- _. reflexivity. }
  rewrite Hd. split.
  - apply dict_update_NoDup, defaults_NoDup.
  - intros name. now apply dict_get_update.
Qed.

Lemma construct_parameters_witness :
  dict_get
    (__dict__ {| _inference := Some stub_api; _text := Some (PStr (py "Hi"));
                 __dict__ := dict_update defaults
                               [(py "temperature", PInt 1);
                                (py "top_k", PInt 5)] |})
    (py "temperature")
  = Some (PInt 1).
Proof.
  assert (Hnew : Completer_new (PStr (py "Hi"))
                   [(py "temperature", PInt 1); (py "top_k", PInt 5)]
                   stub_world
                 = (Return {| _inference := Some stub_api;
                              _text := Some (PStr (py "Hi"));
                              __dict__ := dict_update defaults
                                            [(py "temperature", PInt 1);
                                             (py "top_k", PInt 5)] |},
                    stub_world))
    by reflexivity.
  assert (Hnd : NoDup (map fst [(py "temperature", PInt 1);
                                (py "top_k", PInt 5)])).
  { repeat constructor; intros H;
      repeat (destruct H as [H | H]; [discriminate H|]); destruct H. }
  exact (proj2 (construct_parameters nat _ _ _ _ _ Hnew Hnd)
           (py "temperature")).
Defined.

(** X4: the checks of the call [Completer(prompt, **kwargs)] come in
    order.  A keyword named [self] or [prompt] is refused with [TypeError]
    as the arguments are bound, whatever the prompt, the other keywords,
    the token file and the cache are, and the world is as it was; when the
    keywords can be bound and [_get_inference_api] raises, the call raises
    the same exception whatever the prompt and the keywords are, and no
    handle is stored; with the handle, a prompt that is no string or has an
    empty normal form raises its own error even when a keyword starts with
    an underscore. *)
Theorem construct_error_order (E : Type) (prompt : PyVal) (kwargs : dict)
  (w : World E) :
  (forall name,
      find positional_name (map fst kwargs) = Some name ->
      Completer_call prompt kwargs w
      = (Raise (TypeError (multiple_values_message name)), w))
  /\ (find positional_name (map fst kwargs) = None ->
      (forall e w1,
          _get_inference_api w = (Raise e, w1) ->
          Completer_call prompt kwargs w = (Raise e, w)
          /\ w1 = w /\ api_cache w = None)
      /\ (forall api w1,
             _get_inference_api w = (Return api, w1) ->
             (forall s, prompt = PStr s -> _normalize_paragraphs s = []) ->
             exists e,
               Completer_call prompt kwargs w = (Raise e, w1)
               /\ e <> TypeError leading_underscore_message
               /\ usage_error e = true)).
Proof.
  split.
  - intros name Hf. now apply Completer_call_unbound.
  - intros Hf. rewrite (@Completer_call_bound E prompt kwargs w Hf). split.
    + intros e w1 Hapi.
      assert (Hw : w1 = w /\ api_cache w = None).
      { revert Hapi. unfold _get_inference_api.
        destruct (api_cache w); [discriminate|].
        destruct (hf_token w) as [content|e0].
        - destruct (InferenceApi_raises w _); [|discriminate].
          intros H. injection H as _ <-. split; reflexivity.
        - intros H. injection H as _ <-. split; reflexivity. }
      destruct Hw as [-> Hc]. split; [|split; [reflexivity|exact Hc]].
      unfold Completer_new, __init__. now rewrite Hapi.
    + intros api w1 Hapi Hbad. unfold Completer_new.
      rewrite (@init_steps E prompt kwargs w w1 api Hapi).
      destruct prompt as [| | | |s| | | | | |];
        try (eexists; split; [reflexivity|split; [discriminate|reflexivity]]).
      cbn [normalize_arg]. rewrite (Hbad s eq_refl). cbn [text_setter].
      eexists. split; [reflexivity|]. split; [discriminate|reflexivity].
Qed.

Lemma construct_error_order_witness :
  Completer_call (PStr (py "  ")) [(py "_x", PNone)] stub_world
  = (Raise (ValueError (py "prompt must be nonempty")), stub_world)
  /\ Completer_call (PStr (py "  ")) [(py "_x", PNone); (py "prompt", PNone)]
       (fresh_world (py "hf_stub"))
     = (Raise (TypeError (multiple_values_message (py "prompt"))),
        fresh_world (py "hf_stub"))
  /\ Completer_call (PStr (py "  ")) [(py "_x", PNone)]
       (with_hf_token (fresh_world [])
          (Raise (IsADirectoryError (py ".hf_token"))))
     = (Raise (IsADirectoryError (py ".hf_token")),
        with_hf_token (fresh_world [])
          (Raise (IsADirectoryError (py ".hf_token")))).
Proof.
  assert (H : _get_inference_api stub_world = (Return stub_api, stub_world))
    by reflexivity.
  split; [|split].
  - destruct (proj2 (proj2 (construct_error_order nat (PStr (py "  "))
                              [(py "_x", PNone)] stub_world) eq_refl)
                stub_api stub_world H)
      as [e [He _]].
    + intros s Hs. injection Hs as <-. reflexivity.
    + rewrite He. vm_compute in He. injection He as <-. reflexivity.
  - exact (proj1 (construct_error_order nat (PStr (py "  "))
                    [(py "_x", PNone); (py "prompt", PNone)]
                    (fresh_world (py "hf_stub"))) (py "prompt") eq_refl).
  - exact (proj1 (proj1 (proj2 (construct_error_order nat (PStr (py "  "))
                                  [(py "_x", PNone)]
                                  (with_hf_token (fresh_world [])
                                     (Raise (IsADirectoryError
                                               (py ".hf_token")))))
                           eq_refl)
                    (IsADirectoryError (py ".hf_token")) _ eq_refl)).
Defined.

Lemma dict_get_name (d : dict) (name : str) (value : PyVal) :
  dict_get d name = Some value -> In name (map fst d).
Proof.
  induction d as [|[k v] d IH]; [discriminate|].
  cbn [dict_get map fst].
  destruct (str_eqb k name) eqn:Ek.
  - intros _. left. now apply str_eqb_eq.
  - intros H. right. now apply IH.
Qed.

(** X16: in a session that the call [Completer(prompt, **kwargs)] returns,
    the name [_build_params] is not stored, and the name [complete] is
    stored exactly when it was a keyword of the call, with the value of the
    call: the methods are in reach of the session exactly when no keyword
    was named [complete]. *)
Theorem construct_methods_in_reach (E : Type) (prompt : PyVal)
  (kwargs : dict) (w w1 : World E) (self : Completer) :
  Completer_call prompt kwargs w = (Return self, w1) ->
  NoDup (map fst kwargs) ->
  dict_get (__dict__ self) (py "_build_params") = None
  /\ dict_get (__dict__ self) (py "complete")
     = dict_get kwargs (py "complete")
  /\ (methods_in_reach (__dict__ self)
      <-> dict_get kwargs (py "complete") = None).
Proof.
  intros Hcall Hnd.
  assert (H : __dict__ self = dict_update defaults kwargs
              /\ existsb startswith_underscore (map fst kwargs) = false).
  { revert Hcall. unfold Completer_call.
    destruct (bind_parameters_cases kwargs) as [[other [_ ->]] | [_ ->]];
      [discriminate|].
    unfold Completer_new, __init__.
    destruct (_get_inference_api w) as [[api|e] w2]; [|discriminate].
    destruct (normalize_arg prompt) as [normalized|e]; [|discriminate].
    destruct (text_setter_cases (set_inference new_object api) normalized)
      as [[c [t [Hv ->]]] | [[Hv ->] | [Hv ->]]]; try discriminate.
    destruct (existsb startswith_underscore (map fst kwargs));
      [discriminate|].
    intros H. injection H as <- _. split; reflexivity. }
  destruct H as [Hd Hex]. rewrite Hd.
  assert (Hb : dict_get (dict_update defaults kwargs) (py "_build_params")
               = None).
  { rewrite (dict_get_update defaults kwargs (py "_build_params") Hnd).
    destruct (dict_get kwargs (py "_build_params")) as [v|] eqn:Eg;
      [|reflexivity].
    exfalso. apply dict_get_name in Eg.
    assert (Ht : existsb startswith_underscore (map fst kwargs) = true).
    { apply existsb_exists. exists (py "_build_params").
      split; [exact Eg|reflexivity]. }
    rewrite Ht in Hex. discriminate Hex. }
  assert (Hc : dict_get (dict_update defaults kwargs) (py "complete")
               = dict_get kwargs (py "complete")).
  { rewrite (dict_get_update defaults kwargs (py "complete") Hnd).
    now destruct (dict_get kwargs (py "complete")). }
  split; [exact Hb|]. split; [exact Hc|].
  unfold methods_in_reach. rewrite Hb, Hc. split.
  - now intros [H _].
  - intros H. now split.
Qed.

Lemma construct_methods_in_reach_witness :
  Completer_call (PStr (py "Hi")) [(py "complete", PInt 5)] stub_world
  = (Return shadowed_session, stub_world)
  /\ dict_get (__dict__ shadowed_session) (py "complete") = Some (PInt 5)
  /\ dict_get (__dict__ shadowed_session) (py "_build_params") = None.
Proof.
  assert (H : Completer_call (PStr (py "Hi")) [(py "complete", PInt 5)]
                stub_world
              = (Return shadowed_session, stub_world)) by reflexivity.
  assert (Hnd : NoDup (map fst [(py "complete", PInt 5)])).
  { repeat constructor. intros []. }
  split; [exact H|].
  destruct (construct_methods_in_reach nat _ _ _ _ _ H Hnd) as [Hb [Hc _]].
  split; [exact Hc|exact Hb].
Defined.

(** X5: the sessions of one process share one handle: a session built after
    another has the handle of the first, whatever has become of the token
    file in between. *)
Theorem construct_shares_handle (E : Type) (prompt1 prompt2 : PyVal)
  (parameters1 parameters2 : dict) (w w1 w2 w3 : World E)
  (self1 self2 : Completer) :
  Completer_new prompt1 parameters1 w = (Return self1, w1) ->
  api_cache w2 = api_cache w1 ->
  Completer_new prompt2 parameters2 w2 = (Return self2, w3) ->
  _inference self2 = _inference self1
  /\ (exists api, _inference self1 = Some api)
  /\ w3 = w2.
Proof.
  unfold Completer_new, __init__. intros H1 Hc H2.
  destruct (_get_inference_api w) as [[api|e] w'] eqn:Ea; [|discriminate].
  pose proof (@get_inference_api_fills E w w' api Ea) as Hfill.
  assert (Hw1 : w1 = w' /\ _inference self1 = Some api).
  { destruct (normalize_arg prompt1) as [n|e]; [|discriminate].
    destruct (text_setter_cases (set_inference new_object api) n)
      as [[c [t [Hv Hs]]] | [[Hv Hs] | [Hv Hs]]]; rewrite Hs in H1;
      try discriminate.
    destruct (existsb startswith_underscore (map fst parameters1));
      [discriminate|].
    injection H1 as <- <-. split; reflexivity. }
  destruct Hw1 as [-> Hs1].
  rewrite (get_inference_api_hit E w2 api) in H2
    by (rewrite Hc; exact Hfill).
  destruct (normalize_arg prompt2) as [n|e]; [|discriminate].
  destruct (text_setter_cases (set_inference new_object api) n)
    as [[c [t [Hv Hs]]] | [[Hv Hs] | [Hv Hs]]]; rewrite Hs in H2;
    try discriminate.
  destruct (existsb startswith_underscore (map fst parameters2));
    [discriminate|].
  injection H2 as <- <-. rewrite Hs1. split; [reflexivity|].
  split; [now exists api|reflexivity].
Qed.

Lemma construct_shares_handle_witness :
  let w0 : World nat :=
    {| env := 0; hf_token := Return (py " hf_first ");
       InferenceApi_raises := fun _ => None; api_cache := None;
       called := [] |} in
  exists self1 w1 self2,
    Completer_new (PStr (py "One")) [] w0 = (Return self1, w1)
    /\ Completer_new (PStr (py "Two")) []
         (with_hf_token w1 (Return (py "hf_second")))
       = (Return self2, with_hf_token w1 (Return (py "hf_second")))
    /\ _inference self2 = _inference self1.
Proof.
  intros w0.
  destruct (Completer_new (PStr (py "One")) [] w0) as [r1 w1] eqn:E1.
  destruct (Completer_new (PStr (py "Two")) []
              (with_hf_token w1 (Return (py "hf_second")))) as [r2 w3] eqn:E2.
  vm_compute in E1. injection E1 as <- <-.
  vm_compute in E2. injection E2 as <- <-.
  eexists _, _, _. split; [reflexivity|]. split; [reflexivity|].
  refine (proj1 (construct_shares_handle nat (PStr (py "One"))
                   (PStr (py "Two")) [] [] w0 _ _ _ _ _ _ eq_refl _)).
  - reflexivity.
  - reflexivity.
Defined.

(* ================================================================= *)
(** * More properties: requests *)

Lemma str_leb_antisym (a b : str) :
  str_leb a b = true -> str_leb b a = true -> a = b.
Proof.
  unfold str_leb. rewrite !negb_true_iff.
  revert b. induction a as [|x a IH]; intros [|y b]; simpl; try easy.
  destruct (Nat.ltb_spec (nat_of_ascii y) (nat_of_ascii x)) as [Hyx|Hyx];
    [easy|].
  destruct (Nat.ltb_spec (nat_of_ascii x) (nat_of_ascii y)) as [Hxy|Hxy];
    [easy|].
  intros H1 H2. rewrite (IH b H1 H2). f_equal.
  rewrite <- (ascii_nat_embedding x), <- (ascii_nat_embedding y).
  f_equal. lia.
Qed.

Lemma NoDup_names_item (l : dict) (x y : str * PyVal) :
  NoDup (map fst l) -> In x l -> In y l -> fst x = fst y -> x = y.
Proof.
  induction l as [|z l IH]; intros Hnd Hx Hy Heq; [destruct Hx|].
  inversion Hnd as [|? ? Hz Hnd']; subst.
  destruct Hx as [-> | Hx], Hy as [-> | Hy].
  - reflexivity.
  - exfalso. apply Hz. rewrite Heq. now apply in_map.
  - exfalso. apply Hz. rewrite <- Heq. now apply in_map.
  - now apply IH.
Qed.

(** Two lists of items in the order of their names, with the same items
    and no name twice, are the same list. *)
Lemma StronglySorted_unique (l1 l2 : dict) :
  StronglySorted name_le l1 -> StronglySorted name_le l2 ->
  Permutation l1 l2 -> NoDup (map fst l1) -> l1 = l2.
Proof.
  revert l2. induction l1 as [|x l1 IH]; intros l2 H1 H2 Hp Hnd.
  - apply Permutation_nil in Hp. now subst.
  - destruct l2 as [|y l2];
      [apply Permutation_sym, Permutation_nil in Hp; discriminate Hp|].
    inversion H1 as [|? ? Hs1 Hf1]; subst.
    inversion H2 as [|? ? Hs2 Hf2]; subst.
    rewrite Forall_forall in Hf1, Hf2.
    assert (Hx : In x (y :: l2))
      by (apply (Permutation_in _ Hp); now left).
    assert (Hy : In y (x :: l1))
      by (apply (Permutation_in _ (Permutation_sym Hp)); now left).
    assert (Heq : x = y).
    { destruct Hx as [<- | Hx]; [reflexivity|].
      destruct Hy as [-> | Hy]; [reflexivity|].
      apply (NoDup_names_item (x :: l1) x y Hnd);
        [now left|now right|].
      apply str_leb_antisym; [exact (Hf1 y Hy)|exact (Hf2 x Hx)]. }
    subst y. f_equal. apply IH; try assumption.
    + exact (Permutation_cons_inv Hp).
    + now inversion Hnd.
Qed.

Lemma sorted_order_free (d1 d2 : dict) :
  Permutation d1 d2 -> NoDup (map fst d1) -> sorted d1 = sorted d2.
Proof.
  intros Hp Hnd. apply StronglySorted_unique.
  - apply sorted_Sorted.
  - apply sorted_Sorted.
  - rewrite (sorted_perm d1), (sorted_perm d2). exact Hp.
  - apply (Permutation_NoDup (l := map fst d1)); [|exact Hnd].
    apply Permutation_map, Permutation_sym, sorted_perm.
Qed.

Section Requests.

Variable E : Type.
Variable call_func : Func -> E -> PyVal * E.
Variable InferenceApi_call :
  InferenceApi -> PyVal -> PyVal -> E -> result PyVal * E.

(** X10: the parameters of a request do not depend on the order in which
    the parameters were stored: two sessions that store the same items,
    each name once, build the same bundle in the same world. *)
Theorem build_params_order_free (self1 self2 : Completer) (w : World E) :
  Permutation (__dict__ self1) (__dict__ self2) ->
  NoDup (map fst (__dict__ self1)) ->
  _build_params call_func self1 w = _build_params call_func self2 w.
Proof.
  intros Hp Hnd. unfold _build_params.
  now rewrite (sorted_order_free _ _ Hp Hnd).
Qed.

Lemma resolve_items_plain (items : dict) (w : World E) :
  supplier_funcs items = [] -> resolve_items call_func items w = (items, w).
Proof.
  induction items as [|[name value] items IH]; intros H; [reflexivity|].
  destruct (supplier_or_plain value) as [[g ->] | Hv].
  - discriminate H.
  - rewrite (@supplier_funcs_plain name value items Hv) in H.
    cbn [resolve_items]. rewrite (@resolve_plain E call_func value w Hv).
    now rewrite (IH H).
Qed.

(** X11: for a session that stores no Supplier, [_build_params] calls
    nothing and changes nothing: it returns the stored items in the order
    of their names. *)
Theorem build_params_plain (self : Completer) (w : World E) :
  supplier_funcs (__dict__ self) = [] ->
  _build_params call_func self w = (sorted (__dict__ self), w).
Proof.
  intros H. unfold _build_params. apply resolve_items_plain.
  pose proof (supplier_funcs_perm (sorted_perm (__dict__ self))) as Hp.
  rewrite H in Hp. now apply Permutation_nil, Permutation_sym.
Qed.

(** X12: the call [self.complete()] on a session that has its methods in
    reach, whatever the transport does then, has called the callable of
    each stored Supplier once, in the order of the names, before the
    transport, each callable returning; it leaves the token file and the
    cached handle alone; and an exception that the transport raises comes
    out as it is, with the session as it was.  On a session that stores a
    value that cannot be called under the name [complete], the call raises
    [TypeError] and nothing is called: no Supplier and no transport. *)
Theorem complete_calls_suppliers (api : InferenceApi) (buffer : PyVal)
  (params : dict) (w : World E) :
  let out :=
    self_complete call_func InferenceApi_call (session api buffer params) w
  in
  (methods_in_reach params ->
   called (snd out) = called w ++ supplier_funcs (sorted params)
   /\ hf_token (snd out) = hf_token w
   /\ api_cache (snd out) = api_cache w
   /\ (forall exc e,
          InferenceApi_call api buffer
            (PDict (fst (_build_params call_func (session api buffer params)
                           w)))
            (env (after_build call_func api buffer params w))
          = (Raise exc, e) ->
          out = (Raise exc, session api buffer params,
                 set_env (after_build call_func api buffer params w) e)))
  /\ (forall value,
         dict_get params (py "complete") = Some value ->
         (forall f, value <> PFunc f) -> (forall f, value <> PSupplier f) ->
         out = (Raise (not_callable value), session api buffer params, w)).
Proof.
  intros out. subst out. split.
  - intros [Hc Hb]. unfold self_complete. cbn [session __dict__]. rewrite Hc.
    change {| _inference := Some api; _text := Some buffer;
              __dict__ := params |} with (session api buffer params).
    unfold after_build, complete.
    rewrite (@self_build_params_method E call_func
               (session api buffer params) w Hb).
    unfold session. cbn [_inference text _text]. unfold _build_params.
    cbn [__dict__].
    destruct (@resolve_items_spec E call_func (sorted params) w)
      as [_ [_ [Hcalled [Htok [Hcache _]]]]].
    destruct (resolve_items call_func (sorted params) w) as [built w1].
    cbn [fst snd] in *.
    destruct (InferenceApi_call api buffer (PDict built) (env w1))
      as [[response|exc] e].
    + assert (Hw : forall (r : result PyVal) (s : Completer),
                 called (snd (r, s, set_env w1 e))
                 = called w ++ supplier_funcs (sorted params)
                 /\ hf_token (snd (r, s, set_env w1 e)) = hf_token w
                 /\ api_cache (snd (r, s, set_env w1 e)) = api_cache w
                 /\ (forall exc e0,
                        (Return response, e) = (Raise exc, e0) ->
                        (r, s, set_env w1 e)
                        = (Raise exc,
                           {| _inference := Some api; _text := Some buffer;
                              __dict__ := params |}, set_env w1 e0))).
      { intros r s. cbn [snd set_env called hf_token api_cache].
        repeat split; try assumption. intros exc e0 H. discriminate H. }
      destruct (case_generated_text response); [apply Hw|].
      destruct (case_error response); apply Hw.
    + cbn [snd set_env called hf_token api_cache].
      repeat split; try assumption.
      intros exc0 e0 H. injection H as <- <-. reflexivity.
  - intros value Hd Hf Hs.
    exact (@self_complete_hidden E call_func InferenceApi_call
             (session api buffer params) w value Hd Hf Hs).
Qed.

(** X13: [__call__] prints what it has completed.  On a session that has
    its methods in reach: when the transport answers a success whose
    [generated_text] is a string, the session holds that string and its
    prettified form, with a newline, is written; when the [generated_text]
    is no string, the session holds it all the same and the call raises,
    with nothing written; when the answer is no success, the call raises,
    the session is as it was and nothing is written.  On a session that
    stores a value that cannot be called under the name [complete], the
    call raises [TypeError], nothing is called and nothing is written. *)
Theorem call_prints (api : InferenceApi) (buffer : PyVal) (params : dict)
  (w : World E) (response : PyVal) (e : E) :
  (methods_in_reach params ->
   answers call_func InferenceApi_call api buffer params w response e ->
   (forall s,
       success_shape response (PStr s) ->
       __call__ call_func InferenceApi_call (session api buffer params) w
       = (Return tt, session api (PStr s) params,
          set_env (after_build call_func api buffer params w) e,
          _prettify_paragraphs s ++ [LF]))
   /\ (forall completion,
          success_shape response completion ->
          (forall s, completion <> PStr s) ->
          exists exc,
            __call__ call_func InferenceApi_call (session api buffer params) w
            = (Raise exc, session api completion params,
               set_env (after_build call_func api buffer params w) e, []))
   /\ ((forall completion, ~ success_shape response completion) ->
       exists exc,
         __call__ call_func InferenceApi_call (session api buffer params) w
         = (Raise exc, session api buffer params,
            set_env (after_build call_func api buffer params w) e, [])))
  /\ (forall value,
         dict_get params (py "complete") = Some value ->
         (forall f, value <> PFunc f) -> (forall f, value <> PSupplier f) ->
         __call__ call_func InferenceApi_call (session api buffer params) w
         = (Raise (not_callable value), session api buffer params, w, [])).
Proof.
  split.
  - intros Hm Ha. unfold __call__.
    rewrite (@self_complete_answered E call_func InferenceApi_call api buffer
               params w response e Hm Ha).
    split; [|split].
    + intros s Hs. now rewrite (@success_shape_case response (PStr s) Hs).
    + intros completion Hs Hno.
      rewrite (@success_shape_case response completion Hs).
      unfold __str__, session. cbn [text _text].
      destruct completion; try (eexists; reflexivity).
      exfalso. now apply (Hno s).
    + intros Hno.
      destruct (case_generated_text response) as [completion|] eqn:Ec.
      { exfalso. apply (Hno completion).
        now apply (@case_success_shape response completion). }
      destruct (case_error response); eexists; reflexivity.
  - intros value Hd Hf Hs. unfold __call__.
    now rewrite (@self_complete_hidden E call_func InferenceApi_call
                   (session api buffer params) w value Hd Hf Hs).
Qed.

End Requests.

Lemma complete_calls_suppliers_witness :
  methods_in_reach defaults
  /\ called (snd (self_complete stub_call (stub_transport hello_response)
                    (stub_session "Hi") stub_world))
     = [partial_randrange (2 ^ 64)]
  /\ self_complete stub_call (stub_transport hello_response)
       shadowed_session stub_world
     = (Raise (not_callable (PInt 5)), shadowed_session, stub_world).
Proof.
  assert (Hm : methods_in_reach defaults) by (split; reflexivity).
  split; [exact Hm|]. split.
  - exact (proj1 (proj1 (complete_calls_suppliers nat stub_call
                           (stub_transport hello_response) stub_api
                           (PStr (py "Hi")) defaults stub_world) Hm)).
  - refine (proj2 (complete_calls_suppliers nat stub_call
                     (stub_transport hello_response) stub_api
                     (PStr (py "Hi"))
                     (dict_update defaults [(py "complete", PInt 5)])
                     stub_world) (PInt 5) eq_refl _ _);
      intros f Hf; discriminate Hf.
Defined.

Lemma call_prints_witness :
  methods_in_reach defaults
  /\ answers stub_call (stub_transport hello_response) stub_api
       (PStr (py "Hi")) defaults stub_world hello_response 1
  /\ __call__ stub_call (stub_transport hello_response)
       (stub_session "Hi") stub_world
     = (Return tt, stub_session "Hello world",
        set_env (after_build stub_call stub_api (PStr (py "Hi")) defaults
                   stub_world) 1,
        py "Hello world" ++ [LF])
  /\ __call__ stub_call (stub_transport hello_response)
       shadowed_session stub_world
     = (Raise (not_callable (PInt 5)), shadowed_session, stub_world, []).
Proof.
  assert (Hm : methods_in_reach defaults) by (split; reflexivity).
  assert (Ha : answers stub_call (stub_transport hello_response) stub_api
                 (PStr (py "Hi")) defaults stub_world hello_response 1)
    by reflexivity.
  split; [exact Hm|]. split; [exact Ha|]. split.
  - refine (proj1 (proj1 (call_prints nat stub_call
                            (stub_transport hello_response) stub_api
                            (PStr (py "Hi")) defaults stub_world
                            hello_response 1) Hm Ha) (py "Hello world") _).
    eexists. split; [left; reflexivity|reflexivity].
  - refine (proj2 (call_prints nat stub_call
                     (stub_transport hello_response) stub_api
                     (PStr (py "Hi"))
                     (dict_update defaults [(py "complete", PInt 5)])
                     stub_world hello_response 0) (PInt 5) eq_refl _ _);
      intros f Hf; discriminate Hf.
Defined.

Lemma build_params_order_free_witness :
  _build_params stub_call
    (session stub_api (PStr (py "Hi"))
       [(py "b", PInt 2); (py "a", PSupplier (func_obj 0))]) stub_world
  = _build_params stub_call
      (session stub_api (PStr (py "Hi"))
         [(py "a", PSupplier (func_obj 0)); (py "b", PInt 2)]) stub_world.
Proof.
  apply build_params_order_free.
  - apply perm_swap.
  - repeat constructor; intros H;
      repeat (destruct H as [H | H]; [discriminate H|]); destruct H.
Defined.

Lemma build_params_plain_witness :
  _build_params stub_call
    (session stub_api (PStr (py "Hi")) [(py "b", PInt 2); (py "a", PInt 1)])
    stub_world
  = ([(py "a", PInt 1); (py "b", PInt 2)], stub_world).
Proof.
  exact (build_params_plain nat stub_call
           (session stub_api (PStr (py "Hi"))
              [(py "b", PInt 2); (py "a", PInt 1)]) stub_world eq_refl).
Defined.

(* ================================================================= *)
(** * More properties: showing the text *)

(** X14: a session just built shows its prompt: [__str__] returns the
    prettified normal form of the prompt, which holds the characters of
    the prompt that are not whitespace, in order, and nothing else but
    whitespace. *)
Theorem str_of_new_session (E : Type) (s : str) (parameters : dict)
  (w w1 : World E) (self : Completer) :
  Completer_new (PStr s) parameters w = (Return self, w1) ->
  __str__ self = Return (_prettify_paragraphs (_normalize_paragraphs s))
  /\ nonspace (_prettify_paragraphs (_normalize_paragraphs s)) = nonspace s.
Proof.
  intros Hnew. split.
  - revert Hnew. unfold Completer_new, __init__.
    destruct (_get_inference_api w) as [[api|e] w2]; [|discriminate].
    cbn [normalize_arg text_setter].
    destruct (_normalize_paragraphs s) as [|c t]; [discriminate|].
    destruct (existsb startswith_underscore (map fst parameters));
      [discriminate|].
    intros H. injection H as <- _. reflexivity.
  - rewrite prettify_nonspace, <- !concat_words. f_equal.
    unfold _normalize_paragraphs.
    change (fun para => replace LF SP (strip para)) with unwrap.
    rewrite words_join_LF. apply unwrap_pieces_words.
Qed.

Lemma str_of_new_session_witness :
  Completer_new (PStr (py "Hi  there")) [] stub_world
  = (Return (stub_session "Hi  there"), stub_world)
  /\ __str__ (stub_session "Hi  there") = Return (py "Hi  there").
Proof.
  assert (H : Completer_new (PStr (py "Hi  there")) [] stub_world
              = (Return (stub_session "Hi  there"), stub_world))
    by reflexivity.
  split; [exact H|].
  exact (proj1 (str_of_new_session nat _ _ _ _ _ H)).
Defined.

(* ================================================================= *)
(** * More properties: wrapping and unwrapping *)

(** ** Joining *)

Lemma join_cons (sep p : str) (parts : list str) :
  parts <> [] -> join sep (p :: parts) = p ++ sep ++ join sep parts.
Proof. destruct parts; [contradiction|reflexivity]. Qed.

Lemma join_app (sep : str) (a b : list str) :
  a <> [] -> b <> [] -> join sep (a ++ b) = join sep a ++ sep ++ join sep b.
Proof.
  intros Ha Hb. induction a as [|p a IH]; [contradiction|].
  destruct a as [|q a].
  - cbn [app]. now rewrite join_cons.
  - rewrite <- app_comm_cons, join_cons by discriminate.
    rewrite IH by discriminate.
    rewrite (join_cons sep p (q :: a)) by discriminate.
    now rewrite <- !app_assoc.
Qed.

Lemma lines_before_snoc (lines : list str) (line : str) :
  join [SP] (lines ++ [line]) = lines_before lines ++ line.
Proof.
  destruct lines as [|l lines]; [reflexivity|].
  rewrite join_app by discriminate. cbn [lines_before join].
  now rewrite <- app_assoc.
Qed.

Lemma concat_spaced (ws : list str) : concat (spaced ws) = join [SP] ws.
Proof.
  induction ws as [|w ws IH]; [reflexivity|].
  destruct ws as [|v ws]; [cbn; now rewrite app_nil_r|].
  change (spaced (w :: v :: ws)) with (w :: [SP] :: spaced (v :: ws)).
  cbn [concat]. rewrite IH, (join_cons [SP] w (v :: ws)) by discriminate.
  reflexivity.
Qed.

Lemma spaced_nil (ws : list str) : spaced ws = [] -> ws = [].
Proof. destruct ws as [|w [|v ws]]; [reflexivity|discriminate|discriminate]. Qed.

Lemma spaced_cons (w : str) (ws : list str) :
  ws <> [] -> spaced (w :: ws) = w :: [SP] :: spaced ws.
Proof. destruct ws; [contradiction|reflexivity]. Qed.

Lemma spaced_snoc (ws : list str) (w : str) :
  ws <> [] -> spaced (ws ++ [w]) = spaced ws ++ [[SP]; w].
Proof.
  intros Hne. induction ws as [|v ws IH]; [contradiction|].
  destruct ws as [|u ws]; [reflexivity|].
  rewrite <- app_comm_cons, spaced_cons by (destruct ws; discriminate).
  rewrite IH by discriminate.
  now rewrite (spaced_cons v (u :: ws)) by discriminate.
Qed.

(** Where a line ends among the chunks of a paragraph: after the last
    word, after a space, or before one. *)
Lemma spaced_cut (ws : list str) (taken rest : list str) :
  spaced ws = taken ++ rest -> taken <> [] ->
  (rest = [] /\ taken = spaced ws)
  \/ exists ws1 ws2,
       ws1 <> [] /\ ws2 <> [] /\ ws = ws1 ++ ws2
       /\ ((taken = spaced ws1 ++ [[SP]] /\ rest = spaced ws2)
           \/ (taken = spaced ws1 /\ rest = [SP] :: spaced ws2)).
Proof.
  revert taken rest. induction ws as [|w ws IH]; intros taken rest Hs Hne.
  - destruct taken; [contradiction|discriminate Hs].
  - destruct taken as [|t taken]; [contradiction|].
    destruct ws as [|v ws].
    + cbn in Hs. injection Hs as <- Hs.
      symmetry in Hs. apply app_eq_nil in Hs. destruct Hs as [-> ->].
      now left.
    + rewrite spaced_cons in Hs by discriminate.
      cbn [app] in Hs. injection Hs as <- Hs.
      destruct taken as [|s taken].
      * right. exists [w], (v :: ws). cbn [app] in Hs. subst rest.
        repeat split; try discriminate. now right.
      * cbn [app] in Hs. injection Hs as <- Hs.
        destruct taken as [|t2 taken].
        -- right. exists [w], (v :: ws). cbn [app] in Hs. subst rest.
           repeat split; try discriminate. now left.
        -- destruct (IH (t2 :: taken) rest Hs) as [[-> Ht] | Hcut];
             [discriminate| |].
           ++ left. split; [reflexivity|].
              rewrite Ht, (spaced_cons w (v :: ws)) by discriminate.
              reflexivity.
           ++ destruct Hcut as [ws1 [ws2 [H1 [H2 [Hw Hc]]]]].
              right. exists (w :: ws1), ws2.
              split; [discriminate|]. split; [exact H2|].
              split; [now rewrite Hw|].
              rewrite (spaced_cons w ws1 H1).
              destruct Hc as [[-> ->] | [-> ->]]; [left|right];
                split; reflexivity.
Qed.

(** ** Short words *)

Lemma blank_SP : blank [SP] = true.
Proof. reflexivity. Qed.

Lemma short_word_not_blank (w : str) : short_word w -> blank w = false.
Proof. intros [Hne [Hs _]]. now apply solid_not_blank. Qed.

Lemma solid_in (w : str) (c : ascii) :
  solid w = true -> In c w -> isspace c = false.
Proof.
  unfold solid. rewrite forallb_forall. intros H Hc.
  apply negb_true_iff. now apply H.
Qed.

Lemma spaced_fit (ws : list str) :
  Forall short_word ws -> Forall (fun c => length c <= width) (spaced ws).
Proof.
  induction ws as [|w ws IH]; intros H; [constructor|].
  inversion H as [|? ? Hw H']; subst.
  destruct ws as [|v ws]; [constructor; [apply Hw|constructor]|].
  rewrite spaced_cons by discriminate.
  constructor; [apply Hw|]. constructor; [cbn; unfold width; lia|].
  now apply IH.
Qed.

Lemma drop_last_blank_spaced (ws : list str) :
  Forall short_word ws -> drop_last_blank (spaced ws) = spaced ws.
Proof.
  destruct ws as [|w ws] using rev_ind; [reflexivity|]. intros H.
  apply Forall_app in H. destruct H as [_ H]. inversion H as [|? ? Hw _].
  subst. destruct ws as [|v ws].
  - cbn [app spaced]. unfold drop_last_blank. cbn [rev app].
    now rewrite (short_word_not_blank w Hw).
  - rewrite spaced_snoc by discriminate.
    change (spaced (v :: ws) ++ [[SP]; w])
      with (spaced (v :: ws) ++ [[SP]] ++ [w]).
    rewrite app_assoc, drop_last_blank_snoc.
    now rewrite (short_word_not_blank w Hw).
Qed.

(** ** Stripped text *)

Lemma lstrip_head (s t : str) :
  s <> [] -> lstrip s = s -> lstrip (s ++ t) = s ++ t.
Proof.
  destruct s as [|c s]; [contradiction|]. intros _ H. cbn [app lstrip] in *.
  destruct (isspace c) eqn:E; [|reflexivity].
  pose proof (lstrip_length s) as Hl. rewrite H in Hl. cbn [length] in Hl. lia.
Qed.

Lemma rstrip_tail (s t : str) :
  t <> [] -> rstrip t = t -> rstrip (s ++ t) = s ++ t.
Proof.
  intros Hne Ht. induction s as [|c s IH]; [exact Ht|].
  cbn [app rstrip]. rewrite IH.
  destruct (s ++ t) eqn:E; [|reflexivity].
  apply app_eq_nil in E. destruct E as [_ E]. contradiction.
Qed.

Lemma trim_strip (s : str) : trim s -> strip s = s.
Proof. intros [_ [Hl Hr]]. unfold strip. now rewrite Hl, Hr. Qed.

Lemma trim_app (a sep b : str) : trim a -> trim b -> trim (a ++ sep ++ b).
Proof.
  intros [Ha [Hla _]] [Hb [_ Hrb]]. split; [|split].
  - destruct a; [contradiction|discriminate].
  - now apply lstrip_head.
  - rewrite app_assoc. now apply rstrip_tail.
Qed.

Lemma trim_join (sep : str) (parts : list str) :
  parts <> [] -> Forall trim parts -> trim (join sep parts).
Proof.
  induction parts as [|p parts IH]; [contradiction|]. intros _ H.
  inversion H as [|? ? Hp H']; subst.
  destruct parts as [|q parts]; [exact Hp|].
  rewrite join_cons by discriminate.
  apply trim_app; [exact Hp|]. apply IH; [discriminate|exact H'].
Qed.

Lemma short_word_trim (w : str) : short_word w -> trim w.
Proof.
  intros [Hne [Hs _]]. split; [exact Hne|].
  assert (Hall : forall c, In c w -> isspace c = false)
    by (intros c; now apply solid_in).
  clear Hs. split.
  - destruct w as [|c w]; [contradiction|]. cbn [lstrip].
    now rewrite (Hall c (or_introl eq_refl)).
  - clear Hne. induction w as [|c w IH]; [reflexivity|]. cbn [rstrip].
    rewrite IH by (intros d Hd; apply Hall; now right).
    destruct w; [|reflexivity].
    now rewrite (Hall c (or_introl eq_refl)).
Qed.

Lemma in_join_inv (sep : str) (parts : list str) (c : ascii) :
  In c (join sep parts) -> In c sep \/ exists p, In p parts /\ In c p.
Proof.
  induction parts as [|p parts IH]; [intros []|].
  destruct parts as [|q parts].
  - intros H. right. exists p. split; [now left|exact H].
  - rewrite join_cons by discriminate. intros H.
    apply in_app_or in H. destruct H as [H | H].
    + right. exists p. split; [now left|exact H].
    + apply in_app_or in H. destruct H as [H | H]; [now left|].
      destruct (IH H) as [Hs | [p' [Hp Hc]]]; [now left|].
      right. exists p'. split; [now right|exact Hc].
Qed.

(** A paragraph of short words with single spaces. *)
Lemma paragraph_chars (ws : list str) (c : ascii) :
  Forall short_word ws -> In c (join [SP] ws) ->
  c = SP \/ (isspace c = false /\ is_hyphen c = false).
Proof.
  intros Hws Hc. apply in_join_inv in Hc.
  destruct Hc as [[<- | []] | [w [Hw Hc]]]; [now left|right].
  rewrite Forall_forall in Hws. destruct (Hws w Hw) as [_ [Hs [Hh _]]].
  split; [exact (solid_in w c Hs Hc)|].
  destruct (is_hyphen c) eqn:E; [|reflexivity].
  apply Ascii.eqb_eq in E. subst c. contradiction.
Qed.

Lemma paragraph_trim (ws : list str) :
  ws <> [] -> Forall short_word ws ->
  trim (join [SP] ws) /\ ~ In LF (join [SP] ws).
Proof.
  intros Hne Hws. split.
  - apply trim_join; [exact Hne|].
    eapply Forall_impl; [|exact Hws]. exact short_word_trim.
  - intros H. destruct (paragraph_chars ws LF Hws H) as [H0 | [H0 _]];
      discriminate H0.
Qed.

(** ** The chunks of a paragraph *)

Lemma paragraph_plain (ws : list str) :
  Forall short_word ws -> plain (join [SP] ws).
Proof.
  intros Hws c Hc.
  destruct (paragraph_chars ws c Hws Hc) as [-> | [Hs Hh]];
    [split; reflexivity|].
  split; [exact Hh|]. rewrite Hs. symmetry.
  destruct (is_ws c) eqn:E; [|reflexivity].
  rewrite (is_ws_isspace c E) in Hs. discriminate Hs.
Qed.

Lemma expandtabs_none (col : nat) (s : str) :
  ~ In TAB s -> expandtabs_from col s = s.
Proof.
  revert col. induction s as [|c s IH]; intros col H; [reflexivity|].
  cbn [expandtabs_from]. destruct (Ascii.eqb c TAB) eqn:E.
  - apply Ascii.eqb_eq in E. subst c. exfalso. apply H. now left.
  - assert (Hs : ~ In TAB s) by (intros Hin; apply H; now right).
    destruct (Ascii.eqb c LF || Ascii.eqb c CR); now rewrite IH.
Qed.

(** [_munge_whitespace] leaves such a paragraph as it is. *)
Lemma munge_paragraph (ws : list str) :
  Forall short_word ws ->
  _munge_whitespace (join [SP] ws) = join [SP] ws.
Proof.
  intros Hws. unfold _munge_whitespace.
  assert (Hc : forall c, In c (join [SP] ws) ->
                         c = SP \/ isspace c = false)
    by (intros c Hc; destruct (paragraph_chars ws c Hws Hc) as [H | [H _]];
        [now left|now right]).
  rewrite expandtabs_none.
  - induction (join [SP] ws) as [|c s IH]; [reflexivity|]. cbn [map].
    rewrite IH by (intros d Hd; apply Hc; now right). f_equal.
    destruct (Hc c (or_introl eq_refl)) as [-> | H]; [reflexivity|].
    now apply to_space_id.
  - intros H. destruct (Hc TAB H) as [H0 | H0]; discriminate H0.
Qed.

Lemma run_length_app (p : ascii -> bool) (a b : str) :
  forallb p a = true -> heads p b = false ->
  run_length p (a ++ b) = length a.
Proof.
  intros Ha Hb. induction a as [|c a IH].
  - destruct b as [|d b]; [reflexivity|]. cbn in *. now rewrite Hb.
  - cbn in *. apply andb_true_iff in Ha. destruct Ha as [-> Ha].
    now rewrite IH.
Qed.

Lemma firstn_length_app (A : Type) (a b : list A) :
  firstn (length a) (a ++ b) = a.
Proof. rewrite firstn_app, Nat.sub_diag, firstn_all. cbn. apply app_nil_r. Qed.

Lemma skipn_length_app (A : Type) (a b : list A) :
  skipn (length a) (a ++ b) = b.
Proof. rewrite skipn_app, Nat.sub_diag, skipn_all. reflexivity. Qed.

Lemma short_word_no_ws (w : str) :
  short_word w -> forallb (fun c => negb (is_ws c)) w = true.
Proof.
  intros [_ [Hs _]]. apply forallb_forall. intros c Hc.
  apply negb_true_iff. destruct (is_ws c) eqn:E; [|reflexivity].
  rewrite <- (solid_in w c Hs Hc). symmetry. now apply is_ws_isspace.
Qed.

Lemma paragraph_head (ws : list str) :
  ws <> [] -> Forall short_word ws -> heads is_ws (join [SP] ws) = false.
Proof.
  intros Hne Hws. destruct ws as [|w ws]; [contradiction|].
  inversion Hws as [|? ? Hw _]; subst.
  pose proof (short_word_no_ws w Hw) as Hn. destruct Hw as [Hw _].
  destruct w as [|c w]; [contradiction|].
  assert (Hc : is_ws c = false).
  { cbn in Hn. apply andb_true_iff in Hn. destruct Hn as [Hn _].
    now apply negb_true_iff in Hn. }
  destruct ws; [exact Hc|]. rewrite join_cons by discriminate. exact Hc.
Qed.

(** [_split] cuts such a paragraph into its words and the spaces between
    them. *)
Lemma split_chunks_spaced (ws : list str) (fuel : nat) (before : str) :
  Forall short_word ws -> length (join [SP] ws) <= fuel ->
  split_chunks fuel before (join [SP] ws) = spaced ws.
Proof.
  revert fuel before. induction ws as [|w ws IH]; intros fuel before Hws Hfuel.
  - destruct fuel; reflexivity.
  - pose proof (paragraph_plain (w :: ws) Hws) as Hp.
    inversion Hws as [|? ? Hw Hws']; subst.
    pose proof (short_word_no_ws w Hw) as Hn.
    assert (Hrest : exists rest,
               join [SP] (w :: ws) = w ++ rest
               /\ heads (fun c => negb (is_ws c)) rest = false
               /\ (ws = [] -> rest = [])
               /\ (ws <> [] -> rest = SP :: join [SP] ws)).
    { destruct ws as [|v ws].
      - exists []. cbn. rewrite app_nil_r. repeat split. intros H. now destruct H.
      - exists (SP :: join [SP] (v :: ws)). rewrite join_cons by discriminate.
        repeat split. intros H. discriminate H. }
    destruct Hrest as [rest [Hj [Hh [Hnil Hcons]]]].
    rewrite Hj in Hp, Hfuel |- *.
    destruct w as [|c w]; [now destruct Hw|].
    cbn [app] in Hp, Hfuel |- *.
    destruct fuel as [|fuel]; [cbn [length] in Hfuel; lia|].
    cbn [split_chunks]. rewrite (wordsep_match_plain before c (w ++ rest) Hp).
    cbn [forallb] in Hn. apply andb_true_iff in Hn. destruct Hn as [Hc Hn].
    apply negb_true_iff in Hc. rewrite Hc.
    rewrite (run_length_app _ w rest Hn Hh).
    change (S (length w)) with (length (c :: w)).
    change (c :: w ++ rest) with ((c :: w) ++ rest).
    rewrite firstn_length_app, skipn_length_app.
    destruct ws as [|v ws].
    + rewrite (Hnil eq_refl). destruct fuel; reflexivity.
    + rewrite (Hcons ltac:(discriminate)) in Hfuel |- *.
      rewrite spaced_cons by discriminate. f_equal.
      cbn [length] in Hfuel. rewrite length_app in Hfuel.
      cbn [length] in Hfuel.
      destruct fuel as [|fuel]; [lia|].
      cbn [split_chunks wordsep_match].
      change (is_ws SP) with true. cbn iota.
      assert (Hrun : run_length is_ws (SP :: join [SP] (v :: ws)) = 1).
      { cbn [run_length]. change (is_ws SP) with true. cbn iota.
        pose proof (paragraph_head (v :: ws) ltac:(discriminate) Hws') as Hv.
        destruct (join [SP] (v :: ws)) as [|d s]; [reflexivity|].
        cbn in Hv |- *. now rewrite Hv. }
      rewrite Hrun. cbn [firstn skipn]. f_equal.
      apply IH; [exact Hws'|lia].
Qed.

Lemma split_paragraph (ws : list str) :
  Forall short_word ws -> _split (join [SP] ws) = spaced ws.
Proof. intros H. unfold _split. now apply split_chunks_spaced. Qed.

(** ** The lines of a paragraph *)

Lemma drop_first_blank_spaced (lines : list str) (ws : list str) :
  Forall short_word ws -> drop_first_blank lines (spaced ws) = spaced ws.
Proof.
  intros Hws. destruct ws as [|w ws]; [reflexivity|].
  inversion Hws as [|? ? Hw _]; subst.
  assert (Hs : exists rest, spaced (w :: ws) = w :: rest)
    by (destruct ws; eexists; reflexivity).
  destruct Hs as [rest ->]. unfold drop_first_blank.
  destruct lines; [reflexivity|]. now rewrite (short_word_not_blank w Hw).
Qed.

Lemma lines_before_more (lines : list str) (line : str) :
  lines_before (lines ++ [line]) = lines_before lines ++ line ++ [SP].
Proof.
  rewrite app_assoc, <- lines_before_snoc.
  destruct lines; reflexivity.
Qed.

Lemma append_line_spaced (lines : list str) (ws : list str) :
  ws <> [] -> append_line lines (spaced ws) = lines ++ [join [SP] ws].
Proof.
  intros Hne. rewrite <- concat_spaced.
  destruct (spaced ws) eqn:E; [|reflexivity].
  apply spaced_nil in E. contradiction.
Qed.

(** A turn puts the next words on a line, and leaves the others. *)
Lemma wrap_line_rewraps (g : str) (lines chunks : list str) :
  chunks <> [] -> rewraps g lines chunks ->
  rewraps g (fst (wrap_line lines chunks)) (snd (wrap_line lines chunks)).
Proof.
  intros Hne [Hgood [[Hnil _] | [ws [Hws0 [Hws [Hshape Hg]]]]]];
    [contradiction|].
  assert (Hdrop : drop_first_blank lines chunks = spaced ws).
  { destruct Hshape as [-> | [Hl ->]].
    - now apply drop_first_blank_spaced.
    - destruct lines; [contradiction|reflexivity]. }
  destruct (wrap_line_cases lines chunks)
    as [taken [rest [Hsplit [Hlen [[Hrest ->] | Hlong]]]]].
  2:{ destruct Hlong as [chunk [rest' [stop [-> [Hw _]]]]].
      rewrite Hdrop in Hsplit. pose proof (spaced_fit ws Hws) as Hfit.
      rewrite Hsplit in Hfit. apply Forall_app in Hfit.
      destruct Hfit as [_ Hfit]. inversion Hfit; subst. lia. }
  rewrite Hdrop in Hsplit. cbn [fst snd].
  assert (Htaken : taken <> []).
  { intros ->. cbn [app] in Hsplit. rewrite <- Hsplit in Hrest.
    destruct (spaced ws) eqn:E; [apply spaced_nil in E; contradiction|].
    cbn [concat length] in Hrest. lia. }
  assert (Hline : forall ws1,
             ws1 <> [] -> Forall short_word ws1 ->
             Forall (fun line => trim line /\ ~ In LF line)
               (lines ++ [join [SP] ws1])).
  { intros ws1 H1 Hs1. apply Forall_app. split; [exact Hgood|].
    constructor; [now apply paragraph_trim|constructor]. }
  destruct (spaced_cut ws taken rest Hsplit Htaken)
    as [[-> ->] | [ws1 [ws2 [H1 [H2 [Hw Hc]]]]]].
  - rewrite (drop_last_blank_spaced ws Hws), (append_line_spaced lines ws Hws0).
    split; [now apply Hline|]. left. split; [reflexivity|].
    split; [destruct lines; discriminate|].
    now rewrite lines_before_snoc.
  - subst ws. apply Forall_app in Hws. destruct Hws as [Hs1 Hs2].
    assert (Hdl : drop_last_blank taken = spaced ws1).
    { destruct Hc as [[-> _] | [-> _]].
      - now rewrite drop_last_blank_snoc, blank_SP.
      - now apply drop_last_blank_spaced. }
    rewrite Hdl, (append_line_spaced lines ws1 H1).
    split; [now apply Hline|]. right. exists ws2.
    split; [exact H2|]. split; [exact Hs2|]. split.
    + destruct Hc as [[_ ->] | [_ ->]]; [now left|right].
      split; [destruct lines; discriminate|reflexivity].
    + rewrite Hg, lines_before_more, (join_app [SP] ws1 ws2 H1 H2).
      now rewrite <- !app_assoc.
Qed.

Lemma spaced_nonempty (ws : list str) :
  Forall short_word ws -> Forall (fun c : str => c <> []) (spaced ws).
Proof.
  induction ws as [|w ws IH]; intros H; [constructor|].
  inversion H as [|? ? Hw H']; subst.
  destruct ws as [|v ws]; [constructor; [apply Hw|constructor]|].
  rewrite spaced_cons by discriminate.
  constructor; [apply Hw|]. constructor; [discriminate|now apply IH].
Qed.

(** [textwrap.wrap] puts the words of such a paragraph on lines, a newline
    for a space. *)
Lemma wrap_paragraph (ws : list str) :
  ws <> [] -> Forall short_word ws ->
  wrap (join [SP] ws) <> []
  /\ Forall (fun line => trim line /\ ~ In LF line) (wrap (join [SP] ws))
  /\ join [SP] (wrap (join [SP] ws)) = join [SP] ws.
Proof.
  intros Hne Hws. unfold wrap, _wrap_chunks.
  rewrite (munge_paragraph ws Hws), (split_paragraph ws Hws).
  destruct (wrap_lines_invariant (rewraps (join [SP] ws))
              (fun lines chunks Hc _ H =>
                 wrap_line_rewraps (join [SP] ws) lines chunks Hc H)
              (turns (spaced ws)) [] (spaced ws)
              (spaced_nonempty ws Hws) (le_n _))
    as [out [-> [Hgood Hend]]].
  - split; [constructor|]. right. exists ws. repeat split; try assumption.
    now left.
  - destruct Hend as [[_ [Hout Hj]] | [ws' [Hne' [_ [[Hs | [_ Hs]] _]]]]].
    + repeat split; assumption.
    + symmetry in Hs. apply spaced_nil in Hs. contradiction.
    + discriminate Hs.
Qed.

(** ** Blocks *)

Lemma replace_app (a b : ascii) (s t : str) :
  replace a b (s ++ t) = replace a b s ++ replace a b t.
Proof. unfold replace. apply map_app. Qed.

Lemma replace_join (lines : list str) :
  Forall (fun line => ~ In LF line) lines ->
  replace LF SP (join [LF] lines) = join [SP] lines.
Proof.
  induction lines as [|l lines IH]; intros H; [reflexivity|].
  inversion H as [|? ? Hl H']; subst.
  destruct lines as [|m lines]; [now apply replace_without|].
  rewrite !join_cons by discriminate.
  rewrite !replace_app, (replace_without l Hl), (IH H'). reflexivity.
Qed.

Lemma trim_head (s : str) : trim s -> heads isspace s = false.
Proof.
  intros [Hne [Hl _]]. destruct s as [|c s]; [contradiction|].
  cbn [lstrip heads] in *. destruct (isspace c) eqn:E; [|reflexivity].
  pose proof (lstrip_length s) as H. rewrite Hl in H. cbn [length] in H. lia.
Qed.

Lemma trim_starts (s : str) : trim s -> starts_nl s = false.
Proof.
  intros H. apply trim_head in H. destruct s as [|c s]; [reflexivity|].
  cbn in *. destruct (is_nl c) eqn:E; [|reflexivity].
  now rewrite (is_nl_isspace c E) in H.
Qed.

Lemma search_line (l s : str) :
  l <> [] -> ~ In LF l -> starts_nl s = false ->
  _PARA_BREAK_search s = false ->
  _PARA_BREAK_search (l ++ LF :: s) = false.
Proof.
  intros Hne Hl Hs Hb. induction l as [|c l IH]; [contradiction|].
  assert (Hc : is_nl c = false).
  { destruct (is_nl c) eqn:E; [|reflexivity].
    apply is_nl_true in E. subst c. exfalso. apply Hl. now left. }
  cbn [app _PARA_BREAK_search]. rewrite Hc. cbn [andb orb].
  destruct l as [|d l].
  - cbn [app _PARA_BREAK_search]. rewrite is_nl_LF, Hs, Hb. reflexivity.
  - apply IH; [discriminate|]. intros Hin. apply Hl. now right.
Qed.

(** The lines of a block, joined, hold no paragraph break. *)
Lemma block_trim (lines : list str) :
  lines <> [] -> Forall (fun line => trim line /\ ~ In LF line) lines ->
  trim (join [LF] lines) /\ _PARA_BREAK_search (join [LF] lines) = false.
Proof.
  intros Hne H. split.
  - apply trim_join; [exact Hne|].
    eapply Forall_impl; [|exact H]. now intros l [Hl _].
  - induction lines as [|l lines IH]; [contradiction|].
    inversion H as [|? ? [Hl Hn] H']; subst.
    destruct lines as [|m lines]; [now apply no_LF_no_break|].
    rewrite join_cons by discriminate. cbn [app].
    apply search_line; [apply Hl|exact Hn| |].
    + apply trim_starts, trim_join; [discriminate|].
      eapply Forall_impl; [|exact H']. now intros l' [Hl' _].
    + apply IH; [discriminate|exact H'].
Qed.

Lemma split_from_true_start (rest : str) :
  starts_nl rest = false ->
  _PARA_BREAK_split_from true rest = _PARA_BREAK_split_from false rest.
Proof.
  destruct rest as [|c rest]; [reflexivity|]. cbn [starts_nl]. intros H.
  rewrite !split_from_cons, H. reflexivity.
Qed.

Lemma rstrip_cons_inv (c : ascii) (s : str) :
  rstrip (c :: s) = c :: s ->
  (s = [] /\ isspace c = false) \/ (s <> [] /\ rstrip s = s).
Proof.
  cbn [rstrip]. destruct (rstrip s) as [|d r] eqn:E.
  - destruct (isspace c); [discriminate|]. intros H. injection H as <-.
    now left.
  - intros H. injection H as <-. right. split; [discriminate|reflexivity].
Qed.

(** A block goes up to the blank line after it. *)
Lemma split_from_block (b rest : str) :
  _PARA_BREAK_search b = false -> rstrip b = b -> starts_nl rest = false ->
  _PARA_BREAK_split_from false (b ++ LF :: LF :: rest)
  = b :: _PARA_BREAK_split_from false rest.
Proof.
  intros Hb Hr Hs. induction b as [|c b IH].
  - cbn [app]. rewrite split_from_cons, is_nl_LF. cbn [starts_nl andb].
    rewrite is_nl_LF, split_from_cons, is_nl_LF.
    now rewrite split_from_true_start.
  - cbn [_PARA_BREAK_search] in Hb. apply orb_false_iff in Hb.
    destruct Hb as [Hc Hb]. cbn [app]. rewrite split_from_cons.
    assert (Hhere : is_nl c && starts_nl (b ++ LF :: LF :: rest) = false).
    { destruct (rstrip_cons_inv c b Hr) as [[-> Hsp] | [Hne _]].
      - destruct (is_nl c) eqn:E; [|reflexivity].
        now rewrite (is_nl_isspace c E) in Hsp.
      - destruct b as [|d b]; [contradiction|exact Hc]. }
    rewrite Hhere.
    destruct (rstrip_cons_inv c b Hr) as [[-> _] | [_ Hrb]].
    + now rewrite (IH Hb eq_refl).
    + now rewrite (IH Hb Hrb).
Qed.

Lemma split_blocks (blocks : list str) :
  blocks <> [] ->
  Forall (fun b => trim b /\ _PARA_BREAK_search b = false) blocks ->
  _PARA_BREAK_split (join [LF; LF] blocks) = blocks.
Proof.
  unfold _PARA_BREAK_split.
  induction blocks as [|b blocks IH]; [contradiction|]. intros _ H.
  inversion H as [|? ? [Hb Hs] H']; subst.
  destruct blocks as [|b2 blocks]; [now apply split_single|].
  rewrite join_cons by discriminate. cbn [app].
  rewrite split_from_block.
  - f_equal. apply IH; [discriminate|exact H'].
  - exact Hs.
  - apply Hb.
  - apply trim_starts, trim_join; [discriminate|].
    eapply Forall_impl; [|exact H']. now intros l [Hl _].
Qed.

(** X15: unwrapping undoes wrapping: for a text in normal form whose
    paragraphs are words with single spaces between them, none of the
    words empty, with whitespace or a hyphen in it, or longer than 70
    characters, the normal form of the prettified text is the text. *)
Theorem normalize_prettify (paragraphs : list (list str)) :
  paragraphs <> [] ->
  Forall (fun ws => ws <> [] /\ Forall short_word ws) paragraphs ->
  _normalize_paragraphs (_prettify_paragraphs (single_spaced paragraphs))
  = single_spaced paragraphs.
Proof.
  intros Hne Hps. unfold single_spaced.
  set (grafs := map (join [SP]) paragraphs).
  assert (Hgrafs : Forall (fun g => trim g /\ ~ In LF g) grafs).
  { apply Forall_forall. intros g Hg. apply in_map_iff in Hg.
    destruct Hg as [ws [<- Hws]]. rewrite Forall_forall in Hps.
    destruct (Hps ws Hws) as [H1 H2]. now apply paragraph_trim. }
  assert (Hgne : grafs <> [])
    by (unfold grafs; destruct paragraphs; [contradiction|discriminate]).
  unfold _prettify_paragraphs.
  rewrite trim_strip
    by (apply trim_join; [exact Hgne|];
        eapply Forall_impl; [|exact Hgrafs]; now intros g [Hg _]).
  rewrite split_join
    by first [exact Hgne
             |eapply Forall_impl; [|exact Hgrafs]; now intros g [_ Hg]].
  unfold _normalize_paragraphs.
  assert (Hblocks : forall g, In g grafs ->
             (trim (join [LF] (wrap g))
              /\ _PARA_BREAK_search (join [LF] (wrap g)) = false)
             /\ replace LF SP (strip (join [LF] (wrap g))) = g).
  { intros g Hg. apply in_map_iff in Hg. destruct Hg as [ws [<- Hws]].
    rewrite Forall_forall in Hps. destruct (Hps ws Hws) as [H1 H2].
    destruct (wrap_paragraph ws H1 H2) as [Hw [Hgood Hj]].
    pose proof (block_trim _ Hw Hgood) as Hb. split; [exact Hb|].
    rewrite (trim_strip _ (proj1 Hb)), replace_join; [exact Hj|].
    eapply Forall_impl; [|exact Hgood]. now intros l [_ Hl]. }
  rewrite split_blocks.
  - rewrite map_map. f_equal. rewrite <- (map_id grafs) at 2.
    apply map_ext_in. intros g Hg. apply (Hblocks g Hg).
  - destruct grafs; [contradiction|discriminate].
  - apply Forall_forall. intros b Hb. apply in_map_iff in Hb.
    destruct Hb as [g [<- Hg]]. apply (Hblocks g Hg).
Qed.

Lemma normalize_prettify_witness :
  _normalize_paragraphs
    (_prettify_paragraphs
       (single_spaced [[py "Once"; py "upon"; py "a"; py "time"];
                       [py "The"; py "end."]]))
  = single_spaced [[py "Once"; py "upon"; py "a"; py "time"];
                   [py "The"; py "end."]].
Proof.
  apply normalize_prettify; [discriminate|].
  assert (Hw : forall w : string,
             py w <> [] -> solid (py w) = true ->
             existsb is_hyphen (py w) = false ->
             (length (py w) <=? width) = true -> short_word (py w)).
  { intros w H1 H2 H3 H4. split; [exact H1|]. split; [exact H2|]. split.
    - intros Hin.
      assert (Hx : existsb is_hyphen (py w) = true).
      { apply existsb_exists. exists HYPHEN. split; [exact Hin|reflexivity]. }
      rewrite Hx in H3. discriminate H3.
    - now apply Nat.leb_le. }
  repeat constructor; try discriminate;
    apply Hw; try discriminate; reflexivity.
Defined.

(** A paragraph long enough for three lines, there and back. *)
Example normalize_prettify_long :
  let word := py "abcdefghi" in
  let graf := join [SP] (repeat word 20) in
  _prettify_paragraphs graf
  = join [SP] (repeat word 7) ++ [LF] ++ join [SP] (repeat word 7) ++ [LF]
    ++ join [SP] (repeat word 6)
  /\ _normalize_paragraphs (_prettify_paragraphs graf) = graf.
Proof. vm_compute. split; reflexivity. Qed.
